(** * windu: a terminal disk-usage explorer

    A shallow embedding of [src/__main__.py] and the properties its
    specification states about it.

    Conventions of the embedding.
    - Python [int] is [Z] (unbounded, no wrap-around).
    - Python [str] is [string]; only ASCII case mapping is modelled.
    - Every node of the scanned tree is a Python [dict] that is reached
      through several references at once ([path_map], the [children] list of
      its parent, the [parent] key of its children, the navigation
      [history]).  The dicts therefore live in a [store], a list of [node]
      records addressed by allocation index ([ref]); creating a dict appends
      to the store, mutating a dict rewrites its slot.
    - A Python exception that is not caught ([KeyError], [IndexError],
      [RecursionError]) is the [None] of an [option] result.
    - The recursive closures of [scanner_worker] take a [fuel] argument: the
      depth of recursion the interpreter allows.  Exhausting it is
      [RecursionError], again [None].
    - The lock of [ScanState] is modelled twice: each method as one atomic
      function, and, for the claims about interleavings, as a two-thread
      transition system that runs the statements of a method one by one. *)

From Stdlib Require Import ZArith QArith Qround String Ascii List Lia.
From Stdlib Require Import Permutation Sorted DecimalString.
From stdpp Require Import base option list gmap strings.

Open Scope Z_scope.

(* ================================================================= *)
(** * Part I: the program *)
(* ================================================================= *)

(** ** Python built-ins used by the program *)

Module Py.

(** [l[i]] with Python's negative indices; [None] is [IndexError]. *)
Definition index {A : Type} (l : list A) (i : Z) : option A :=
  let n := Z.of_nat (length l) in
  if (0 <=? i) && (i <? n) then l !! Z.to_nat i
  else if (- n <=? i) && (i <? 0) then l !! Z.to_nat (n + i)
  else None.

Section Sort.
Context {A : Type} (key : A → Z) (reverse : bool).

(** [x] may stand in front of [y] in the sorted list. *)
Definition goes_before (x y : A) : bool :=
  if reverse then key y <=? key x else key x <=? key y.

Fixpoint insert_stable (x : A) (l : list A) : list A :=
  match l with
  | [] => [x]
  | y :: l' => if goes_before x y then x :: l else y :: insert_stable x l'
  end.

(** [list.sort(key=..., reverse=...)]: the library documents the sort as
    stable, also under [reverse=True].  The model is the stable
    insertion sort; an element is inserted in front of the sorted rest it
    preceded in the input, so it lands before the elements of equal key. *)
Definition sort (l : list A) : list A := foldr insert_stable [] l.
End Sort.

(** [sum] of a generator whose items are produced by an effectful call:
    left to right, starting from 0, threading the state. *)
Fixpoint sum_with {I S : Type} (f : I → S → option (Z * S))
    (items : list I) (acc : Z) (s : S) : option (Z * S) :=
  match items with
  | [] => Some (acc, s)
  | c :: items' =>
      match f c s with
      | Some (v, s') => sum_with f items' (acc + v) s'
      | None => None
      end
  end.

(** A [for] loop whose body is an effectful call on each item; the body
    may raise. *)
Fixpoint for_each {I S : Type} (f : S → I → option S)
    (items : list I) (s : S) : option S :=
  match items with
  | [] => Some s
  | c :: items' =>
      match f s c with
      | Some s' => for_each f items' s'
      | None => None
      end
  end.

(** [str(n)] for an [int]. *)
Definition str (n : Z) : string := NilZero.string_of_int (Z.to_int n).

Definition ascii_lower (c : ascii) : ascii :=
  let n := nat_of_ascii c in
  if ((65 <=? n) && (n <=? 90))%nat then ascii_of_nat (n + 32) else c.

Fixpoint lower (s : string) : string :=
  match s with
  | EmptyString => EmptyString
  | String c s' => String (ascii_lower c) (lower s')
  end.

Definition endswith (s suffix : string) : bool :=
  let n := String.length s in
  let m := String.length suffix in
  if (m <=? n)%nat then String.eqb (String.substring (n - m) m s) suffix
  else false.

Definition startswith (s pre : string) : bool := String.prefix pre s.

(** [os.path.join(a, b)] on a POSIX host. *)
Definition path_join (a b : string) : string :=
  if startswith b "/" then b
  else if String.eqb a "" || endswith a "/" then a +:+ b
  else a +:+ "/" +:+ b.

(** [a / b] on two [int]s.  The result is a [float]; the model keeps the
    exact quotient.  [None] is [ZeroDivisionError]. *)
Definition truediv (a b : Z) : option Q :=
  if b =? 0 then None else Some (inject_Z a / inject_Z b)%Q.

(** Rounding to the nearest integer, ties to even: what the [f]
    presentation type does to the digit after the last one shown. *)
Definition round_half_even (q : Q) : Z :=
  let n := Qfloor q in
  let r := (q - inject_Z n)%Q in
  match (r ?= 1 # 2)%Q with
  | Lt => n
  | Gt => n + 1
  | Eq => if Z.even n then n else n + 1
  end.

Fixpoint spaces (n : nat) : string :=
  match n with
  | O => ""
  | S n' => " " +:+ spaces n'
  end.

(** Right-align in a field of [width] characters (the default alignment
    of numbers); a longer string is left as it is. *)
Definition rjust (width : nat) (s : string) : string :=
  spaces (width - String.length s) +:+ s.

Definition two_digits (n : Z) : string :=
  if n <? 10 then "0" +:+ str n else str n.

(** [f"{x:6.2f}"] for [0 <= x]. *)
Definition format_6_2f (x : Q) : string :=
  let cents := round_half_even (x * 100)%Q in
  rjust 6 (str (cents / 100) +:+ "." +:+ two_digits (cents mod 100)).

End Py.

(** ** The nodes of the tree *)

(** A reference to a node dict: its index in the store. *)
Abbreviation ref := nat.

Inductive node_type := directory | file.

(** The keys of a node dict.  The root and the directories carry
    ['children'], the files do not: an absent key is [None].  ['parent'] is
    always present and holds [None] at the root. *)
Record node := mk_node {
  name : string;
  type : node_type;
  size : Z;
  children : option (list ref);
  parent : option ref;
  is_executable : option bool;
  expanded : option bool
}.

Abbreviation store := (list node).

Definition set_size (v : Z) (n : node) : node :=
  mk_node (name n) (type n) v (children n) (parent n)
          (is_executable n) (expanded n).

Definition set_children (cs : list ref) (n : node) : node :=
  mk_node (name n) (type n) (size n) (Some cs) (parent n)
          (is_executable n) (expanded n).

(** [node.get('children', [])] *)
Definition get_children (n : node) : list ref := default [] (children n).

(** A fresh dict. *)
Definition alloc (st : store) (n : node) : ref * store :=
  (length st, st ++ [n]).

(** [x['size']] for a reference [x]; the sort key of both sorts. *)
Definition size_of (st : store) (x : ref) : Z :=
  match st !! x with
  | Some n => size n
  | None => 0
  end.

#[global] Instance node_type_eq_dec : EqDecision node_type.
Proof. solve_decision. Defined.

(** ** [class ScanState] *)

Module ScanState.

Record t := mk {
  total_items : Z;
  scanned_items : Z;
  dir_count : Z;
  file_count : Z;
  total_size : Z;
  current_path : string;
  done : bool;
  tree : option ref
}.

Definition init : t := mk 0 0 0 0 0 "" false None.

(** The body of each method runs under [self.lock]; here each method is
    one atomic state change. *)
Definition update (path : string) (is_file : bool) (sz : Z) (s : t) : t :=
  let scanned := scanned_items s + 1 in
  if is_file
  then mk (total_items s) scanned (dir_count s) (file_count s + 1)
          (total_size s + sz) path (done s) (tree s)
  else mk (total_items s) scanned (dir_count s + 1) (file_count s)
          (total_size s) path (done s) (tree s).

Definition snapshot : Type := Z * Z * Z * Z * Z * string * bool.

Definition get_state (s : t) : snapshot :=
  (total_items s, scanned_items s, dir_count s,
   file_count s, total_size s, current_path s, done s).

Definition set_total_items (total : Z) (s : t) : t :=
  mk total (scanned_items s) (dir_count s) (file_count s)
     (total_size s) (current_path s) (done s) (tree s).

Definition set_done (tr : option ref) (s : t) : t :=
  mk (total_items s) (scanned_items s) (dir_count s) (file_count s)
     (total_size s) (current_path s) true tr.

End ScanState.

(** ** [format_bytes] *)

(** The loop over the unit names.  [sz] is a Python [float]; for an [int]
    argument below [2^53] the conversion to [float] and every division by
    [1024.0] are exact, so the [float] is the rational number kept here. *)
Fixpoint format_bytes_units (units : list string) (sz : Q) : string :=
  match units with
  | [] => Py.format_6_2f sz +:+ " PB"
  | unit :: units' =>
      let sz := (sz / 1024)%Q in
      if Qle_bool 1024 sz
      then format_bytes_units units' sz
      else Py.format_6_2f sz +:+ " " +:+ unit
  end.

Definition format_bytes (sz : Z) : string :=
  if sz <? 1024 then Py.str sz +:+ " B"
  else format_bytes_units ["KB"; "MB"; "GB"; "TB"]%string (inject_Z sz).

(** ** [scanner_worker] *)

(** Pass 3, the closure [calculate_dir_size].  It returns the size and
    leaves it in [node['size']] of every directory it visits. *)
Fixpoint calculate_dir_size (fuel : nat) (node : ref) (st : store)
    : option (Z * store) :=
  match fuel with
  | O => None
  | S fuel' =>
      n ← st !! node;
      match type n with
      | file => Some (size n, st)
      | directory =>
          '(total, st') ← Py.sum_with (calculate_dir_size fuel')
                                      (get_children n) 0 st;
          Some (total, alter (set_size total) node st')
      end
  end.

(** Pass 4, the closure [sort_children_recursively].  The loop runs over
    the list just sorted; the calls it makes reach the nodes below [node]
    only, so the list stays as it is while the loop runs. *)
Fixpoint sort_children_recursively (fuel : nat) (st : store) (node : ref)
    : option store :=
  match fuel with
  | O => None
  | S fuel' =>
      n ← st !! node;
      match type n, children n with
      | directory, Some cs =>
          let cs' := Py.sort (size_of st) true cs in
          let st' := <[node := set_children cs' n]> st in
          Py.for_each (sort_children_recursively fuel') cs' st'
      | _, _ => Some st
      end
  end.

Section Scanner.

(** What the scanner asks of the operating system: the triples
    [os.walk(path, topdown=True, onerror=...)] yields, [os.path.getsize]
    ([None] is [OSError]) and [os.path.basename].  [os_walk] is the answer
    of one traversal.  The worker traverses twice, once in pass 1 and once
    in pass 2, and on a filesystem that changes in between the two answers
    differ: [count_items] and [build_tree] each take the traversal they
    read, and what relates the counters of the two passes is stated with a
    traversal for each.  [scanner_worker] is the run in which both
    traversals give the same answer. *)
Variable os_walk : string → list (string * list string * list string).
Variable getsize : string → option Z.
Variable basename : string → string.

Definition root_dict (path : string) : node :=
  mk_node (basename path) directory 0 (Some []) None None None.

Definition dir_dict (d : string) (parent_node : ref) : node :=
  mk_node d directory 0 (Some []) (Some parent_node) None (Some false).

Definition file_dict (f : string) (sz : Z) (parent_node : ref)
    (is_exe : bool) : node :=
  mk_node f file sz None (Some parent_node) (Some is_exe) None.

(** [parent_node['children'].append(node)] *)
Definition append_child (parent_node node : ref) (st : store)
    : option store :=
  n ← st !! parent_node;
  cs ← children n;
  Some (<[parent_node := set_children (cs ++ [node]) n]> st).

(** Pass 1. *)
Definition count_items (path : string) : Z :=
  fold_left (λ total_items '(_, dirs, files),
               total_items + (Z.of_nat (length dirs) + Z.of_nat (length files)))
            (os_walk path) 0.

(** The variables of pass 2: the node dicts, [path_map] and the shared
    [state]. *)
Definition build_state : Type := store * gmap string ref * ScanState.t.

(** The body of [for d in dirs]. *)
Definition scan_dir (root : string) (parent_node : ref)
    (b : build_state) (d : string) : option build_state :=
  let '(st, path_map, state) := b in
  let dir_path := Py.path_join root d in
  let '(node, st) := alloc st (dir_dict d parent_node) in
  st ← append_child parent_node node st;
  Some (st, <[dir_path := node]> path_map,
        ScanState.update dir_path false 0 state).

(** The body of [for f in files]: the [try] block stops at the failing
    [getsize], before the node is made, and the handler only counts. *)
Definition scan_file (root : string) (parent_node : ref)
    (b : build_state) (f : string) : option build_state :=
  let '(st, path_map, state) := b in
  let file_path := Py.path_join root f in
  match getsize file_path with
  | Some sz =>
      let is_exe := Py.endswith (Py.lower f) ".exe" in
      let '(node, st) := alloc st (file_dict f sz parent_node is_exe) in
      st ← append_child parent_node node st;
      Some (st, path_map, ScanState.update file_path true sz state)
  | None =>
      Some (st, path_map, ScanState.update file_path true 0 state)
  end.

(** The body of the loop over [os.walk]. *)
Definition scan_root (b : build_state)
    (entry : string * list string * list string) : option build_state :=
  let '(root, dirs, files) := entry in
  parent_node ← b.1.2 !! root;
  b ← Py.for_each (scan_dir root parent_node) dirs b;
  Py.for_each (scan_file root parent_node) files b.

(** Pass 2, from the fresh root dict on. *)
Definition build_tree (path : string) (state : ScanState.t)
    : option build_state :=
  let '(root_node, st) := alloc [] (root_dict path) in
  Py.for_each scan_root (os_walk path)
              (st, {[path := root_node]}, state).

Definition scanner_worker (fuel : nat) (path : string)
    (state : ScanState.t) : option (store * ScanState.t) :=
  let state := ScanState.set_total_items (count_items path) state in
  '(st, _, state) ← build_tree path state;
  (* the root dict is the first one made *)
  let root_node : ref := 0%nat in
  '(_, st) ← calculate_dir_size fuel root_node st;
  st ← sort_children_recursively fuel st root_node;
  Some (st, ScanState.set_done (Some root_node) state).

End Scanner.

(** ** The lock of [ScanState], statement by statement *)

(** Two threads share the [ScanState]: the scanner calls [update],
    [set_total_items] and [set_done]; the dialog calls [get_state].  Every
    method body is [with self.lock: ...], so a thread enters a method only
    when the lock is free and holds it until the body is over.  An [action]
    picks the thread that makes the next move; [step] is [None] when that
    thread cannot move (it waits for the lock, or has no call in progress). *)
Module Monitor.

Inductive owner := Scanner | Dialog.

(** Where the scanner is inside a method; the statement named is the next
    one to run. *)
Inductive scanner_pc :=
| S_out
| S_scanned_items (path : string) (is_file : bool) (sz : Z)
| S_current_path (path : string) (is_file : bool) (sz : Z)
| S_branch (is_file : bool) (sz : Z)
| S_total_size (sz : Z)
| S_total_items (total : Z)
| S_done (tr : option ref)
| S_tree (tr : option ref)
| S_release.

Inductive dialog_pc := D_out | D_return | D_release.

Record sys := mk_sys {
  shared : ScanState.t;
  lock : option owner;
  spc : scanner_pc;
  dpc : dialog_pc
}.

Inductive call :=
| Update (path : string) (is_file : bool) (sz : Z)
| SetTotalItems (total : Z)
| SetDone (tr : option ref).

Inductive action :=
| ScannerCalls (c : call)
| ScannerRuns
| DialogCalls
| DialogRuns.

Definition init : sys := mk_sys ScanState.init None S_out D_out.

Definition enter (c : call) : scanner_pc :=
  match c with
  | Update path is_file sz => S_scanned_items path is_file sz
  | SetTotalItems total => S_total_items total
  | SetDone tr => S_done tr
  end.

Import ScanState.

(** One statement of the scanner's current method. *)
Definition scanner_statement (pc : scanner_pc) (s : ScanState.t)
    : option (ScanState.t * scanner_pc) :=
  match pc with
  | S_out => None
  | S_scanned_items path is_file sz =>
      Some (mk (total_items s) (scanned_items s + 1) (dir_count s)
               (file_count s) (total_size s) (current_path s) (done s)
               (tree s),
            S_current_path path is_file sz)
  | S_current_path path is_file sz =>
      Some (mk (total_items s) (scanned_items s) (dir_count s)
               (file_count s) (total_size s) path (done s) (tree s),
            S_branch is_file sz)
  | S_branch true sz =>
      Some (mk (total_items s) (scanned_items s) (dir_count s)
               (file_count s + 1) (total_size s) (current_path s) (done s)
               (tree s),
            S_total_size sz)
  | S_branch false _ =>
      Some (mk (total_items s) (scanned_items s) (dir_count s + 1)
               (file_count s) (total_size s) (current_path s) (done s)
               (tree s),
            S_release)
  | S_total_size sz =>
      Some (mk (total_items s) (scanned_items s) (dir_count s)
               (file_count s) (total_size s + sz) (current_path s) (done s)
               (tree s),
            S_release)
  | S_total_items total =>
      Some (mk total (scanned_items s) (dir_count s) (file_count s)
               (total_size s) (current_path s) (done s) (tree s),
            S_release)
  | S_done tr =>
      Some (mk (total_items s) (scanned_items s) (dir_count s)
               (file_count s) (total_size s) (current_path s) true (tree s),
            S_tree tr)
  | S_tree tr =>
      Some (mk (total_items s) (scanned_items s) (dir_count s)
               (file_count s) (total_size s) (current_path s) (done s) tr,
            S_release)
  | S_release => None
  end.

(** A move of the system; the second component is the tuple [get_state]
    returns when the move is its [return]. *)
Definition step (a : action) (y : sys)
    : option (sys * option ScanState.snapshot) :=
  match a with
  | ScannerCalls c =>
      match lock y, spc y with
      | None, S_out => Some (mk_sys (shared y) (Some Scanner) (enter c) (dpc y), None)
      | _, _ => None
      end
  | ScannerRuns =>
      match spc y with
      | S_release => Some (mk_sys (shared y) None S_out (dpc y), None)
      | pc =>
          '(s, pc') ← scanner_statement pc (shared y);
          Some (mk_sys s (lock y) pc' (dpc y), None)
      end
  | DialogCalls =>
      match lock y, dpc y with
      | None, D_out => Some (mk_sys (shared y) (Some Dialog) (spc y) D_return, None)
      | _, _ => None
      end
  | DialogRuns =>
      match dpc y with
      | D_out => None
      | D_return =>
          Some (mk_sys (shared y) (lock y) (spc y) D_release,
                Some (get_state (shared y)))
      | D_release => Some (mk_sys (shared y) None (spc y) D_out, None)
      end
  end.

(** A schedule, and the snapshots taken along it, oldest first. *)
Fixpoint run (schedule : list action) (y : sys)
    : option (sys * list ScanState.snapshot) :=
  match schedule with
  | [] => Some (y, [])
  | a :: schedule' =>
      '(y', snap) ← step a y;
      '(y'', snaps) ← run schedule' y';
      Some (y'', option_list snap ++ snaps)
  end.

End Monitor.

(** ** [draw_dialog] *)

(** The progress of one frame; [None] is [ZeroDivisionError]. *)
Definition progress (scanned_items total_items : Z) : option Q :=
  if 0 <? total_items then Py.truediv scanned_items total_items
  else Some 1%Q.

Definition dialog_progress (snap : ScanState.snapshot) : option Q :=
  let '(total_items, scanned_items, _, _, _, _, _) := snap in
  progress scanned_items total_items.

(** ** [draw_tree_view] *)

Module Curses.
Definition KEY_DOWN : Z := 258.
Definition KEY_UP : Z := 259.
Definition KEY_LEFT : Z := 260.
Definition KEY_RIGHT : Z := 261.
End Curses.

Definition ord (c : ascii) : Z := Z.of_N (N_of_ascii c).

(** [children.sort(key=lambda x: x['size'], reverse=...)] on the list
    [node.get('children', [])] of the dict [n] at reference [r]: the list of the
    dict is sorted in place; without the key the list sorted is the fresh
    default, and nothing changes. *)
Definition sort_by_size (reverse : bool) (r : ref) (n : node)
    (st : store) : store :=
  match children n with
  | Some cs => <[r := set_children (Py.sort (size_of st) reverse cs) n]> st
  | None => st
  end.

(** The navigation state, the local variables of [draw_tree_view].
    [history] is the deque, its right end last. *)
Record nav := mk_nav {
  history : list ref;
  current_selection : Z;
  scroll_top : Z;
  sort_descending : bool
}.

Inductive outcome :=
| Next (st : store) (v : nav)
| Break.

(** One turn of the [while True] loop: the frame is drawn on a screen of
    [h] rows (only the scrolling logic changes the state), then [key] is
    read and handled.  Drawing itself is not modelled. *)
Definition tree_view_step (h key : Z) (st : store) (v : nav)
    : option outcome :=
  current_node ← Py.index (history v) (-1);
  n ← st !! current_node;
  let children := get_children n in
  let current_selection := current_selection v in
  let scroll_top :=
    if current_selection <? scroll_top v then current_selection
    else scroll_top v in
  let scroll_top :=
    if scroll_top + h - 3 <=? current_selection then current_selection - h + 4
    else scroll_top in
  let stay := Next st (mk_nav (history v) current_selection scroll_top
                              (sort_descending v)) in
  if key =? Curses.KEY_UP then
    Some (Next st (mk_nav (history v) (Z.max 0 (current_selection - 1))
                          scroll_top (sort_descending v)))
  else if key =? Curses.KEY_DOWN then
    Some (Next st (mk_nav (history v)
                          (Z.min (Z.of_nat (length children) - 1)
                                 (current_selection + 1))
                          scroll_top (sort_descending v)))
  else if key =? ord "s" then
    let sort_descending := negb (sort_descending v) in
    let st' := sort_by_size sort_descending current_node n st in
    Some (Next st' (mk_nav (history v) current_selection scroll_top
                           sort_descending))
  else if (key =? Curses.KEY_RIGHT) || (key =? 10) then
    match children with
    | [] => Some stay
    | _ :: _ =>
        selected_child ← Py.index children current_selection;
        c ← st !! selected_child;
        match type c with
        | directory =>
            Some (Next st (mk_nav (history v ++ [selected_child]) 0 0 true))
        | file => Some stay
        end
    end
  else if (key =? Curses.KEY_LEFT) || (key =? ord "h") then
    if (1 <? length (history v))%nat
    then Some (Next st (mk_nav (removelast (history v)) 0 0 true))
    else Some stay
  else if key =? ord "q" then Some Break
  else Some stay.

(** The loop on a sequence of inputs, one [(h, key)] per turn; when the
    inputs run out the loop is waiting in [getch]. *)
Fixpoint tree_view_loop (inputs : list (Z * Z)) (st : store) (v : nav)
    : option outcome :=
  match inputs with
  | [] => Some (Next st v)
  | (h, key) :: inputs' =>
      o ← tree_view_step h key st v;
      match o with
      | Next st' v' => tree_view_loop inputs' st' v'
      | Break => Some Break
      end
  end.

Definition draw_tree_view (inputs : list (Z * Z)) (st : store) (tree : ref)
    : option outcome :=
  tree_view_loop inputs st (mk_nav [tree] 0 0 true).

(** ** [main] *)

(** [state.set_done(state.tree)], the call after the dialog returns, when
    the worker makes no call between the read of the argument and the
    call: the argument [state.tree] is read without the lock, before
    [set_done] takes it.  The orders in which the worker's own [set_done]
    falls in between are those of [main_after_dialog] below. *)
Definition main_set_done (state : ScanState.t) : ScanState.t :=
  ScanState.set_done (ScanState.tree state) state.

(* ================================================================= *)
(** * Part II: the properties *)
(* ================================================================= *)

(** ** Shared scan progress *)




Section MonitorFacts.
Import Monitor.







End MonitorFacts.


(** A schedule with a read during a call and a read after it: the dialog
    waits, and sees the entry counted on both sides or on neither. *)
Definition demo_schedule : list Monitor.action :=
  [Monitor.ScannerCalls (Monitor.Update "a" true 5); Monitor.ScannerRuns;
   Monitor.ScannerRuns; Monitor.ScannerRuns; Monitor.ScannerRuns;
   Monitor.ScannerRuns; Monitor.DialogCalls; Monitor.DialogRuns;
   Monitor.DialogRuns].


(** The statements of a method, run without the dialog in between, amount
    to the atomic method of [ScanState]. *)
Definition call_effect (c : Monitor.call) (s : ScanState.t) : ScanState.t :=
  match c with
  | Monitor.Update path is_file sz => ScanState.update path is_file sz s
  | Monitor.SetTotalItems total => ScanState.set_total_items total s
  | Monitor.SetDone tr => ScanState.set_done tr s
  end.

Lemma monitor_call_atomic (c : Monitor.call) (s : ScanState.t) :
  ∃ k, Monitor.run (Monitor.ScannerCalls c :: repeat Monitor.ScannerRuns k)
                   (Monitor.mk_sys s None Monitor.S_out Monitor.D_out)
       = Some (Monitor.mk_sys (call_effect c s) None Monitor.S_out
                              Monitor.D_out, []).
Proof.
  destruct s, c as [path [] sz|total|tr];
    [exists 5%nat|exists 4%nat|exists 2%nat|exists 3%nat]; reflexivity.
Qed.

(** While the scanner is inside [update] the dialog cannot enter. *)
Lemma dialog_waits_for_lock :
  Monitor.run [Monitor.ScannerCalls (Monitor.Update "a" true 5);
               Monitor.ScannerRuns; Monitor.DialogCalls] Monitor.init = None.
Proof. reflexivity. Qed.

(** C8 (as the code has it).  [set_done] always leaves [done] true and
    stores the reference it was given; repeated with the same reference it
    changes nothing, and so does the call [main] makes with the reference
    already stored. *)
Theorem set_done_idempotent_same_tree
    (t1 t2 : option ref) (s : ScanState.t) :
  let s1 := ScanState.set_done t1 s in
  let s2 := ScanState.set_done t2 s1 in
  ScanState.done s2 = true
  ∧ ScanState.tree s2 = t2
  ∧ ScanState.set_done t1 s1 = s1
  ∧ main_set_done s1 = s1.
Proof. by destruct s. Qed.

(** C8 as stated fails: the dialog is left early, [main] marks the state
    done with the reference stored so far, [None]; when the scanner then
    finishes, its call replaces the stored reference. *)
Lemma set_done_second_call_replaces_tree :
  let s1 := main_set_done ScanState.init in
  let s2 := ScanState.set_done (Some 0%nat) s1 in
  ScanState.done s1 = true ∧ ScanState.done s2 = true
  ∧ ScanState.tree s2 ≠ ScanState.tree s1 ∧ s2 ≠ s1.
Proof. repeat split; discriminate. Qed.

(** ** Progress display *)

(** C9.  On a snapshot ([total_items] is a count, hence not negative) the
    progress is [scanned_items / total_items] when [total_items] is
    positive and 1 when it is zero; in both cases it is a value, the
    division by zero is never made. *)
Theorem progress_fraction (snap : ScanState.snapshot) :
  let '(total_items, scanned_items, _, _, _, _, _) := snap in
  0 <= total_items →
  dialog_progress snap =
    Some (if total_items =? 0 then 1
          else inject_Z scanned_items / inject_Z total_items)%Q.
Proof.
  destruct snap as [[[[[[total scanned] dirs] files] sz] path] dn].
  intros Hle. unfold dialog_progress, progress, Py.truediv.
  destruct (Z.ltb_spec 0 total) as [Hlt|Hge].
  - destruct (Z.eqb_spec total 0); [lia|done].
  - destruct (Z.eqb_spec total 0); [done|lia].
Qed.

Lemma progress_fraction_witness :
  dialog_progress (0, 0, 0, 0, 0, ""%string, false) = Some 1%Q
  ∧ dialog_progress (4, 3, 1, 2, 10, "a"%string, false) = Some (3 / 4)%Q.
Proof.
  split.
  - apply (progress_fraction (0, 0, 0, 0, 0, ""%string, false)). lia.
  - apply (progress_fraction (4, 3, 1, 2, 10, "a"%string, false)). lia.
Defined.

(** The only division of the dialog is guarded: whatever the arguments,
    [progress] does not raise. *)
Lemma progress_never_raises (scanned_items total_items : Z) :
  is_Some (progress scanned_items total_items).
Proof.
  unfold progress, Py.truediv.
  destruct (Z.ltb_spec 0 total_items); [|done].
  destruct (Z.eqb_spec total_items 0); [lia|done].
Qed.

(** Unguarded, the division raises on an empty tree. *)
Lemma truediv_by_zero_raises (a : Z) : Py.truediv a 0 = None.
Proof. reflexivity. Qed.

(** ** Human-readable sizes *)









(** Two decimals, rounded to nearest with ties to even. *)
Lemma format_bytes_rounding :
  format_bytes 1029 = "  1.00 KB"%string      (* 1.0048... *)
  ∧ format_bytes 1536 = "  1.50 KB"%string
  ∧ format_bytes 1048575 = "1024.00 KB"%string.  (* 1023.999... *)
Proof. by vm_compute. Qed.

(** From [1024^5] on the loop has run out of units after four divisions:
    the value shown is still in TB, the label says PB. *)
Lemma format_bytes_petabyte_label :
  format_bytes (1024 ^ 5) = "1024.00 PB"%string.
Proof. by vm_compute. Qed.

(** ** The stable sort *)

Section SortFacts.
Context {A : Type} (key : A → Z) (reverse : bool).

Local Abbreviation before := (Py.goes_before key reverse).
Local Abbreviation insert := (Py.insert_stable key reverse).
Local Abbreviation sort := (Py.sort key reverse).

(** The order of the sorted list: descending sizes under [reverse]. *)
Definition in_order (x y : A) : Prop :=
  if reverse then key y <= key x else key x <= key y.

Lemma goes_before_spec x y : before x y = true ↔ in_order x y.
Proof. unfold Py.goes_before, in_order. destruct reverse; apply Z.leb_le. Qed.

Lemma goes_before_total x y : before x y = false → in_order y x.
Proof.
  unfold Py.goes_before, in_order.
  destruct reverse; intros H%Z.leb_gt; lia.
Qed.

Lemma insert_stable_perm x l : Permutation (insert x l) (x :: l).
Proof.
  induction l as [|y l IH]; simpl; [done|].
  destruct (before x y); [done|].
  rewrite IH. apply perm_swap.
Qed.

Lemma sort_perm l : Permutation (sort l) l.
Proof.
  induction l as [|x l IH]; simpl; [done|].
  rewrite insert_stable_perm. by constructor.
Qed.

Lemma sort_length l : length (sort l) = length l.
Proof. apply Permutation_length, sort_perm. Qed.

Lemma insert_stable_sorted x l :
  Sorted in_order l → Sorted in_order (insert x l).
Proof.
  induction 1 as [|y l Hs IH Hhd]; simpl.
  - repeat constructor.
  - destruct (before x y) eqn:Hxy.
    + constructor; [by constructor|].
      constructor. by apply goes_before_spec.
    + constructor; [exact IH|].
      destruct l as [|z l]; simpl.
      * constructor. by apply goes_before_total.
      * destruct (before x z); constructor.
        -- by apply goes_before_total.
        -- by inversion Hhd.
Qed.

Lemma sort_sorted l : Sorted in_order (sort l).
Proof.
  induction l as [|x l IH]; simpl; [constructor|].
  by apply insert_stable_sorted.
Qed.

(** The elements of one key, in the order they have in the list. *)
Definition with_key (k : Z) (l : list A) : list A :=
  List.filter (λ x, key x =? k) l.

Lemma insert_stable_with_key k x l :
  with_key k (insert x l) = with_key k (x :: l).
Proof.
  unfold with_key. induction l as [|y l IH]; simpl; [done|].
  destruct (before x y) eqn:Hxy; simpl; [done|].
  rewrite IH. simpl.
  destruct (Z.eqb_spec (key x) k) as [Hx|Hx]; [|done].
  destruct (Z.eqb_spec (key y) k) as [Hy|Hy]; [|done].
  unfold Py.goes_before in Hxy. rewrite Hx, Hy in Hxy.
  destruct reverse; apply Z.leb_gt in Hxy; lia.
Qed.

(** Stability: the sort does not change the order of the elements of equal
    key. *)
Lemma sort_stable k l : with_key k (sort l) = with_key k l.
Proof.
  induction l as [|x l IH]; simpl; [done|].
  rewrite insert_stable_with_key. unfold with_key in *. simpl.
  by rewrite IH.
Qed.

Lemma sort_sorted_id l : Sorted in_order l → sort l = l.
Proof.
  induction 1 as [|x l Hs IH Hhd]; simpl; [done|].
  rewrite IH. destruct Hhd as [|y l Hxy]; simpl; [done|].
  apply goes_before_spec in Hxy. by rewrite Hxy.
Qed.

Lemma sort_idempotent l : sort (sort l) = sort l.
Proof. apply sort_sorted_id, sort_sorted. Qed.

End SortFacts.

Lemma insert_stable_ext {A : Type} (key key' : A → Z) (reverse : bool)
    (x : A) (l : list A) :
  key x = key' x → (∀ y, y ∈ l → key y = key' y) →
  Py.insert_stable key reverse x l = Py.insert_stable key' reverse x l.
Proof.
  intros Hx. induction l as [|y l IH]; intros Hl; simpl; [done|].
  unfold Py.goes_before. rewrite Hx, (Hl y) by left.
  destruct (if reverse then _ else _); [done|].
  f_equal. apply IH. intros; apply Hl; by right.
Qed.

(** The sort depends on the keys of the elements of the list only. *)
Lemma sort_ext {A : Type} (key key' : A → Z) (reverse : bool) (l : list A) :
  (∀ x, x ∈ l → key x = key' x) →
  Py.sort key reverse l = Py.sort key' reverse l.
Proof.
  induction l as [|x l IH]; intros Hk; simpl; [done|].
  rewrite <- IH by (intros; apply Hk; by right).
  apply insert_stable_ext; [apply Hk; left|].
  intros y Hy. apply Hk. right. by rewrite <- (sort_perm key reverse l).
Qed.

(** ** Tree navigator *)

Lemma index_last {A : Type} (l : list A) : Py.index l (-1) = last l.
Proof.
  unfold Py.index. rewrite last_lookup.
  destruct l as [|x l]; [done|].
  cbn [length]. 
  destruct (Z.leb_spec 0 (-1)); [lia|]. simpl andb.
  destruct (Z.leb_spec (- Z.of_nat (S (length l))) (-1)); [|lia].
  simpl andb. cbn [Nat.pred]. f_equal. lia.
Qed.

Lemma index_in_range {A : Type} (l : list A) (i : Z) :
  0 <= i < Z.of_nat (length l) → Py.index l i = l !! Z.to_nat i.
Proof.
  intros Hi. unfold Py.index.
  destruct (Z.leb_spec 0 i); [|lia].
  by destruct (Z.ltb_spec i (Z.of_nat (length l))); [|lia].
Qed.

(** The directory on display and its list of children. *)
Definition current_node (v : nav) : option ref := Py.index (history v) (-1).

Definition current_children (st : store) (v : nav) : option (list ref) :=
  r ← current_node v; n ← st !! r; Some (get_children n).

(** The ways a turn of the loop can end. *)
Inductive turn (key : Z) (st : store) (v : nav) (r : ref) (n : node)
    : outcome → Prop :=
| turn_quit : key = ord "q" → turn key st v r n Break
| turn_stay scroll :
    turn key st v r n
         (Next st (mk_nav (history v) (current_selection v) scroll
                          (sort_descending v)))
| turn_up scroll :
    key = Curses.KEY_UP →
    turn key st v r n
         (Next st (mk_nav (history v) (Z.max 0 (current_selection v - 1))
                          scroll (sort_descending v)))
| turn_down scroll :
    key = Curses.KEY_DOWN →
    turn key st v r n
         (Next st (mk_nav (history v)
                          (Z.min (Z.of_nat (length (get_children n)) - 1)
                                 (current_selection v + 1))
                          scroll (sort_descending v)))
| turn_sort scroll :
    key = ord "s" →
    turn key st v r n
         (Next (sort_by_size (negb (sort_descending v)) r n st)
               (mk_nav (history v) (current_selection v) scroll
                       (negb (sort_descending v))))
| turn_drill_in c cn :
    key = Curses.KEY_RIGHT ∨ key = 10 →
    Py.index (get_children n) (current_selection v) = Some c →
    st !! c = Some cn → type cn = directory →
    turn key st v r n (Next st (mk_nav (history v ++ [c]) 0 0 true))
| turn_drill_out :
    key = Curses.KEY_LEFT ∨ key = ord "h" →
    (1 < length (history v))%nat →
    turn key st v r n (Next st (mk_nav (removelast (history v)) 0 0 true)).

Lemma tree_view_step_turn h key st v o :
  tree_view_step h key st v = Some o →
  ∃ r n, current_node v = Some r ∧ st !! r = Some n ∧ turn key st v r n o.
Proof.
  unfold tree_view_step, current_node. intros Hstep.
  destruct (Py.index (history v) (-1)) as [r|];
    cbn [mbind option_bind] in Hstep; [|discriminate Hstep].
  destruct (st !! r) as [n|] eqn:Hn;
    cbn [mbind option_bind] in Hstep; [|discriminate Hstep].
  exists r, n. split; [done|]. split; [done|].
  cbn [mbind option_bind] in Hstep.
  destruct (Z.eqb_spec key Curses.KEY_UP) as [Hup|_].
  { injection Hstep as <-. by apply turn_up. }
  destruct (Z.eqb_spec key Curses.KEY_DOWN) as [Hdown|_].
  { injection Hstep as <-. by apply turn_down. }
  destruct (Z.eqb_spec key (ord "s")) as [Hs|_].
  { injection Hstep as <-. by apply turn_sort. }
  assert (Hin : key = Curses.KEY_RIGHT ∨ key = 10 → turn key st v r n o).
  { intros Hkey.
    assert ((key =? Curses.KEY_RIGHT) || (key =? 10) = true) as Hb.
    { destruct Hkey as [->| ->]; by rewrite ?Z.eqb_refl, ?orb_true_r. }
    rewrite Hb in Hstep.
    destruct (get_children n) as [|c0 cs] eqn:Hcs.
    { injection Hstep as <-. apply turn_stay. }
    destruct (Py.index (c0 :: cs) (current_selection v)) as [c|] eqn:Hc;
      cbn [mbind option_bind] in Hstep; [|discriminate Hstep].
    destruct (st !! c) as [cn|] eqn:Hcn;
      cbn [mbind option_bind] in Hstep; [|discriminate Hstep].
    destruct (type cn) eqn:Hty; injection Hstep as <-.
    - eapply turn_drill_in; eauto. by rewrite Hcs.
    - apply turn_stay. }
  destruct (Z.eqb_spec key Curses.KEY_RIGHT) as [Hr|_]; [apply Hin; by left|].
  destruct (Z.eqb_spec key 10) as [Hr|_]; [apply Hin; by right|].
  clear Hin. cbn [orb] in Hstep.
  destruct (Z.eqb_spec key Curses.KEY_LEFT) as [Hl|_];
    [|destruct (Z.eqb_spec key (ord "h")) as [Hl|_]].
  1, 2: cbn [orb] in Hstep; destruct (Nat.ltb_spec 1 (length (history v)));
    injection Hstep as <-; [apply turn_drill_out; auto|apply turn_stay].
  cbn [orb] in Hstep.
  destruct (Z.eqb_spec key (ord "q")) as [Hq|_]; injection Hstep as <-;
    [by apply turn_quit|apply turn_stay].
Qed.

(** What a key may change in a node dict: the order of its children. *)
Definition same_but_order (n n' : node) : Prop :=
  name n' = name n ∧ type n' = type n ∧ size n' = size n
  ∧ is_executable n' = is_executable n
  ∧ parent n' = parent n ∧ expanded n' = expanded n
  ∧ (children n' = None ↔ children n = None)
  ∧ Permutation (get_children n) (get_children n').

Lemma same_but_order_refl n : same_but_order n n.
Proof. by repeat split. Qed.

Lemma sort_by_size_lookup reverse r n st q m :
  st !! r = Some n → st !! q = Some m →
  ∃ m', sort_by_size reverse r n st !! q = Some m'
        ∧ same_but_order m m' ∧ (q ≠ r → m' = m).
Proof.
  intros Hr Hq. unfold sort_by_size.
  destruct (children n) as [cs|] eqn:Hcs.
  - destruct (decide (q = r)) as [->|Hne].
    + rewrite list_lookup_insert_eq by (by eapply lookup_lt_Some).
      eexists. split; [done|]. split; [|done].
      assert (m = n) as -> by congruence.
      repeat split; simpl; try done; try congruence.
      unfold get_children. rewrite Hcs. simpl.
      symmetry. apply sort_perm.
    + rewrite list_lookup_insert_ne by done.
      exists m. by repeat split.
  - exists m. by repeat split.
Qed.

Lemma sort_by_size_length reverse r n st :
  length (sort_by_size reverse r n st) = length st.
Proof. unfold sort_by_size. destruct (children n); [apply length_insert|done]. Qed.

(** C10.  Whatever the key, a turn of the loop creates and deletes no node,
    and leaves in every node the name, the type, the size, the executable
    flag (and the parent); a key other than [s] leaves the whole store as it
    is; the [s] key changes one thing, the order of the children of the
    directory on display: every other node is the same dict as before, and
    the children of that directory are a permutation of what they were. *)
Theorem tree_view_key_frame (h key : Z) (st st' : store) (v v' : nav) :
  tree_view_step h key st v = Some (Next st' v') →
  (key ≠ ord "s" → st' = st)
  ∧ length st' = length st
  ∧ ∀ r n, st !! r = Some n →
      ∃ n', st' !! r = Some n'
            ∧ same_but_order n n'
            ∧ (current_node v ≠ Some r → n' = n).
Proof.
  intros Hstep.
  destruct (tree_view_step_turn _ _ _ _ _ Hstep) as (cur & nc & Hcur & Hnc & Ht).
  inversion Ht; subst;
    try (split; [done|]; split; [done|]; intros r n Hr; exists n;
         split; [done|]; split; [apply same_but_order_refl|done]).
  split; [done|]. split; [apply sort_by_size_length|].
  intros r n Hr.
  destruct (sort_by_size_lookup (negb (sort_descending v)) cur nc st r n Hnc Hr)
    as (n' & Hn' & Hsame & Hother).
  exists n'. split; [done|]. split; [done|].
  intros Hne. apply Hother. congruence.
Qed.

(** *** A scanned tree to navigate

    The scenario of the specification: a directory [A] holding [big.txt]
    (2000 bytes) next to [small.txt] (10 bytes). *)

Definition demo_walk (path : string)
    : list (string * list string * list string) :=
  [(".", ["A"], ["small.txt"]); ("./A", [], ["big.txt"])]%string.

Definition demo_getsize (file_path : string) : option Z :=
  if String.eqb file_path "./small.txt" then Some 10
  else if String.eqb file_path "./A/big.txt" then Some 2000
  else None.

Definition demo_basename (path : string) : string := "demo".

Definition demo_store : store :=
  [ mk_node "demo" directory 2010 (Some [1; 2]%nat) None None None;
    mk_node "A" directory 2000 (Some [3%nat]) (Some 0%nat) None (Some false);
    mk_node "small.txt" file 10 None (Some 0%nat) (Some false) None;
    mk_node "big.txt" file 2000 None (Some 1%nat) (Some false) None ].

Lemma demo_scan :
  ∃ state,
    scanner_worker demo_walk demo_getsize demo_basename 3 "." ScanState.init
    = Some (demo_store, state)
    ∧ ScanState.get_state state = (3, 3, 1, 2, 2010, "./A/big.txt"%string, true)
    ∧ ScanState.tree state = Some 0%nat.
Proof. eexists. split; [by vm_compute|]. by vm_compute. Qed.

Definition demo_nav : nav := mk_nav [0%nat] 0 0 true.

Lemma tree_view_key_frame_witness :
  ∃ st' v',
    tree_view_step 24 (ord "s") demo_store demo_nav = Some (Next st' v')
    ∧ length st' = length demo_store.
Proof.
  eexists _, _. split; [reflexivity|].
  eapply (tree_view_key_frame 24 (ord "s") demo_store _ demo_nav).
  reflexivity.
Defined.

(** After [s] the root lists the same two children, smallest first. *)
Lemma demo_toggle_sort :
  ∃ st' v',
    tree_view_step 24 (ord "s") demo_store demo_nav = Some (Next st' v')
    ∧ (get_children <$> st' !! 0%nat) = Some [2; 1]%nat
    ∧ sort_descending v' = false.
Proof. eexists _, _. by vm_compute. Qed.

(** *** The selection *)

(** The cursor is on a child of the directory on display, or on 0 when
    there is none. *)
Definition selection_valid (st : store) (v : nav) : Prop :=
  match current_children st v with
  | Some [] => current_selection v = 0
  | Some cs => 0 <= current_selection v < Z.of_nat (length cs)
  | None => False
  end.

(** What the loop keeps: the same, except that in a directory without
    children the cursor may also be on -1. *)
Definition selection_kept (st : store) (v : nav) : Prop :=
  match current_children st v with
  | Some [] => current_selection v = 0 ∨ current_selection v = -1
  | Some cs => 0 <= current_selection v < Z.of_nat (length cs)
  | None => False
  end.

Definition history_valid (st : store) (v : nav) : Prop :=
  Forall (λ r, is_Some (st !! r)) (history v).

Lemma sort_by_size_is_Some reverse r n st q :
  is_Some (st !! q) → is_Some (sort_by_size reverse r n st !! q).
Proof.
  intros Hq. apply lookup_lt_is_Some. rewrite sort_by_size_length.
  by apply lookup_lt_is_Some.
Qed.

Lemma current_children_top st hist sel scroll sd r n :
  last hist = Some r → st !! r = Some n →
  current_children st (mk_nav hist sel scroll sd) = Some (get_children n).
Proof.
  intros Hl Hn. unfold current_children, current_node. simpl.
  rewrite index_last, Hl. simpl. by rewrite Hn.
Qed.

Lemma removelast_last_valid (st : store) (l : list ref) :
  (1 < length l)%nat → Forall (λ r, is_Some (st !! r)) l →
  Forall (λ r, is_Some (st !! r)) (removelast l)
  ∧ ∃ q nq, last (removelast l) = Some q ∧ st !! q = Some nq.
Proof.
  intros Hlen Hall.
  destruct (exists_last (l := l)) as (l' & a & ->);
    [destruct l; simpl in *; [lia|done]|].
  rewrite removelast_last. apply Forall_app in Hall as [Hl' _].
  split; [done|].
  rewrite length_app in Hlen. simpl in Hlen.
  destruct (exists_last (l := l')) as (l'' & b & ->); [destruct l'; simpl in *; [lia|done]|].
  apply Forall_app in Hl' as [_ Hb]. apply Forall_inv in Hb as [nq Hnq].
  exists b, nq. by rewrite last_snoc.
Qed.

Lemma turn_keeps key st v r n o :
  history_valid st v → selection_kept st v →
  last (history v) = Some r → st !! r = Some n →
  turn key st v r n o →
  match o with
  | Next st' v' => history_valid st' v' ∧ selection_kept st' v'
  | Break => True
  end.
Proof.
  intros Hh Hsel Hlast Hn Ht.
  assert (Hcur : ∀ sel scroll sd,
            current_children st (mk_nav (history v) sel scroll sd)
            = Some (get_children n)).
  { intros. by apply current_children_top with r. }
  unfold selection_kept in Hsel.
  destruct v as [hist sel0 scroll0 sd0]. rewrite Hcur in Hsel. simpl in *.
  destruct Ht as [Hk|scroll|scroll Hk|scroll Hk|scroll Hk|c cn Hk Hc Hcn Hty|Hk Hlen];
    [done|..]; simpl in *; (split; [try exact Hh|]); unfold selection_kept.
  - by rewrite Hcur.
  - rewrite Hcur. destruct (get_children n); simpl in *; lia.
  - rewrite Hcur. destruct (get_children n); simpl in *; lia.
  - unfold history_valid in *. eapply Forall_impl; [exact Hh|].
    intros q. apply sort_by_size_is_Some.
  - destruct (sort_by_size_lookup (negb sd0) r n st r n Hn Hn)
      as (n' & Hn' & Hsame & _).
    rewrite (current_children_top _ _ _ _ _ r n' Hlast Hn').
    destruct Hsame as (_ & _ & _ & _ & _ & _ & _ & Hperm).
    apply Permutation_length in Hperm.
    destruct (get_children n), (get_children n'); simpl in *; try done; lia.
  - unfold history_valid in *. simpl. apply Forall_app. split; [done|].
    by repeat constructor.
  - rewrite (current_children_top st _ _ _ _ c cn) by (by rewrite ?last_snoc).
    destruct (get_children cn); simpl; lia.
  - by apply removelast_last_valid.
  - destruct (removelast_last_valid st hist Hlen Hh) as (_ & q & nq & Hq & Hnq).
    rewrite (current_children_top st _ _ _ _ q nq Hq Hnq).
    destruct (get_children nq); simpl; lia.
Qed.

Lemma tree_view_step_keeps h key st v st' v' :
  history_valid st v → selection_kept st v →
  tree_view_step h key st v = Some (Next st' v') →
  history_valid st' v' ∧ selection_kept st' v'.
Proof.
  intros Hh Hsel Hstep.
  destruct (tree_view_step_turn _ _ _ _ _ Hstep) as (r & n & Hr & Hn & Ht).
  unfold current_node in Hr. rewrite index_last in Hr.
  exact (turn_keeps _ _ _ _ _ _ Hh Hsel Hr Hn Ht).
Qed.

Lemma tree_view_loop_keeps inputs : ∀ st v st' v',
  history_valid st v → selection_kept st v →
  tree_view_loop inputs st v = Some (Next st' v') →
  history_valid st' v' ∧ selection_kept st' v'.
Proof.
  induction inputs as [|[h key] inputs IH]; intros st v st' v' Hh Hsel Hrun;
    simpl in Hrun.
  - by injection Hrun as <- <-.
  - destruct (tree_view_step h key st v) as [[st1 v1|]|] eqn:Hstep;
      cbn [mbind option_bind] in Hrun; try discriminate Hrun.
    destruct (tree_view_step_keeps _ _ _ _ _ _ Hh Hsel Hstep) as [Hh1 Hsel1].
    by apply (IH st1 v1).
Qed.

(** In every state the navigator reaches, the cursor is on a child of the
    directory on display; only in a directory without children it is 0 or
    -1. *)
Lemma selection_kept_in_range inputs st tree st' v' :
  is_Some (st !! tree) →
  draw_tree_view inputs st tree = Some (Next st' v') →
  selection_kept st' v'.
Proof.
  intros [n Hn] Hrun. unfold draw_tree_view in Hrun.
  eapply tree_view_loop_keeps; [| |exact Hrun].
  - by repeat constructor.
  - unfold selection_kept.
    rewrite (current_children_top st _ _ _ _ tree n) by done.
    destruct (get_children n); simpl; lia.
Qed.

Lemma selection_kept_nonempty st v cs :
  selection_kept st v → current_children st v = Some cs → cs ≠ [] →
  selection_valid st v.
Proof.
  unfold selection_kept, selection_valid. intros Hk Hcs Hne.
  rewrite Hcs in *. by destruct cs.
Qed.

(** An empty directory as the scan root. *)
Definition empty_walk (path : string)
    : list (string * list string * list string) :=
  [(".", [], [])]%string.

Definition empty_store : store :=
  [mk_node "demo" directory 0 (Some []) None None None].

Lemma empty_scan :
  ∃ state,
    scanner_worker empty_walk (λ _, None) demo_basename 1 "." ScanState.init
    = Some (empty_store, state)
    ∧ ScanState.tree state = Some 0%nat.
Proof. eexists. by vm_compute. Qed.

(** C3 at the failing input.  In a directory without children, [Down]
    computes [min(len(children) - 1, current_selection + 1)], that is
    [min(-1, 1)]: the cursor leaves 0 for -1. *)
Theorem down_in_empty_directory_selects_minus_one :
  ∃ v,
    draw_tree_view [(24, Curses.KEY_DOWN)] empty_store 0%nat
    = Some (Next empty_store v)
    ∧ current_children empty_store v = Some []
    ∧ current_selection v = -1
    ∧ ¬ selection_valid empty_store v.
Proof.
  eexists. split; [reflexivity|]. split; [reflexivity|].
  split; [reflexivity|]. by vm_compute.
Qed.

(** [Up] brings the cursor back to 0. *)
Lemma up_in_empty_directory_selects_zero :
  ∃ v,
    draw_tree_view [(24, Curses.KEY_DOWN); (24, Curses.KEY_UP)]
                   empty_store 0%nat
    = Some (Next empty_store v)
    ∧ current_selection v = 0.
Proof. eexists. split; reflexivity. Qed.

(** *** Drilling in and out *)

(** The list is in the default order: sizes descending. *)
Definition descending (st : store) (cs : list ref) : Prop :=
  Sorted (in_order (size_of st) true) cs.

(** Drilling into the selected directory and straight out again shows the
    directory left, with the store untouched, the cursor and the scroll
    offset on 0 and the flag on descending. *)
Lemma drill_in_out_same_directory (h1 h2 key : Z) (st st1 : store) (v v1 : nav) :
  tree_view_step h1 Curses.KEY_RIGHT st v = Some (Next st1 v1) →
  history v1 ≠ history v →
  key = Curses.KEY_LEFT ∨ key = ord "h" →
  tree_view_step h2 key st1 v1
  = Some (Next st (mk_nav (history v) 0 0 true)).
Proof.
  intros Hstep Hne Hkey.
  destruct (tree_view_step_turn _ _ _ _ _ Hstep) as (r & n & Hr & Hn & Ht).
  inversion Ht as [| | | | |c cn Hk Hc Hcn Hty|Hk Hlen]; subst; simpl in Hne;
    try done; [|destruct Hk as [Hk|Hk]; discriminate Hk].
  unfold tree_view_step. simpl history.
  rewrite index_last, last_snoc. cbn [mbind option_bind].
  rewrite Hcn. cbn [mbind option_bind].
  replace (1 <? length (history v ++ [c]))%nat with true.
  2: { symmetry. apply Nat.ltb_lt. rewrite length_app. simpl.
       unfold current_node in Hr. destruct (history v); [done|simpl; lia]. }
  rewrite removelast_last.
  by destruct Hkey as [-> | ->].
Qed.

(** C4 at the failing input.  On the scanned demo tree the root is toggled
    to ascending with [s], the cursor is moved to the directory [A], which
    is then entered and left at once.  The root is back on display with its
    two children, the cursor on 0 and the flag on descending, but the list
    is the ascending one: nothing has sorted it again. *)
Theorem drill_in_out_keeps_toggled_order :
  ∃ st1 v1 st2 v2,
    draw_tree_view [(24, ord "s"); (24, Curses.KEY_DOWN)] demo_store 0%nat
    = Some (Next st1 v1)
    ∧ (selected ← current_children st1 v1 ≫= (λ cs, Py.index cs (current_selection v1));
       type <$> st1 !! selected) = Some directory
    ∧ tree_view_loop [(24, Curses.KEY_RIGHT); (24, Curses.KEY_LEFT)] st1 v1
      = Some (Next st2 v2)
    ∧ v2 = mk_nav [0%nat] 0 0 true
    ∧ current_children st2 v2 = Some [2; 1]%nat
    ∧ map (size_of st2) [2; 1]%nat = [10; 2000]
    ∧ ¬ descending st2 [2; 1]%nat.
Proof.
  eexists _, _, _, _. split; [reflexivity|]. split; [reflexivity|].
  split; [reflexivity|]. split; [reflexivity|]. split; [reflexivity|].
  split; [reflexivity|].
  intros Hs. apply Sorted_inv in Hs as [_ Hhd]. apply HdRel_inv in Hhd.
  vm_compute in Hhd. by apply Hhd.
Qed.

(** Entering a directory does not sort it either: [A] is toggled to
    ascending, left, and entered again. *)
Lemma drill_in_does_not_sort :
  let wide_store : store :=
    [ mk_node "demo" directory 30 (Some [1%nat]) None None None;
      mk_node "A" directory 30 (Some [2; 3]%nat) (Some 0%nat) None (Some false);
      mk_node "b" file 20 None (Some 1%nat) (Some false) None;
      mk_node "c" file 10 None (Some 1%nat) (Some false) None ] in
  ∃ st v,
    draw_tree_view [(24, Curses.KEY_RIGHT); (24, ord "s");
                    (24, Curses.KEY_LEFT); (24, Curses.KEY_RIGHT)]
                   wide_store 0%nat
    = Some (Next st v)
    ∧ v = mk_nav [0; 1]%nat 0 0 true
    ∧ current_children st v = Some [3; 2]%nat
    ∧ map (size_of st) [3; 2]%nat = [10; 20].
Proof. eexists _, _. repeat split; reflexivity. Qed.

(** ** Tree builder: the shape of the store *)

(** [c] is listed among the children of the directory [p]. *)
Definition child_of (st : store) (p c : ref) : Prop :=
  ∃ n, st !! p = Some n ∧ type n = directory ∧ c ∈ get_children n.

(** [q] is [r] or is transitively contained in [r]. *)
Inductive reach (st : store) : ref → ref → Prop :=
| reach_here r : reach st r r
| reach_child p c q : child_of st p c → reach st c q → reach st p q.

(** Children are nodes of the store made after their parent. *)
Definition tree_shaped (st : store) : Prop :=
  ∀ p n c, st !! p = Some n → c ∈ get_children n → (p < c < length st)%nat.

Definition is_dir (st : store) (r : ref) : Prop :=
  ∃ n, st !! r = Some n ∧ type n = directory.

Definition total (l : list Z) : Z := foldr Z.add 0 l.

(** The file nodes contained in [r], in the order of the tree; [r] itself
    when it is a file.  [fuel] bounds the depth looked at. *)
Fixpoint subtree_files (fuel : nat) (st : store) (r : ref) : list ref :=
  match fuel with
  | O => []
  | S fuel' =>
      match st !! r with
      | Some n =>
          match type n with
          | file => [r]
          | directory => flat_map (subtree_files fuel' st) (get_children n)
          end
      | None => []
      end
  end.

(** The sum of the sizes of the files contained in [r]. *)
Definition files_size (st : store) (r : ref) : Z :=
  total (map (size_of st) (subtree_files (length st) st r)).

(** The same sum, computed level by level. *)
Fixpoint aggregate (fuel : nat) (st : store) (r : ref) : Z :=
  match fuel with
  | O => 0
  | S fuel' =>
      match st !! r with
      | Some n =>
          match type n with
          | file => size n
          | directory => total (map (aggregate fuel' st) (get_children n))
          end
      | None => 0
      end
  end.

Lemma total_app l1 l2 : total (l1 ++ l2) = total l1 + total l2.
Proof. induction l1 as [|x l1 IH]; simpl; lia. Qed.

Lemma total_flat_map {A : Type} (f : A → list Z) (l : list A) :
  total (flat_map f l) = total (map (λ x, total (f x)) l).
Proof.
  induction l as [|x l IH]; simpl; [done|]. by rewrite total_app, IH.
Qed.

Lemma aggregate_files fuel : ∀ st r,
  aggregate fuel st r = total (map (size_of st) (subtree_files fuel st r)).
Proof.
  induction fuel as [|fuel IH]; intros st r; simpl; [done|].
  destruct (st !! r) as [n|] eqn:Hn; [|done].
  destruct (type n); simpl.
  - induction (get_children n) as [|c cs IHcs]; simpl; [done|].
    by rewrite map_app, total_app, IHcs, IH.
  - unfold size_of. rewrite Hn. lia.
Qed.

(** *** The aggregate pass *)

(** Two stores hold the same tree: node by node the same type and the same
    children, and the same size at every file. *)
Definition same_tree (st st' : store) : Prop :=
  length st' = length st
  ∧ ∀ q n, st !! q = Some n →
      ∃ n', st' !! q = Some n' ∧ type n' = type n
            ∧ get_children n' = get_children n
            ∧ (type n = file → size n' = size n).

Lemma aggregate_same_tree fuel : ∀ st st' r,
  same_tree st st' → aggregate fuel st' r = aggregate fuel st r.
Proof.
  induction fuel as [|fuel IH]; intros st st' r [Hlen Hsame];
    cbn [aggregate]; [done|].
  destruct (st !! r) as [n|] eqn:Hn.
  - destruct (Hsame r n Hn) as (n' & -> & Hty & Hcs & Hsz).
    rewrite Hty, Hcs. destruct (type n); [|by apply Hsz].
    f_equal. apply map_ext. intros c. by apply IH.
  - apply lookup_ge_None in Hn. rewrite <- Hlen in Hn.
    apply lookup_ge_None in Hn. by rewrite Hn.
Qed.

(** Below a node of a tree-shaped store the depth is bounded by the number
    of nodes made after it: more fuel changes nothing. *)
Lemma aggregate_fuel st (Hts : tree_shaped st) : ∀ f1 f2 r,
  (length st - r ≤ f1)%nat → (length st - r ≤ f2)%nat →
  aggregate f1 st r = aggregate f2 st r.
Proof.
  assert (Hout : ∀ f r, (length st ≤ r)%nat → aggregate f st r = 0).
  { intros [|f] r Hr; cbn [aggregate]; [done|].
    apply lookup_ge_None in Hr. by rewrite Hr. }
  induction f1 as [|f1 IH]; intros [|f2] r H1 H2;
    try (rewrite !Hout by lia; done).
  cbn [aggregate]. destruct (st !! r) as [n|] eqn:Hn; [|done].
  destruct (type n); [|done].
  f_equal. apply map_ext_in. intros c Hc%list_elem_of_In.
  destruct (Hts r n c Hn Hc). apply IH; lia.
Qed.

Lemma aggregate_files_size st fuel r :
  tree_shaped st → (length st - r ≤ fuel)%nat →
  aggregate fuel st r = files_size st r.
Proof.
  intros Hts Hf. unfold files_size. rewrite <- aggregate_files.
  apply aggregate_fuel; [done|done|lia].
Qed.

(** [st] is [st0] with the size of some directories filled in: the sum of
    the files they contain. *)
Definition filled (st0 st : store) : Prop :=
  length st = length st0
  ∧ ∀ q n, st0 !! q = Some n →
      ∃ n', st !! q = Some n'
            ∧ (n' = n
               ∨ (type n = directory ∧ n' = set_size (files_size st0 q) n)).

Lemma filled_refl st : filled st st.
Proof. split; [done|]. intros q n Hn. exists n. auto. Qed.

Lemma filled_lookup st0 st q n' :
  filled st0 st → st !! q = Some n' →
  ∃ n, st0 !! q = Some n ∧ type n' = type n
       ∧ get_children n' = get_children n
       ∧ (n' = n ∨ (type n = directory ∧ n' = set_size (files_size st0 q) n)).
Proof.
  intros [Hlen Hf] Hq.
  destruct (st0 !! q) as [n|] eqn:Hn.
  - destruct (Hf q n Hn) as (n2 & Hn2 & Hcase).
    assert (n2 = n') as -> by congruence.
    exists n. split; [done|].
    destruct Hcase as [Heq|[Hd Heq]]; subst n'; auto.
  - apply lookup_ge_None in Hn. rewrite <- Hlen in Hn.
    apply lookup_ge_None in Hn. congruence.
Qed.

(** The pass from a node: the call returns, with the sum of the files
    below the node; it fills in the directories below the node and touches
    nothing else. *)
Lemma calculate_dir_size_fills st0 (Hts : tree_shaped st0) : ∀ fuel r st,
  filled st0 st → (r < length st0)%nat → (length st0 - r ≤ fuel)%nat →
  ∃ st',
    calculate_dir_size fuel r st = Some (files_size st0 r, st')
    ∧ filled st0 st'
    ∧ (∀ q, size_of st q = files_size st0 q → is_dir st0 q →
            size_of st' q = files_size st0 q)
    ∧ ∀ q, reach st0 r q → is_dir st0 q → size_of st' q = files_size st0 q.
Proof.
  induction fuel as [|fuel IH]; intros r st Hfill Hr Hfuel; [lia|].
  destruct (lookup_lt_is_Some_2 st0 r Hr) as [n0 Hn0].
  destruct Hfill as [Hlen Hf].
  destruct (Hf r n0 Hn0) as (n & Hn & Hcase).
  assert (Hty : type n = type n0) by (by destruct Hcase as [->|[? ->]]).
  assert (Hcs : get_children n = get_children n0)
    by (by destruct Hcase as [->|[? ->]]).
  rewrite <- (aggregate_files_size st0 (S fuel) r Hts Hfuel).
  cbn [calculate_dir_size aggregate]. rewrite Hn, Hn0.
  cbn [mbind option_bind]. rewrite Hty, Hcs.
  destruct (type n0) eqn:Hty0.
  - (* a directory: the children first *)
    assert (Hloop : ∀ cs acc st1,
      filled st0 st1 → (∀ c, c ∈ cs → c ∈ get_children n0) →
      ∃ st2,
        Py.sum_with (calculate_dir_size fuel) cs acc st1
        = Some (acc + total (map (aggregate fuel st0) cs), st2)
        ∧ filled st0 st2
        ∧ (∀ c q, c ∈ cs → reach st0 c q → is_dir st0 q →
                  size_of st2 q = files_size st0 q)
        ∧ (∀ q, size_of st1 q = files_size st0 q → is_dir st0 q →
                size_of st2 q = files_size st0 q)).
    { induction cs as [|c cs IHcs]; intros acc st1 Hfill1 Hsub.
      - exists st1. simpl. rewrite Z.add_0_r.
        split; [done|]. split; [done|]. split; [|done].
        intros c q Hc. by apply elem_of_nil in Hc.
      - destruct (Hts r n0 c Hn0 (Hsub c ltac:(left))) as [Hrc Hc].
        destruct (IH c st1 Hfill1 Hc ltac:(lia))
          as (st2 & Hcall & Hfill2 & Hkeep2 & Hpost2).
        destruct (IHcs (acc + files_size st0 c) st2 Hfill2) as (st3 & Hrest & Hfill3 & Hpost3 & Hkeep3).
        { intros c' Hc'. apply Hsub. by right. }
        exists st3. cbn [Py.sum_with]. rewrite Hcall, Hrest.
        cbn [map total foldr].
        rewrite (aggregate_files_size st0 fuel c Hts ltac:(lia)).
        split; [f_equal; f_equal; unfold total; lia|].
        split; [done|]. split.
        + intros c' q [->|Hc']%elem_of_cons Hreach Hdir.
          * apply Hkeep3; [|done]. by apply Hpost2.
          * by apply (Hpost3 c').
        + intros q Hq Hdir. apply Hkeep3; [|done]. by apply Hkeep2. }
    destruct (Hloop (get_children n0) 0 st (conj Hlen Hf) ltac:(done))
      as (st2 & Hsum & Hfill2 & Hpost2 & Hkeep2).
    rewrite Hsum. cbn [mbind option_bind]. rewrite Z.add_0_l.
    set (v := total (map (aggregate fuel st0) (get_children n0))).
    assert (Hv : v = files_size st0 r).
    { rewrite <- (aggregate_files_size st0 (S fuel) r Hts Hfuel).
      cbn [aggregate]. by rewrite Hn0, Hty0. }
    eexists. split; [done|].
    destruct Hfill2 as [Hlen2 Hf2].
    split; [split|split].
    + by rewrite length_alter.
    + intros q nq Hnq. destruct (Hf2 q nq Hnq) as (n2 & Hn2 & Hc2).
      destruct (decide (q = r)) as [->|Hne].
      * rewrite list_lookup_alter_eq, Hn2. simpl. eexists. split; [done|].
        right. assert (nq = n0) as -> by congruence. split; [done|].
        rewrite Hv. by destruct Hc2 as [->|[_ ->]].
      * rewrite list_lookup_alter_ne by done. eauto.
    + intros q Hq Hdir. unfold size_of.
      destruct (decide (q = r)) as [->|Hne].
      * rewrite list_lookup_alter_eq.
        destruct (Hf2 r n0 Hn0) as (n2 & -> & _). simpl. exact Hv.
      * rewrite list_lookup_alter_ne by done. by apply Hkeep2.
    + intros q Hreach Hdir.
      destruct (decide (q = r)) as [->|Hne].
      * unfold size_of. rewrite list_lookup_alter_eq.
        destruct (Hf2 r n0 Hn0) as (n2 & -> & _). simpl. exact Hv.
      * unfold size_of. rewrite list_lookup_alter_ne by done.
        inversion Hreach as [|p c q' Hchild Hreach']; subst; [done|].
        destruct Hchild as (n0' & Hn0' & _ & Hc).
        assert (n0' = n0) as -> by congruence.
        by apply (Hpost2 c).
  - (* a file *)
    exists st. split; [|split; [done|split; [done|]]].
    + f_equal. f_equal. destruct Hcase as [->|[Hd _]]; [done|congruence].
    + intros q Hreach (nq & Hnq & Htq).
      inversion Hreach as [|p c q' Hchild Hreach']; subst.
      * congruence.
      * destruct Hchild as (n0' & Hn0' & Hd & _). congruence.
Qed.

Lemma filled_same_tree st0 st : filled st0 st → same_tree st0 st.
Proof.
  intros [Hlen Hf]. split; [done|]. intros q n Hn.
  destruct (Hf q n Hn) as (n' & Hn' & Hcase). exists n'. split; [done|].
  destruct Hcase as [->|[Hd ->]]; [done|]. simpl. repeat split. congruence.
Qed.

Lemma files_size_same_tree st st' r :
  same_tree st st' → files_size st' r = files_size st r.
Proof.
  intros Hsame. unfold files_size. rewrite <- !aggregate_files.
  destruct Hsame as [Hlen Hs]. rewrite Hlen.
  by apply aggregate_same_tree.
Qed.

Lemma files_size_file st r n :
  st !! r = Some n → type n = file → files_size st r = size n.
Proof.
  intros Hn Hty. unfold files_size. rewrite <- aggregate_files.
  pose proof (lookup_lt_Some _ _ _ Hn) as Hlt.
  destruct (length st) as [|k]; [lia|]. cbn [aggregate]. by rewrite Hn, Hty.
Qed.

Lemma files_size_directory st r n :
  tree_shaped st → st !! r = Some n → type n = directory →
  files_size st r = total (map (files_size st) (get_children n)).
Proof.
  intros Hts Hn Hty.
  rewrite <- (aggregate_files_size st (S (length st)) r Hts) by lia.
  cbn [aggregate]. rewrite Hn, Hty. f_equal.
  apply map_ext_in. intros c Hc%list_elem_of_In.
  apply aggregate_files_size; [done|lia].
Qed.

Lemma reach_trans st a b c : reach st a b → reach st b c → reach st a c.
Proof.
  induction 1 as [|p x q Hchild _ IH]; [done|].
  intros Hbc. eapply reach_child; [exact Hchild|]. by apply IH.
Qed.

(** The names, the types, the children, the parents and the flags are the
    same in two stores; the sizes may differ. *)
Definition same_but_size (n n' : node) : Prop :=
  name n' = name n ∧ type n' = type n ∧ children n' = children n
  ∧ parent n' = parent n ∧ is_executable n' = is_executable n
  ∧ expanded n' = expanded n.

(** The aggregate pass on a tree-shaped store, from any node [r]: the call
    returns; below [r] every directory ends with the sum of the sizes of
    its children, which is the sum of the sizes of the files it contains;
    the files keep their size, and nothing but sizes changes. *)
Lemma aggregate_pass_sums st0 r fuel :
  tree_shaped st0 → (r < length st0)%nat → (length st0 - r ≤ fuel)%nat →
  ∃ st',
    calculate_dir_size fuel r st0 = Some (files_size st0 r, st')
    ∧ length st' = length st0
    ∧ (∀ q n, st0 !! q = Some n →
         ∃ n', st' !! q = Some n' ∧ same_but_size n n'
               ∧ (type n = file → n' = n))
    ∧ ∀ q n', reach st0 r q → st' !! q = Some n' → type n' = directory →
        size n' = total (map (size_of st') (get_children n'))
        ∧ size n' = files_size st' q.
Proof.
  intros Hts Hr Hfuel.
  destruct (calculate_dir_size_fills st0 Hts fuel r st0 (filled_refl st0) Hr Hfuel)
    as (st' & Hcall & Hfill & _ & Hpost).
  exists st'. split; [done|].
  pose proof (filled_same_tree _ _ Hfill) as Hsame.
  destruct Hfill as [Hlen Hf]. split; [done|]. split.
  { intros q n Hn. destruct (Hf q n Hn) as (n' & Hn' & Hcase).
    exists n'. split; [done|].
    destruct Hcase as [->|[Hd ->]]; [by repeat split|].
    split; [by repeat split|]. congruence. }
  intros q n' Hreach Hn' Hty.
  destruct (filled_lookup st0 st' q n' (conj Hlen Hf) Hn')
    as (n & Hn & Htyeq & Hcs & _).
  assert (Hdir : is_dir st0 q) by (exists n; split; [done|congruence]).
  pose proof (Hpost q Hreach Hdir) as Hsize.
  unfold size_of in Hsize. rewrite Hn' in Hsize.
  rewrite (files_size_same_tree st0 st' q Hsame).
  split; [|done].
  rewrite Hsize, Hcs.
  rewrite (files_size_directory st0 q n Hts Hn) by congruence.
  f_equal. apply map_ext_in. intros c Hc%list_elem_of_In.
  destruct (Hts q n c Hn Hc) as [_ Hclt].
  destruct (lookup_lt_is_Some_2 st0 c Hclt) as [nc Hnc].
  destruct (type nc) eqn:Htc.
  - symmetry. apply Hpost; [|by exists nc].
    eapply reach_trans; [exact Hreach|].
    eapply reach_child; [|apply reach_here].
    exists n. split; [done|]. split; [congruence|done].
  - rewrite (files_size_file st0 c nc Hnc Htc).
    destruct (Hf c nc Hnc) as (nc' & Hnc' & Hcase).
    unfold size_of. rewrite Hnc'.
    destruct Hcase as [->|[Hd _]]; [done|congruence].
Qed.

(** *** The build pass *)

(** No node is listed twice: not twice by one dict, not by two dicts. *)
Definition unique_parent (st : store) : Prop :=
  (∀ p n, st !! p = Some n → NoDup (get_children n))
  ∧ ∀ p p' n n' c,
      st !! p = Some n → st !! p' = Some n' →
      c ∈ get_children n → c ∈ get_children n' → p = p'.

(** What pass 2 keeps true of the node dicts and of [path_map]: the store
    is tree-shaped, every node but the root is listed by a directory, every
    path of [path_map] leads to a directory dict with a ['children'] list,
    and no node is listed twice. *)
Definition built (st : store) (path_map : gmap string ref) : Prop :=
  tree_shaped st
  ∧ (0 < length st)%nat
  ∧ (∀ c, (0 < c < length st)%nat → ∃ p, child_of st p c)
  ∧ (∀ path r, path_map !! path = Some r →
       ∃ n, st !! r = Some n ∧ type n = directory ∧ is_Some (children n))
  ∧ unique_parent st.

(** The store after a fresh dict [nd] was appended to the children of
    [p]. *)
Definition attached (st : store) (p : ref) (n : node) (cs : list ref)
    (nd : node) : store :=
  <[p := set_children (cs ++ [length st]) n]> (st ++ [nd]).

Lemma append_child_attached st p n cs nd :
  st !! p = Some n → children n = Some cs →
  append_child p (length st) (st ++ [nd]) = Some (attached st p n cs nd).
Proof.
  intros Hn Hcs. unfold append_child.
  rewrite lookup_app_l by (by eapply lookup_lt_Some).
  rewrite Hn. cbn [mbind option_bind]. by rewrite Hcs.
Qed.

Section Attached.
Context (st : store) (p : ref) (n : node) (cs : list ref) (nd : node).
Hypothesis Hn : st !! p = Some n.
Hypothesis Hcs : children n = Some cs.

Lemma attached_length : length (attached st p n cs nd) = S (length st).
Proof. unfold attached. rewrite length_insert, length_app. simpl. lia. Qed.

Lemma attached_parent :
  attached st p n cs nd !! p = Some (set_children (cs ++ [length st]) n).
Proof.
  unfold attached. apply list_lookup_insert_eq.
  rewrite length_app. apply lookup_lt_Some in Hn. lia.
Qed.

Lemma attached_new : attached st p n cs nd !! length st = Some nd.
Proof.
  unfold attached. apply lookup_lt_Some in Hn as Hlt.
  rewrite list_lookup_insert_ne by lia.
  by apply list_lookup_middle.
Qed.

Lemma attached_other q :
  q ≠ p → (q < length st)%nat → attached st p n cs nd !! q = st !! q.
Proof.
  intros Hne Hq. unfold attached.
  rewrite list_lookup_insert_ne by done. by apply lookup_app_l.
Qed.

(** Every old node is still there, with at most one more child. *)
Lemma attached_old q nq :
  st !! q = Some nq →
  ∃ nq', attached st p n cs nd !! q = Some nq'
         ∧ type nq' = type nq ∧ size nq' = size nq
         ∧ (is_Some (children nq) → is_Some (children nq'))
         ∧ ∀ c, c ∈ get_children nq → c ∈ get_children nq'.
Proof.
  intros Hq. destruct (decide (q = p)) as [->|Hne].
  - rewrite attached_parent. eexists. split; [done|].
    assert (nq = n) as -> by congruence.
    repeat split; [done|].
    intros c. unfold get_children. rewrite Hcs. simpl.
    intros Hc. apply elem_of_app. by left.
  - rewrite attached_other by (done || by eapply lookup_lt_Some).
    by exists nq.
Qed.

Lemma attached_lookup_inv q nq' :
  attached st p n cs nd !! q = Some nq' →
  (q = p ∧ nq' = set_children (cs ++ [length st]) n)
  ∨ (q = length st ∧ nq' = nd)
  ∨ (q ≠ p ∧ st !! q = Some nq').
Proof.
  intros Hq. destruct (decide (q = p)) as [->|Hne].
  - left. rewrite attached_parent in Hq. split; congruence.
  - right. apply lookup_lt_Some in Hq as Hlt. rewrite attached_length in Hlt.
    destruct (decide (q = length st)) as [->|Hne'].
    + left. rewrite attached_new in Hq. split; congruence.
    + right. rewrite attached_other in Hq by (done || lia). done.
Qed.

(** Who lists [c] after the append: the parent lists the new node, and
    whoever listed an old node before still does. *)
Lemma attached_lists q nq' c :
  tree_shaped st → get_children nd = [] →
  attached st p n cs nd !! q = Some nq' → c ∈ get_children nq' →
  (c = length st ∧ q = p)
  ∨ ((c < length st)%nat ∧ ∃ nq, st !! q = Some nq ∧ c ∈ get_children nq).
Proof.
  intros Hts Hnd Hq Hc.
  destruct (attached_lookup_inv q nq' Hq) as [[-> ->]|[[-> ->]|[Hne Hq']]].
  - unfold get_children in Hc. simpl in Hc.
    apply elem_of_app in Hc as [Hc|Hc%list_elem_of_singleton]; [|by left].
    assert (c ∈ get_children n) as Hc'
      by (unfold get_children; by rewrite Hcs).
    right. destruct (Hts p n c Hn Hc'). eauto.
  - rewrite Hnd in Hc. by apply elem_of_nil in Hc.
  - right. destruct (Hts q nq' c Hq' Hc). eauto.
Qed.

Lemma attached_unique :
  tree_shaped st → get_children nd = [] →
  unique_parent st → unique_parent (attached st p n cs nd).
Proof.
  intros Hts Hnd [Hnodup Huniq]. split.
  - intros q nq' Hq.
    destruct (attached_lookup_inv q nq' Hq) as [[-> ->]|[[-> ->]|[Hne Hq']]].
    + unfold get_children. simpl. apply NoDup_app.
      assert (Hold : get_children n = cs)
        by (unfold get_children; by rewrite Hcs).
      split; [rewrite <- Hold; by eapply Hnodup|]. split.
      * intros c Hc Hnew%list_elem_of_singleton.
        rewrite <- Hold in Hc. destruct (Hts p n c Hn Hc). lia.
      * apply NoDup_singleton.
    + rewrite Hnd. apply NoDup_nil_2.
    + by eapply Hnodup.
  - intros q q' nq nq' c Hq Hq' Hc Hc'.
    destruct (attached_lists q nq c Hts Hnd Hq Hc)
      as [[Hnew Hp]|[Hlt (m & Hm & Hcm)]];
      destruct (attached_lists q' nq' c Hts Hnd Hq' Hc')
        as [[Hnew' Hp']|[Hlt' (m' & Hm' & Hcm')]]; try lia.
    by eapply Huniq.
Qed.

Lemma attached_built path_map :
  built st path_map → type n = directory → get_children nd = [] →
  built (attached st p n cs nd) path_map.
Proof.
  intros (Hts & Hpos & Hpar & Hpm & Huniq) Hty Hnd.
  apply lookup_lt_Some in Hn as Hp.
  split; [|split; [|split; [|split; [|by apply attached_unique]]]].
  - intros q nq' c Hq Hc. rewrite attached_length.
    destruct (attached_lookup_inv q nq' Hq) as [[-> ->]|[[-> ->]|[Hne Hq']]].
    + unfold get_children in Hc. simpl in Hc.
      apply elem_of_app in Hc as [Hc|Hc%list_elem_of_singleton]; [|lia].
      assert (c ∈ get_children n) as Hc'
        by (unfold get_children; by rewrite Hcs).
      destruct (Hts p n c Hn Hc'). lia.
    + rewrite Hnd in Hc. by apply elem_of_nil in Hc.
    + destruct (Hts q nq' c Hq' Hc). lia.
  - rewrite attached_length. lia.
  - intros c Hc. rewrite attached_length in Hc.
    destruct (decide (c = length st)) as [->|Hne].
    + exists p. eexists. split; [apply attached_parent|].
      split; [done|]. unfold get_children. simpl.
      apply elem_of_app. right. by apply list_elem_of_singleton.
    + destruct (Hpar c ltac:(lia)) as (q & nq & Hq & Htq & Hcq).
      destruct (attached_old q nq Hq) as (nq' & Hq' & Hty' & _ & _ & Hsub).
      exists q, nq'. split; [done|]. split; [congruence|]. by apply Hsub.
  - intros path r Hr. destruct (Hpm path r Hr) as (nr & Hnr & Htr & Hcr).
    destruct (attached_old r nr Hnr) as (nr' & Hr' & Hty' & _ & Hcs' & _).
    exists nr'. split; [done|]. split; [congruence|]. by apply Hcs'.
Qed.

End Attached.

Lemma built_insert st path_map path r n :
  built st path_map → st !! r = Some n → type n = directory →
  is_Some (children n) → built st (<[path := r]> path_map).
Proof.
  intros (Hts & Hpos & Hpar & Hpm & Huniq) Hn Hty Hcs.
  split; [done|]. split; [done|]. split; [done|]. split; [|done].
  intros path' r' Hr'. destruct (decide (path = path')) as [->|Hne].
  - rewrite lookup_insert_eq in Hr'. injection Hr' as <-. eauto.
  - rewrite lookup_insert_ne in Hr' by done. eauto.
Qed.

Section BuildFacts.
Context (os_walk : string → list (string * list string * list string)).
Context (getsize : string → option Z) (basename : string → string).

(** A directory dict with its ['children'] list. *)
Definition parent_ok (st : store) (p : ref) : Prop :=
  ∃ n, st !! p = Some n ∧ type n = directory ∧ is_Some (children n).

Lemma scan_dir_attached root p st path_map state d n cs :
  st !! p = Some n → children n = Some cs →
  scan_dir root p (st, path_map, state) d
  = Some (attached st p n cs (dir_dict d p),
          <[Py.path_join root d := length st]> path_map,
          ScanState.update (Py.path_join root d) false 0 state).
Proof.
  intros Hn Hcs. unfold scan_dir, alloc.
  by rewrite (append_child_attached st p n cs _ Hn Hcs).
Qed.

Lemma scan_file_attached root p st path_map state f n cs :
  st !! p = Some n → children n = Some cs →
  scan_file getsize root p (st, path_map, state) f
  = match getsize (Py.path_join root f) with
    | Some sz =>
        Some (attached st p n cs
                (file_dict f sz p (Py.endswith (Py.lower f) ".exe")),
              path_map,
              ScanState.update (Py.path_join root f) true sz state)
    | None =>
        Some (st, path_map,
              ScanState.update (Py.path_join root f) true 0 state)
    end.
Proof.
  intros Hn Hcs. unfold scan_file, alloc.
  destruct (getsize (Py.path_join root f)) as [sz|]; [|done].
  by rewrite (append_child_attached st p n cs _ Hn Hcs).
Qed.

Lemma attached_parent_ok st p n cs nd q :
  st !! p = Some n → children n = Some cs →
  parent_ok st q → parent_ok (attached st p n cs nd) q.
Proof.
  intros Hn Hcs (nq & Hq & Hty & Hc).
  destruct (attached_old st p n cs nd Hn Hcs q nq Hq)
    as (nq' & Hq' & Hty' & _ & Hc' & _).
  exists nq'. split; [done|]. split; [congruence|auto].
Qed.

(** The loop over [dirs] does not raise; it keeps the store well built
    and enters every directory path in [path_map], keeping the paths
    already there. *)
Lemma scan_dirs_built root p dirs : ∀ st path_map state,
  built st path_map → parent_ok st p →
  ∃ st' path_map' state',
    Py.for_each (scan_dir root p) dirs (st, path_map, state)
    = Some (st', path_map', state')
    ∧ built st' path_map' ∧ parent_ok st' p
    ∧ (∀ path, is_Some (path_map !! path) → is_Some (path_map' !! path))
    ∧ (∀ d, d ∈ dirs → is_Some (path_map' !! Py.path_join root d)).
Proof.
  induction dirs as [|d dirs IH]; intros st path_map state Hb Hp.
  - exists st, path_map, state.
    split; [done|]. split; [done|]. split; [done|]. split; [done|].
    intros d Hd. by apply elem_of_nil in Hd.
  - destruct Hp as (n & Hn & Hty & [cs Hcs]).
    cbn [Py.for_each]. rewrite (scan_dir_attached root p _ _ _ d n cs Hn Hcs).
    set (st1 := attached st p n cs (dir_dict d p)).
    set (pm1 := <[Py.path_join root d := length st]> path_map).
    assert (Hb1 : built st1 pm1).
    { apply built_insert with (dir_dict d p).
      - by apply attached_built.
      - by apply attached_new.
      - done.
      - by eexists. }
    assert (Hp1 : parent_ok st1 p).
    { apply attached_parent_ok; [done|done|]. exists n. eauto. }
    destruct (IH st1 pm1 (ScanState.update (Py.path_join root d) false 0 state)
                 Hb1 Hp1)
      as (st' & pm' & state' & Hloop & Hb' & Hp' & Hkeep & Hnew).
    exists st', pm', state'. split; [done|]. split; [done|]. split; [done|].
    split.
    + intros path Hpath. apply Hkeep. unfold pm1.
      destruct (decide (Py.path_join root d = path)) as [->|Hne].
      * rewrite lookup_insert_eq. by eexists.
      * by rewrite lookup_insert_ne.
    + intros d' [->|Hd']%elem_of_cons; [|by apply Hnew].
      apply Hkeep. unfold pm1. rewrite lookup_insert_eq. by eexists.
Qed.

(** The files of [files] whose size could be read, with their size. *)
Definition stat_ok (root : string) (files : list string)
    : list (string * Z) :=
  omap (λ f, sz ← getsize (Py.path_join root f); Some (f, sz)) files.

(** The calls of [state.update] the loop over [files] makes. *)
Definition count_files (root : string) (files : list string)
    (state : ScanState.t) : ScanState.t :=
  fold_left (λ s f, ScanState.update (Py.path_join root f) true
                      (default 0 (getsize (Py.path_join root f))) s)
            files state.

(** The loop over [files] of one directory, whatever [getsize] answers:
    it does not raise; it makes one file dict for each file whose size
    was read, in the order of [files], and appends it to the children of
    the parent; for a file whose size was not read it makes no dict; it
    calls [state.update] for every file, with size 0 for those. *)
Lemma scan_files_attached root p files : ∀ st path_map state n cs,
  st !! p = Some n → children n = Some cs →
  ∃ st',
    Py.for_each (scan_file getsize root p) files (st, path_map, state)
    = Some (st', path_map, count_files root files state)
    ∧ length st' = (length st + length (stat_ok root files))%nat
    ∧ st' !! p
      = Some (set_children
                (cs ++ seq (length st) (length (stat_ok root files))) n)
    ∧ (∀ i f sz, stat_ok root files !! i = Some (f, sz) →
         st' !! (length st + i)%nat
         = Some (file_dict f sz p (Py.endswith (Py.lower f) ".exe")))
    ∧ (∀ q, q ≠ p → (q < length st)%nat → st' !! q = st !! q)
    ∧ (built st path_map → type n = directory → built st' path_map).
Proof.
  induction files as [|f files IH]; intros st path_map state n cs Hn Hcs.
  - exists st. simpl. rewrite Nat.add_0_r, app_nil_r.
    split; [done|]. split; [done|]. split.
    { rewrite Hn. f_equal. destruct n; simpl in *; by subst. }
    split; [done|]. split; done.
  - cbn [Py.for_each]. rewrite (scan_file_attached root p _ _ _ f n cs Hn Hcs).
    unfold stat_ok, count_files. cbn [omap list_omap fold_left].
    fold (stat_ok root files).
    destruct (getsize (Py.path_join root f)) as [sz|] eqn:Hsz;
      cbn [mbind option_bind default].
    + set (nd := file_dict f sz p (Py.endswith (Py.lower f) ".exe")).
      set (st1 := attached st p n cs nd).
      destruct (IH st1 path_map
                   (ScanState.update (Py.path_join root f) true sz state)
                   (set_children (cs ++ [length st]) n) (cs ++ [length st]))
        as (st' & Hloop & Hlen & Hp & Hnew & Hold & Hb).
      { by apply attached_parent. }
      { done. }
      assert (Hl1 : length st1 = S (length st)) by apply attached_length.
      rewrite Hl1 in *.
      exists st'. split; [exact Hloop|]. cbn [length].
      split; [lia|]. split.
      { rewrite Hp. f_equal. cbn [seq]. unfold set_children. simpl.
        by rewrite <- app_assoc. }
      split.
      { intros [|i] f' sz' Hi.
        - injection Hi as <- <-. rewrite Nat.add_0_r.
          apply lookup_lt_Some in Hn as Hlt.
          rewrite Hold by lia. by apply attached_new.
        - replace (length st + S i)%nat with (S (length st) + i)%nat by lia.
          by apply Hnew. }
      split.
      { intros q Hne Hq. rewrite Hold by (done || lia).
        by apply attached_other. }
      intros Hbuilt Hty. apply Hb; [|done].
      by apply attached_built.
    + destruct (IH st path_map
                   (ScanState.update (Py.path_join root f) true 0 state)
                   n cs Hn Hcs)
        as (st' & Hloop & Hlen & Hp & Hnew & Hold & Hb).
      exists st'. split; [exact Hloop|]. split; [exact Hlen|].
      split; [exact Hp|]. split; [exact Hnew|]. split; [exact Hold|exact Hb].
Qed.

End BuildFacts.

Section BuildPass.
Context (os_walk : string → list (string * list string * list string)).
Context (getsize : string → option Z) (basename : string → string).

(** One turn of the loop over [os.walk]: it raises when [root] is not in
    [path_map], and only then. *)
Lemma scan_root_built st path_map state root dirs files :
  built st path_map → is_Some (path_map !! root) →
  ∃ st' path_map' state',
    scan_root getsize (st, path_map, state) (root, dirs, files)
    = Some (st', path_map', state')
    ∧ built st' path_map'
    ∧ (∀ path, is_Some (path_map !! path) → is_Some (path_map' !! path))
    ∧ (∀ d, d ∈ dirs → is_Some (path_map' !! Py.path_join root d)).
Proof.
  intros Hb [p Hp]. unfold scan_root. cbn [fst snd]. rewrite Hp.
  cbn [mbind option_bind].
  assert (Hpok : parent_ok st p).
  { destruct Hb as (_ & _ & _ & Hpm & _). exact (Hpm root p Hp). }
  destruct (scan_dirs_built root p dirs st path_map state Hb Hpok)
    as (st1 & pm1 & state1 & Hdirs & Hb1 & (n & Hn & Hty & [cs Hcs]) & Hkeep & Hnew).
  rewrite Hdirs. cbn [mbind option_bind].
  destruct (scan_files_attached getsize root p files st1 pm1 state1 n cs Hn Hcs)
    as (st2 & Hfiles & _ & _ & _ & _ & Hb2).
  exists st2, pm1, (count_files getsize root files state1).
  split; [done|]. split; [by apply Hb2|]. by split.
Qed.

Lemma scan_root_raises st path_map state root dirs files :
  path_map !! root = None →
  scan_root getsize (st, path_map, state) (root, dirs, files) = None.
Proof. intros Hp. unfold scan_root. cbn [fst snd]. by rewrite Hp. Qed.

Lemma scan_walk_built walk : ∀ st path_map state st' path_map' state',
  built st path_map →
  Py.for_each (scan_root getsize) walk (st, path_map, state)
  = Some (st', path_map', state') →
  built st' path_map'.
Proof.
  induction walk as [|[[root dirs] files] walk IH];
    intros st pm state st' pm' state' Hb Hrun; cbn [Py.for_each] in Hrun.
  - by injection Hrun as <- <- <-.
  - destruct (pm !! root) as [p|] eqn:Hp.
    + destruct (scan_root_built st pm state root dirs files Hb ltac:(by eexists))
        as (st1 & pm1 & state1 & Hstep & Hb1 & _).
      rewrite Hstep in Hrun. by eapply IH.
    + by rewrite scan_root_raises in Hrun.
Qed.

Lemma root_built path :
  built [root_dict basename path] {[path := 0%nat]}.
Proof.
  split; [|split; [|split; [|split]]].
  - intros [|p] n c Hn Hc; [|done]. injection Hn as <-.
    by apply elem_of_nil in Hc.
  - simpl. lia.
  - simpl. intros c Hc. lia.
  - intros path' r Hr. apply lookup_singleton_Some in Hr as [_ <-].
    eexists. split; [done|]. split; [done|]. by eexists.
  - split.
    + intros [|p] n Hn; [|done]. injection Hn as <-. apply NoDup_nil_2.
    + intros [|p] p' n n' c Hn _ Hc; [|done]. injection Hn as <-.
      by apply elem_of_nil in Hc.
Qed.

Lemma build_tree_built path state st path_map state' :
  build_tree os_walk getsize basename path state = Some (st, path_map, state') →
  built st path_map.
Proof.
  unfold build_tree, alloc. cbn [length app].
  apply scan_walk_built, root_built.
Qed.

(** Every directory the walk enters was listed by the walk before: the
    start path, or a name of [dirs] joined to its [root]. *)
Fixpoint announced (known : list string)
    (walk : list (string * list string * list string)) : Prop :=
  match walk with
  | [] => True
  | (root, dirs, _) :: walk' =>
      root ∈ known
      ∧ announced (known ++ map (Py.path_join root) dirs) walk'
  end.

Lemma scan_walk_returns walk : ∀ known st path_map state,
  built st path_map → (∀ path, path ∈ known → is_Some (path_map !! path)) →
  announced known walk →
  is_Some (Py.for_each (scan_root getsize) walk (st, path_map, state)).
Proof.
  induction walk as [|[[root dirs] files] walk IH];
    intros known st pm state Hb Hknown Hann; cbn [Py.for_each].
  - by eexists.
  - destruct Hann as [Hroot Hann].
    destruct (scan_root_built st pm state root dirs files Hb (Hknown _ Hroot))
      as (st1 & pm1 & state1 & Hstep & Hb1 & Hkeep & Hnew).
    rewrite Hstep. eapply IH; [exact Hb1| |exact Hann].
    intros path [Hp|Hp]%elem_of_app; [by apply Hkeep, Hknown|].
    apply list_elem_of_In, in_map_iff in Hp as (d & <- & Hd).
    by apply Hnew, list_elem_of_In.
Qed.

(** Pass 2 does not raise on the walk of a directory tree, whatever
    [getsize] answers. *)
Lemma build_tree_returns path state :
  announced [path] (os_walk path) →
  is_Some (build_tree os_walk getsize basename path state).
Proof.
  intros Hann. unfold build_tree, alloc. cbn [length app].
  eapply scan_walk_returns; [apply root_built| |exact Hann].
  intros p Hp%list_elem_of_singleton. subst. rewrite lookup_singleton_eq.
  by eexists.
Qed.

End BuildPass.

(** Every node of a well-built store is in the tree of the root. *)
Lemma built_reach st path_map q :
  built st path_map → (q < length st)%nat → reach st 0%nat q.
Proof.
  intros (Hts & _ & Hpar & _).
  induction q as [q IH] using lt_wf_ind. intros Hq.
  destruct q as [|q]; [apply reach_here|].
  destruct (Hpar (S q) ltac:(lia)) as (p & n & Hn & Hty & Hc).
  destruct (Hts p n (S q) Hn Hc) as [Hlt _].
  apply (reach_trans st 0%nat p (S q)); [apply IH; lia|].
  eapply reach_child; [|apply reach_here]. by exists n.
Qed.

(** *** The files a directory contains *)

Definition is_file (st : store) (r : ref) : Prop :=
  ∃ n, st !! r = Some n ∧ type n = file.

(** [subtree_files] lists files contained in [r] only. *)
Lemma subtree_files_reach fuel : ∀ st r f,
  f ∈ subtree_files fuel st r → reach st r f ∧ is_file st f.
Proof.
  induction fuel as [|fuel IH]; intros st r f Hf; cbn [subtree_files] in Hf.
  { by apply elem_of_nil in Hf. }
  destruct (st !! r) as [n|] eqn:Hn; [|by apply elem_of_nil in Hf].
  destruct (type n) eqn:Hty.
  - apply list_elem_of_In, in_flat_map in Hf as (c & Hc & Hfc).
    apply list_elem_of_In in Hc, Hfc.
    destruct (IH st c f Hfc) as [Hreach Hfile].
    split; [|done]. eapply reach_child; [|exact Hreach]. by exists n.
  - apply list_elem_of_singleton in Hf as ->.
    split; [apply reach_here|by exists n].
Qed.

(** With the depth the tree needs, it lists all of them. *)
Lemma subtree_files_complete st r f :
  tree_shaped st → reach st r f → is_file st f →
  ∀ fuel, (length st - r ≤ fuel)%nat → f ∈ subtree_files fuel st r.
Proof.
  intros Hts Hreach Hfile.
  induction Hreach as [r|p c q (n & Hn & Hty & Hc) Hreach IH]; intros fuel Hfuel.
  - destruct Hfile as (n & Hn & Hty).
    apply lookup_lt_Some in Hn as Hlt.
    destruct fuel as [|fuel]; [lia|]. cbn [subtree_files].
    rewrite Hn, Hty. by apply list_elem_of_singleton.
  - apply lookup_lt_Some in Hn as Hlt.
    destruct fuel as [|fuel]; [lia|]. cbn [subtree_files]. rewrite Hn, Hty.
    destruct (Hts p n c Hn Hc).
    apply list_elem_of_In, in_flat_map. exists c.
    split; apply list_elem_of_In; [done|]. apply IH; [done|lia].
Qed.

Lemma reach_le st a b : tree_shaped st → reach st a b → (a ≤ b)%nat.
Proof.
  intros Hts. induction 1 as [|p c q (n & Hn & _ & Hc) _ IH]; [done|].
  destruct (Hts p n c Hn Hc). lia.
Qed.

Lemma reach_last st a x :
  reach st a x → a = x ∨ ∃ p, reach st a p ∧ child_of st p x.
Proof.
  induction 1 as [|p c q Hchild Hreach IH]; [by left|]. right.
  destruct IH as [->|(p' & Hp' & Hlast)].
  - exists p. split; [apply reach_here|done].
  - exists p'. split; [|done]. by eapply reach_child.
Qed.

(** The ancestors of a node form a chain. *)
Lemma reach_chain st (Hts : tree_shaped st) (Huniq : unique_parent st) :
  ∀ x a b, reach st a x → reach st b x → reach st a b ∨ reach st b a.
Proof.
  induction x as [x IH] using lt_wf_ind. intros a b Ha Hb.
  destruct (reach_last st a x Ha) as [->|(p & Hap & Hpx)]; [by right|].
  destruct (reach_last st b x Hb) as [->|(p' & Hbp & Hpx')]; [by left|].
  destruct Hpx as (n & Hn & Hty & Hc). destruct Hpx' as (n' & Hn' & Hty' & Hc').
  assert (p' = p) as -> by (destruct Huniq as [_ Hu]; by eapply Hu).
  destruct (Hts p n x Hn Hc). by apply (IH p).
Qed.

(** Two children of one directory have no node in common below them. *)
Lemma siblings_disjoint st r c1 c2 x :
  tree_shaped st → unique_parent st →
  child_of st r c1 → child_of st r c2 →
  reach st c1 x → reach st c2 x → c1 = c2.
Proof.
  intros Hts Huniq H1 H2 Hx1 Hx2.
  assert (Hup : ∀ c c', child_of st r c → child_of st r c' →
                        reach st c c' → c = c').
  { intros c c' (n & Hn & _ & Hc) Hc' Hreach.
    destruct (reach_last st c c' Hreach) as [|(p & Hcp & Hpc')]; [done|].
    destruct Hc' as (n' & Hn' & _ & Hc'). destruct Hpc' as (m & Hm & _ & Hcm).
    assert (p = r) as -> by (destruct Huniq as [_ Hu]; by eapply Hu).
    apply (reach_le st c r Hts) in Hcp. destruct (Hts r n c Hn Hc). lia. }
  destruct (reach_chain st Hts Huniq x c1 c2 Hx1 Hx2) as [H|H].
  - by apply Hup.
  - symmetry. by apply Hup.
Qed.

Lemma NoDup_flat_map {A B : Type} (f : A → list B) (l : list A) :
  NoDup l → (∀ x, x ∈ l → NoDup (f x)) →
  (∀ x y z, x ∈ l → y ∈ l → z ∈ f x → z ∈ f y → x = y) →
  NoDup (flat_map f l).
Proof.
  induction 1 as [|x l Hx Hl IH]; intros Hf Hdisj; simpl; [constructor|].
  apply NoDup_app. split; [apply Hf; left|]. split.
  - intros z Hz Hz'. apply list_elem_of_In, in_flat_map in Hz' as (y & Hy & Hzy).
    apply list_elem_of_In in Hy, Hzy.
    assert (x = y) by (apply (Hdisj x y z); [left|by right|done|done]).
    by subst.
  - apply IH.
    + intros y Hy. apply Hf. by right.
    + intros y y' z Hy Hy'. apply Hdisj; by right.
Qed.

(** It lists each of them once. *)
Lemma subtree_files_NoDup st (Hts : tree_shaped st) (Huniq : unique_parent st) :
  ∀ fuel r, NoDup (subtree_files fuel st r).
Proof.
  induction fuel as [|fuel IH]; intros r; cbn [subtree_files]; [constructor|].
  destruct (st !! r) as [n|] eqn:Hn; [|constructor].
  destruct (type n) eqn:Hty; [|apply NoDup_singleton].
  apply NoDup_flat_map.
  - destruct Huniq as [Hnd _]. by eapply Hnd.
  - intros c _. apply IH.
  - intros c c' f Hc Hc' Hf Hf'.
    apply subtree_files_reach in Hf as [Hf _], Hf' as [Hf' _].
    apply (siblings_disjoint st r c c' f); try done; by exists n.
Qed.

(** The files [files_size] adds up at [r]: the file nodes contained in [r],
    each once. *)
Lemma subtree_files_exact st r :
  tree_shaped st → unique_parent st →
  NoDup (subtree_files (length st) st r)
  ∧ ∀ f, f ∈ subtree_files (length st) st r ↔ reach st r f ∧ is_file st f.
Proof.
  intros Hts Huniq. split; [by apply subtree_files_NoDup|].
  intros f. split; [apply subtree_files_reach|].
  intros [Hreach Hfile]. apply subtree_files_complete; [done|done|done|lia].
Qed.

(** A pass that leaves every list of children as it was keeps these
    properties of the store. *)
Lemma unique_parent_sizes st st' :
  length st' = length st →
  (∀ q n, st !! q = Some n → ∃ n', st' !! q = Some n' ∧ same_but_size n n') →
  unique_parent st → unique_parent st'.
Proof.
  intros Hlen Hsame [Hnd Hu].
  assert (Hback : ∀ q n', st' !! q = Some n' →
            ∃ n, st !! q = Some n ∧ get_children n' = get_children n).
  { intros q n' Hn'. apply lookup_lt_Some in Hn' as Hlt. rewrite Hlen in Hlt.
    destruct (lookup_lt_is_Some_2 st q Hlt) as [n Hn].
    destruct (Hsame q n Hn) as (n2 & Hn2 & _ & _ & Hcs & _).
    exists n. split; [done|]. unfold get_children.
    assert (n2 = n') as <- by congruence. by rewrite Hcs. }
  split.
  - intros p n' Hn'. destruct (Hback p n' Hn') as (n & Hn & ->). by eapply Hnd.
  - intros p p' n n' c Hn Hn' Hc Hc'.
    destruct (Hback p n Hn) as (m & Hm & Hcs).
    destruct (Hback p' n' Hn') as (m' & Hm' & Hcs').
    rewrite Hcs in Hc. rewrite Hcs' in Hc'. by eapply Hu.
Qed.

Lemma tree_shaped_sizes st st' :
  length st' = length st →
  (∀ q n, st !! q = Some n → ∃ n', st' !! q = Some n' ∧ same_but_size n n') →
  tree_shaped st → tree_shaped st'.
Proof.
  intros Hlen Hsame Hts p n' c Hn' Hc. rewrite Hlen.
  apply lookup_lt_Some in Hn' as Hlt. rewrite Hlen in Hlt.
  destruct (lookup_lt_is_Some_2 st p Hlt) as [n Hn].
  destruct (Hsame p n Hn) as (n2 & Hn2 & _ & _ & Hcs & _).
  assert (n2 = n') as -> by congruence.
  apply (Hts p n c Hn). unfold get_children in *. by rewrite <- Hcs.
Qed.

(** *** The bytes counted during the walk *)

(** What a node adds to the sum of all files. *)
Definition file_bytes (n : node) : Z :=
  match type n with
  | file => size n
  | directory => 0
  end.

(** The sum of the sizes of all the file nodes of the store. *)
Definition store_files_size (st : store) : Z := total (map file_bytes st).

Lemma total_perm l l' : Permutation l l' → total l = total l'.
Proof. induction 1; simpl; lia. Qed.

Lemma total_map_insert {A : Type} (g : A → Z) (l : list A) : ∀ p x y,
  l !! p = Some x → g y = g x → total (map g (<[p := y]> l)) = total (map g l).
Proof.
  induction l as [|a l IH]; intros [|p] x y Hx Hg; simpl in *; try done.
  - injection Hx as ->. lia.
  - by rewrite (IH p x y).
Qed.

Lemma attached_files_size st p n cs nd :
  st !! p = Some n →
  store_files_size (attached st p n cs nd) = store_files_size st + file_bytes nd.
Proof.
  intros Hn. unfold store_files_size, attached.
  rewrite (total_map_insert file_bytes (st ++ [nd]) p n).
  - rewrite map_app, total_app. simpl. lia.
  - rewrite lookup_app_l; [done|]. by eapply lookup_lt_Some.
  - done.
Qed.

Lemma total_map_filter {A : Type} (g : A → Z) (P : A → bool) (l : list A) :
  total (map g (List.filter P l))
  = total (map (λ x, if P x then g x else 0) l).
Proof.
  induction l as [|x l IH]; simpl; [done|].
  destruct (P x); simpl; lia.
Qed.

Definition is_file_b (st : store) (q : ref) : bool :=
  match st !! q with
  | Some n => bool_decide (type n = file)
  | None => false
  end.

Lemma is_file_b_spec st q : is_file_b st q = true ↔ is_file st q.
Proof.
  unfold is_file_b, is_file. destruct (st !! q) as [n|]; split.
  - intros H%bool_decide_eq_true. eauto.
  - intros (n' & [= <-] & Hty). by apply bool_decide_eq_true.
  - done.
  - by intros (n' & ? & _).
Qed.

Lemma store_files_size_seq (pre st : store) :
  total (map (λ q, if is_file_b (pre ++ st) q then size_of (pre ++ st) q else 0)
             (seq (length pre) (length st)))
  = store_files_size st.
Proof.
  revert pre. induction st as [|n st IH]; intros pre; [done|].
  cbn [length seq map total foldr]. unfold store_files_size.
  cbn [map total foldr].
  replace (pre ++ n :: st) with ((pre ++ [n]) ++ st) by (by rewrite <- app_assoc).
  specialize (IH (pre ++ [n])). rewrite length_app in IH. simpl in IH.
  replace (length pre + 1)%nat with (S (length pre)) in IH by lia.
  unfold total in IH |- *. rewrite IH. f_equal.
  unfold is_file_b, size_of, file_bytes.
  rewrite <- app_assoc. cbn [app].
  rewrite list_lookup_middle by done.
  destruct (type n); by simpl.
Qed.

(** In a well-built store the files the root contains are all the files:
    its sum is the sum over the store. *)
Lemma files_size_root st path_map :
  built st path_map → files_size st 0%nat = store_files_size st.
Proof.
  intros Hb. pose proof Hb as (Hts & _ & _ & _ & Huniq).
  destruct (subtree_files_exact st 0%nat Hts Huniq) as [Hnd Hin].
  unfold files_size.
  rewrite (total_perm _ (map (size_of st)
             (List.filter (is_file_b st) (seq 0 (length st))))).
  - rewrite total_map_filter. apply (store_files_size_seq [] st).
  - apply Permutation_map, NoDup_Permutation.
    + exact Hnd.
    + apply NoDup_ListNoDup, List.NoDup_filter, List.seq_NoDup.
    + intros f. rewrite Hin, list_elem_of_In, filter_In, in_seq.
      rewrite is_file_b_spec. split.
      * intros [_ Hf]. split; [|done]. destruct Hf as (n & Hn & _).
        apply lookup_lt_Some in Hn. lia.
      * intros [[_ Hlt] Hf]. split; [|done]. by eapply built_reach.
Qed.

Section Balance.
Context (getsize : string → option Z).

(** The bytes [state.update] has counted beyond those of the file nodes. *)
Definition balance (st : store) (state : ScanState.t) : Z :=
  ScanState.total_size state - store_files_size st.

Lemma scan_dirs_balance root p dirs : ∀ st path_map state st' path_map' state',
  parent_ok st p →
  Py.for_each (scan_dir root p) dirs (st, path_map, state)
  = Some (st', path_map', state') →
  balance st' state' = balance st state.
Proof.
  induction dirs as [|d dirs IH]; intros st pm state st' pm' state' Hp Hrun;
    cbn [Py.for_each] in Hrun.
  - by injection Hrun as <- <- <-.
  - destruct Hp as (n & Hn & Hty & [cs Hcs]).
    rewrite (scan_dir_attached root p _ _ _ d n cs Hn Hcs) in Hrun.
    apply IH in Hrun.
    + rewrite Hrun. unfold balance. rewrite (attached_files_size _ _ _ _ _ Hn).
      simpl. unfold file_bytes. simpl. lia.
    + apply attached_parent_ok; [done|done|]. exists n. eauto.
Qed.

Lemma scan_files_balance root p files : ∀ st path_map state n cs st' path_map' state',
  st !! p = Some n → children n = Some cs →
  Py.for_each (scan_file getsize root p) files (st, path_map, state)
  = Some (st', path_map', state') →
  balance st' state' = balance st state.
Proof.
  induction files as [|f files IH];
    intros st pm state n cs st' pm' state' Hn Hcs Hrun;
    cbn [Py.for_each] in Hrun.
  - by injection Hrun as <- <- <-.
  - rewrite (scan_file_attached getsize root p _ _ _ f n cs Hn Hcs) in Hrun.
    destruct (getsize (Py.path_join root f)) as [sz|].
    + eapply IH in Hrun; [|by apply attached_parent|done].
      rewrite Hrun. unfold balance. rewrite (attached_files_size _ _ _ _ _ Hn).
      simpl. unfold file_bytes. simpl. lia.
    + eapply IH in Hrun; [|done|done].
      rewrite Hrun. unfold balance. simpl. lia.
Qed.

Lemma scan_walk_balance walk : ∀ st path_map state st' path_map' state',
  built st path_map →
  Py.for_each (scan_root getsize) walk (st, path_map, state)
  = Some (st', path_map', state') →
  balance st' state' = balance st state.
Proof.
  induction walk as [|[[root dirs] files] walk IH];
    intros st pm state st' pm' state' Hb Hrun; cbn [Py.for_each] in Hrun.
  - by injection Hrun as <- <- <-.
  - destruct (pm !! root) as [p|] eqn:Hp;
      [|by rewrite scan_root_raises in Hrun].
    destruct (scan_root_built getsize st pm state root dirs files Hb
                              ltac:(by eexists))
      as (st1 & pm1 & state1 & Hstep & Hb1 & _).
    rewrite Hstep in Hrun. rewrite (IH _ _ _ _ _ _ Hb1 Hrun).
    clear Hrun IH. unfold scan_root in Hstep. cbn [fst snd] in Hstep.
    rewrite Hp in Hstep. cbn [mbind option_bind] in Hstep.
    assert (Hpok : parent_ok st p).
    { destruct Hb as (_ & _ & _ & Hpm & _). exact (Hpm root p Hp). }
    destruct (scan_dirs_built root p dirs st pm state Hb Hpok)
      as (sta & pma & statea & Hdirs & _ & (n & Hn & _ & [cs Hcs]) & _).
    rewrite Hdirs in Hstep. cbn [mbind option_bind] in Hstep.
    rewrite (scan_files_balance _ _ _ _ _ _ _ _ _ _ _ Hn Hcs Hstep).
    by eapply scan_dirs_balance.
Qed.

(** After pass 2 the file nodes add up to the bytes [state.update] was
    given: the size of each file read, and 0 for each file not read. *)
Lemma build_tree_total_size os_walk basename path state st path_map state' :
  build_tree os_walk getsize basename path state = Some (st, path_map, state') →
  store_files_size st
  = ScanState.total_size state' - ScanState.total_size state.
Proof.
  intros Hbuild. unfold build_tree, alloc in Hbuild. cbn [length app] in Hbuild.
  apply scan_walk_balance in Hbuild; [|apply root_built].
  unfold balance in Hbuild. cbn in Hbuild. lia.
Qed.

End Balance.

(** C1.  On the store pass 2 has built, the aggregate pass returns (given
    the recursion depth the tree needs, at most its number of nodes).  The
    root gets the bytes counted during the walk: the size of every file
    read, and 0 for every file whose size could not be read.  Every
    directory dict holds as its size the sum of the sizes of its children,
    which is the sum of the sizes of the files it contains, each file node
    below it taken once.  The pass leaves the tree as it was built: the
    same dicts at the same places, every file dict untouched, and of a
    directory dict nothing changed but its size; the sum of a directory
    is the sum over the files the builder put below it. *)
Theorem aggregate_pass_correct
    (os_walk : string → list (string * list string * list string))
    (getsize : string → option Z) (basename : string → string)
    (path : string) (state state' : ScanState.t)
    (st : store) (path_map : gmap string ref) (fuel : nat) :
  build_tree os_walk getsize basename path state
  = Some (st, path_map, state') →
  (length st ≤ fuel)%nat →
  ∃ st',
    calculate_dir_size fuel 0%nat st
    = Some (ScanState.total_size state' - ScanState.total_size state, st')
    ∧ length st' = length st
    ∧ (∀ q n, st !! q = Some n →
         ∃ n', st' !! q = Some n' ∧ same_but_size n n'
               ∧ (type n = file → n' = n))
    ∧ ∀ d n, st' !! d = Some n → type n = directory →
        size n = total (map (size_of st') (get_children n))
        ∧ size n = files_size st' d
        ∧ size n = files_size st d
        ∧ NoDup (subtree_files (length st') st' d)
        ∧ ∀ f, f ∈ subtree_files (length st') st' d
               ↔ reach st' d f ∧ is_file st' f.
Proof.
  intros Hbuild Hfuel.
  pose proof (build_tree_built _ _ _ _ _ _ _ _ Hbuild) as Hb.
  pose proof Hb as (Hts & Hpos & _ & _ & Huniq).
  destruct (aggregate_pass_sums st 0%nat fuel Hts Hpos ltac:(lia))
    as (st' & Hcall & Hlen & Hsame & Hsum).
  exists st'. split.
  { rewrite Hcall, (files_size_root st path_map Hb).
    by rewrite (build_tree_total_size _ _ _ _ _ _ _ _ Hbuild). }
  split; [exact Hlen|]. split; [exact Hsame|].
  assert (Hsame' : ∀ q n, st !! q = Some n →
            ∃ n', st' !! q = Some n' ∧ same_but_size n n').
  { intros q n Hn. destruct (Hsame q n Hn) as (n' & Hn' & Hs & _). eauto. }
  assert (Htree : same_tree st st').
  { split; [exact Hlen|]. intros q n Hn.
    destruct (Hsame q n Hn) as (n' & Hn' & (_ & Hty & Hcs & _) & Hfile).
    exists n'. split; [done|]. split; [done|].
    split; [unfold get_children; by rewrite Hcs|].
    intros Hf. by rewrite (Hfile Hf). }
  pose proof (tree_shaped_sizes st st' Hlen Hsame' Hts) as Hts'.
  pose proof (unique_parent_sizes st st' Hlen Hsame' Huniq) as Huniq'.
  intros d n Hd Hty.
  destruct (Hsum d n) as [Hchildren Hfiles]; [|done|done|].
  { eapply built_reach; [exact Hb|]. apply lookup_lt_Some in Hd. lia. }
  split; [done|]. split; [done|].
  split; [by rewrite <- (files_size_same_tree st st' d Htree)|].
  by apply subtree_files_exact.
Qed.

(** The store of the demo tree after pass 2: no size in the directories
    yet, the children in the order of the walk. *)
Definition demo_built : store :=
  [ mk_node "demo" directory 0 (Some [1; 2]%nat) None None None;
    mk_node "A" directory 0 (Some [3%nat]) (Some 0%nat) None (Some false);
    mk_node "small.txt" file 10 None (Some 0%nat) (Some false) None;
    mk_node "big.txt" file 2000 None (Some 1%nat) (Some false) None ].

Definition demo_built_state : ScanState.t :=
  ScanState.mk 0 3 1 2 2010 "./A/big.txt" false None.

Lemma aggregate_pass_correct_witness :
  ∃ st',
    calculate_dir_size 4 0%nat demo_built
    = Some (ScanState.total_size demo_built_state
            - ScanState.total_size ScanState.init, st')
    ∧ length st' = length demo_built
    ∧ (∀ q n, demo_built !! q = Some n →
         ∃ n', st' !! q = Some n' ∧ same_but_size n n'
               ∧ (type n = file → n' = n))
    ∧ ∀ d n, st' !! d = Some n → type n = directory →
        size n = total (map (size_of st') (get_children n))
        ∧ size n = files_size st' d
        ∧ size n = files_size demo_built d
        ∧ NoDup (subtree_files (length st') st' d)
        ∧ ∀ f, f ∈ subtree_files (length st') st' d
               ↔ reach st' d f ∧ is_file st' f.
Proof.
  eapply (aggregate_pass_correct demo_walk demo_getsize demo_basename "."
                                 ScanState.init demo_built_state).
  - vm_compute. reflexivity.
  - simpl. lia.
Defined.

(** The scenario of the specification: [A] ends with 2000, the root with
    2010. *)
Lemma demo_aggregate :
  ∃ st', calculate_dir_size 4 0%nat demo_built = Some (2010, st')
         ∧ map size st' = [2010; 2000; 10; 2000].
Proof. eexists. split; by vm_compute. Qed.

(** *** Files whose size cannot be read *)

Section CountFiles.
Context (getsize : string → option Z).

Lemma count_files_counts root files : ∀ state,
  let state' := count_files getsize root files state in
  ScanState.file_count state'
  = ScanState.file_count state + Z.of_nat (length files)
  ∧ ScanState.scanned_items state'
    = ScanState.scanned_items state + Z.of_nat (length files)
  ∧ ScanState.dir_count state' = ScanState.dir_count state
  ∧ ScanState.total_size state'
    = ScanState.total_size state
      + total (map (λ f, default 0 (getsize (Py.path_join root f))) files).
Proof.
  induction files as [|f files IH]; intros state; cbn zeta.
  - simpl. lia.
  - change (count_files getsize root (f :: files) state)
      with (count_files getsize root files
              (ScanState.update (Py.path_join root f) true
                 (default 0 (getsize (Py.path_join root f))) state)).
    destruct (IH (ScanState.update (Py.path_join root f) true
                    (default 0 (getsize (Py.path_join root f))) state))
      as (Hf & Hs & Hd & Ht).
    rewrite Hf, Hs, Hd, Ht. cbn [length map total foldr].
    unfold ScanState.update. simpl. unfold total. lia.
Qed.
End CountFiles.

(** C7 (as the code has it).  The loop over the files of a directory never
    raises, whatever the answers of [getsize].  For each file whose size was
    read it makes exactly one file dict, with that size, and appends it to
    the children of the parent, in the order of [files]; for a file whose
    size was not read it makes no dict at all.  Every file, read or not, is
    counted once by [state.update], with size 0 when it was not read. *)
Theorem scan_files_one_node_per_readable_file
    (getsize : string → option Z) (root : string) (parent_node : ref)
    (files : list string) (st : store) (path_map : gmap string ref)
    (state : ScanState.t) (n : node) (cs : list ref) :
  st !! parent_node = Some n → children n = Some cs →
  let made := stat_ok getsize root files in
  let state' := count_files getsize root files state in
  ∃ st',
    Py.for_each (scan_file getsize root parent_node) files
                (st, path_map, state)
    = Some (st', path_map, state')
    ∧ length st' = (length st + length made)%nat
    ∧ (get_children <$> st' !! parent_node)
      = Some (cs ++ seq (length st) (length made))
    ∧ (∀ i f sz, made !! i = Some (f, sz) →
         st' !! (length st + i)%nat
         = Some (file_dict f sz parent_node
                           (Py.endswith (Py.lower f) ".exe")))
    ∧ (∀ q, q ≠ parent_node → (q < length st)%nat → st' !! q = st !! q)
    ∧ ScanState.file_count state'
      = ScanState.file_count state + Z.of_nat (length files)
    ∧ ScanState.scanned_items state'
      = ScanState.scanned_items state + Z.of_nat (length files)
    ∧ ScanState.total_size state'
      = ScanState.total_size state
        + total (map (λ f, default 0 (getsize (Py.path_join root f))) files).
Proof.
  intros Hn Hcs made state'.
  destruct (scan_files_attached getsize root parent_node files st path_map
                                state n cs Hn Hcs)
    as (st' & Hloop & Hlen & Hp & Hnew & Hold & _).
  destruct (count_files_counts getsize root files state) as (Hf & Hs & _ & Ht).
  exists st'. split; [exact Hloop|]. split; [exact Hlen|].
  split; [by rewrite Hp|]. split; [exact Hnew|]. split; [exact Hold|].
  by repeat split.
Qed.

(** A directory with a readable and an unreadable file. *)
Definition half_readable (file_path : string) : option Z :=
  if String.eqb file_path "./kept" then Some 7 else None.

Lemma scan_files_one_node_per_readable_file_witness :
  ∃ st',
    Py.for_each (scan_file half_readable "." 0%nat) ["gone"; "kept"]%string
                (empty_store, ∅, ScanState.init)
    = Some (st', ∅,
            count_files half_readable "." ["gone"; "kept"]%string
                        ScanState.init)
    ∧ length st' = 2%nat
    ∧ (get_children <$> st' !! 0%nat) = Some [1%nat].
Proof.
  destruct (scan_files_one_node_per_readable_file
              half_readable "." 0%nat ["gone"; "kept"]%string empty_store ∅
              ScanState.init
              (mk_node "demo" directory 0 (Some []) None None None) [])
    as (st' & Hloop & Hlen & Hp & _); [reflexivity|reflexivity|].
  exists st'. split; [exact Hloop|]. split; [exact Hlen|exact Hp].
Defined.

(** C7 as stated fails: a directory whose only file cannot be read.  The
    walk goes on and the file is counted, but the tree has the root alone:
    the entry is left out. *)
Lemma unreadable_file_has_no_node :
  ∃ path_map state,
    build_tree (λ _, [(".", [], ["gone"])]%string) (λ _, None)
               demo_basename "." ScanState.init
    = Some (empty_store, path_map, state)
    ∧ length empty_store = 1%nat
    ∧ (get_children <$> empty_store !! 0%nat) = Some []
    ∧ ScanState.file_count state = 1
    ∧ ScanState.total_size state = 0.
Proof. eexists _, _. split; [by vm_compute|]. by vm_compute. Qed.

(** *** The sort pass *)

(** [st] is [st0] with the children of some directories sorted by size,
    descending. *)
Definition sorted_version (st0 st : store) : Prop :=
  length st = length st0
  ∧ ∀ q n, st0 !! q = Some n →
      ∃ n', st !! q = Some n'
            ∧ (n' = n
               ∨ ∃ cs, type n = directory ∧ children n = Some cs
                       ∧ n' = set_children (Py.sort (size_of st0) true cs) n).

(** The children of [q] are the sorted list. *)
Definition sorted_at (st0 st : store) (q : ref) : Prop :=
  ∀ n cs, st0 !! q = Some n → type n = directory → children n = Some cs →
    ∃ n', st !! q = Some n'
          ∧ children n' = Some (Py.sort (size_of st0) true cs).

Lemma sorted_version_refl st : sorted_version st st.
Proof. split; [done|]. intros q n Hn. exists n. auto. Qed.

Lemma sorted_version_size_of st0 st q :
  sorted_version st0 st → size_of st q = size_of st0 q.
Proof.
  intros [Hlen Hs]. unfold size_of.
  destruct (st0 !! q) as [n|] eqn:Hn.
  - destruct (Hs q n Hn) as (n' & -> & [->|(cs & _ & _ & ->)]); done.
  - apply lookup_ge_None in Hn. rewrite <- Hlen in Hn.
    apply lookup_ge_None in Hn. by rewrite Hn.
Qed.

Lemma sort_children_recursively_sorts st0 (Hts : tree_shaped st0) :
  ∀ fuel r st,
    sorted_version st0 st → (r < length st0)%nat →
    (length st0 - r ≤ fuel)%nat →
    ∃ st',
      sort_children_recursively fuel st r = Some st'
      ∧ sorted_version st0 st'
      ∧ (∀ q, sorted_at st0 st q → sorted_at st0 st' q)
      ∧ ∀ q, reach st0 r q → sorted_at st0 st' q.
Proof.
  induction fuel as [|fuel IH]; intros r st Hsv Hr Hfuel; [lia|].
  destruct (lookup_lt_is_Some_2 st0 r Hr) as [n0 Hn0].
  pose proof Hsv as [Hlen Hs].
  destruct (Hs r n0 Hn0) as (n & Hn & Hcase).
  assert (Hty : type n = type n0)
    by (by destruct Hcase as [->|(? & _ & _ & ->)]).
  cbn [sort_children_recursively]. rewrite Hn. cbn [mbind option_bind].
  rewrite Hty.
  assert (Hleaf : type n0 = file ∨ children n0 = None →
            ∀ q, reach st0 r q → sorted_at st0 st q).
  { intros Hl q Hreach. inversion Hreach as [|p c q' Hchild _]; subst.
    - intros n1 cs1 Hn1 Hty1 Hcs1. destruct Hl; congruence.
    - destruct Hchild as (n1 & Hn1 & Hty1 & Hc).
      assert (n1 = n0) as -> by congruence.
      destruct Hl as [?|Hnone]; [congruence|].
      unfold get_children in Hc. rewrite Hnone in Hc.
      by apply elem_of_nil in Hc. }
  destruct (type n0) eqn:Hty0; [|exists st; auto 6].
  destruct (children n0) as [cs0|] eqn:Hcs0.
  2: { assert (n = n0) as -> by
         (destruct Hcase as [->|(? & _ & ? & _)]; [done|congruence]).
       rewrite Hcs0. exists st. auto 6. }
  clear Hleaf.
  set (sorted0 := Py.sort (size_of st0) true cs0).
  assert (∃ cs, children n = Some cs
                ∧ Py.sort (size_of st) true cs = sorted0) as (cs & Hcs & Hsort).
  { destruct Hcase as [->|(cs1 & _ & Hcs1 & ->)].
    - exists cs0. split; [done|]. apply sort_ext.
      intros x _. by apply sorted_version_size_of.
    - assert (cs1 = cs0) as -> by congruence.
      exists sorted0. split; [done|].
      rewrite (sort_ext (size_of st) (size_of st0))
        by (intros x _; by apply sorted_version_size_of).
      apply sort_idempotent. }
  rewrite Hcs, Hsort.
  set (st1 := <[r := set_children sorted0 n]> st).
  assert (Hn1 : st1 !! r = Some (set_children sorted0 n)).
  { apply list_lookup_insert_eq. by rewrite Hlen. }
  assert (Hsv1 : sorted_version st0 st1).
  { split; [unfold st1; by rewrite length_insert|].
    intros q nq Hnq. destruct (decide (q = r)) as [->|Hne].
    - rewrite Hn1. eexists. split; [done|]. right. exists cs0.
      assert (nq = n0) as -> by congruence.
      split; [done|]. split; [done|].
      by destruct Hcase as [->|(? & _ & _ & ->)].
    - unfold st1. rewrite list_lookup_insert_ne by done. by apply Hs. }
  assert (Hkeep1 : ∀ q, sorted_at st0 st q → sorted_at st0 st1 q).
  { intros q Hq nq csq Hnq Htq Hcsq. destruct (decide (q = r)) as [->|Hne].
    - rewrite Hn1. eexists. split; [done|]. simpl.
      assert (csq = cs0) as -> by congruence. done.
    - unfold st1. rewrite list_lookup_insert_ne by done. by eapply Hq. }
  assert (Hloop : ∀ items sta,
    sorted_version st0 sta → (∀ c, c ∈ items → c ∈ cs0) →
    ∃ stb,
      Py.for_each (sort_children_recursively fuel) items sta = Some stb
      ∧ sorted_version st0 stb
      ∧ (∀ q, sorted_at st0 sta q → sorted_at st0 stb q)
      ∧ ∀ c q, c ∈ items → reach st0 c q → sorted_at st0 stb q).
  { induction items as [|c items IHi]; intros sta Hsva Hsub.
    - exists sta. split; [done|]. split; [done|]. split; [done|].
      intros c q Hc. by apply elem_of_nil in Hc.
    - assert (c ∈ get_children n0) as Hc0.
      { unfold get_children. rewrite Hcs0. apply Hsub. left. }
      destruct (Hts r n0 c Hn0 Hc0) as [Hrc Hc].
      destruct (IH c sta Hsva Hc ltac:(lia))
        as (stb & Hcall & Hsvb & Hkeepb & Hpostb).
      destruct (IHi stb Hsvb) as (stc & Hrest & Hsvc & Hkeepc & Hpostc).
      { intros c' Hc'. apply Hsub. by right. }
      exists stc. cbn [Py.for_each]. rewrite Hcall.
      split; [done|]. split; [done|]. split; [auto|].
      intros c' q [->|Hc']%elem_of_cons Hreach; [|by eapply Hpostc].
      by apply Hkeepc, Hpostb. }
  destruct (Hloop sorted0 st1 Hsv1) as (st2 & Hrun & Hsv2 & Hkeep2 & Hpost2).
  { intros c Hc. unfold sorted0 in Hc.
    by rewrite (sort_perm (size_of st0) true cs0) in Hc. }
  exists st2. split; [done|]. split; [done|]. split; [auto|].
  intros q Hreach. inversion Hreach as [|p c q' Hchild Hreach']; subst.
  - apply Hkeep2. intros nq csq Hnq _ Hcsq. rewrite Hn1.
    eexists. split; [done|]. simpl. unfold sorted0. congruence.
  - destruct Hchild as (n1 & Hn1' & _ & Hc).
    assert (n1 = n0) as -> by congruence.
    unfold get_children in Hc. rewrite Hcs0 in Hc. simpl in Hc.
    apply (Hpost2 c); [|done].
    unfold sorted0. by rewrite (sort_perm (size_of st0) true cs0).
Qed.

Lemma Sorted_impl {A : Type} (R R' : A → A → Prop) (l : list A) :
  (∀ x y, R x y → R' x y) → Sorted R l → Sorted R' l.
Proof.
  intros HR. induction 1 as [|x l Hs IH Hhd]; constructor; [done|].
  destruct Hhd; constructor. by apply HR.
Qed.

(** [children[i].size >= children[i+1].size] for all valid [i]. *)
Lemma descending_adjacent st cs :
  descending st cs ↔
  ∀ i a b, cs !! i = Some a → cs !! S i = Some b → size_of st b <= size_of st a.
Proof.
  unfold descending. split.
  - induction 1 as [|x l Hs IH Hhd]; intros i a b Ha Hb; [done|].
    destruct i as [|i]; simpl in *.
    + injection Ha as <-. destruct l as [|y l]; [done|].
      simpl in Hb. injection Hb as <-. by apply HdRel_inv in Hhd.
    + by apply (IH i).
  - induction cs as [|x l IH]; intros Hadj; constructor.
    + apply IH. intros i a b Ha Hb. by apply (Hadj (S i)).
    + destruct l as [|y l]; constructor. by apply (Hadj 0%nat).
Qed.

Lemma with_key_ext {A : Type} (key key' : A → Z) (k : Z) (l : list A) :
  (∀ x, key x = key' x) → with_key key k l = with_key key' k l.
Proof.
  intros Hk. unfold with_key. apply filter_ext. intros x. by rewrite Hk.
Qed.

(** The shape pass 2 gives the store, without [path_map]. *)
Definition scanned_shape (st : store) : Prop :=
  tree_shaped st
  ∧ (0 < length st)%nat
  ∧ ∀ c, (0 < c < length st)%nat → ∃ p, child_of st p c.

Lemma built_scanned_shape st path_map : built st path_map → scanned_shape st.
Proof. intros (Hts & Hpos & Hpar & _). exact (conj Hts (conj Hpos Hpar)). Qed.

Lemma scanned_shape_reach st q :
  scanned_shape st → (q < length st)%nat → reach st 0%nat q.
Proof.
  intros (Hts & _ & Hpar).
  induction q as [q IH] using lt_wf_ind. intros Hq.
  destruct q as [|q]; [apply reach_here|].
  destruct (Hpar (S q) ltac:(lia)) as (p & n & Hn & Hty & Hc).
  destruct (Hts p n (S q) Hn Hc) as [Hlt _].
  apply (reach_trans st 0%nat p (S q)); [apply IH; lia|].
  eapply reach_child; [|apply reach_here]. by exists n.
Qed.

(** The aggregate pass changes sizes only, so it keeps the shape. *)
Lemma scanned_shape_sizes st st' :
  length st' = length st →
  (∀ q n, st !! q = Some n → ∃ n', st' !! q = Some n' ∧ same_but_size n n') →
  scanned_shape st → scanned_shape st'.
Proof.
  intros Hlen Hsame (Hts & Hpos & Hpar).
  assert (Hback : ∀ q n', st' !! q = Some n' →
            ∃ n, st !! q = Some n ∧ same_but_size n n').
  { intros q n' Hn'. apply lookup_lt_Some in Hn' as Hlt. rewrite Hlen in Hlt.
    destruct (lookup_lt_is_Some_2 st q Hlt) as [n Hn].
    destruct (Hsame q n Hn) as (n2 & Hn2 & Hs). exists n. split; [done|].
    congruence. }
  split; [|split].
  - intros p n' c Hn' Hc. rewrite Hlen.
    destruct (Hback p n' Hn') as (n & Hn & _ & _ & Hcs & _).
    apply (Hts p n c Hn). unfold get_children in *. by rewrite <- Hcs.
  - lia.
  - intros c Hc. rewrite Hlen in Hc.
    destruct (Hpar c Hc) as (p & n & Hn & Hty & Hcn).
    destruct (Hsame p n Hn) as (n' & Hn' & _ & Hty' & Hcs & _).
    exists p, n'. split; [done|]. split; [congruence|].
    unfold get_children in *. by rewrite Hcs.
Qed.

(** The sort pass on a store of that shape: the call returns; every node
    keeps all but the order of its children, and below the root the
    children of every directory end sorted by size, descending, the
    children of equal size in the order they had. *)
Lemma sort_pass_sorted st1 fuel :
  scanned_shape st1 → (length st1 ≤ fuel)%nat →
  ∃ st2,
    sort_children_recursively fuel st1 0%nat = Some st2
    ∧ length st2 = length st1
    ∧ ∀ d n1, st1 !! d = Some n1 →
        ∃ n2, st2 !! d = Some n2
              ∧ same_but_order n1 n2
              ∧ (type n1 = directory →
                 descending st2 (get_children n2)
                 ∧ ∀ k, with_key (size_of st2) k (get_children n2)
                        = with_key (size_of st1) k (get_children n1)).
Proof.
  intros Hshape Hfuel. pose proof Hshape as (Hts & Hpos & _).
  destruct (sort_children_recursively_sorts st1 Hts fuel 0%nat st1
              (sorted_version_refl st1) Hpos ltac:(lia))
    as (st2 & Hcall & Hsv & _ & Hpost).
  exists st2. split; [done|]. pose proof Hsv as [Hlen Hs]. split; [done|].
  intros d n1 Hn1. destruct (Hs d n1 Hn1) as (n2 & Hn2 & Hcase).
  exists n2. split; [done|].
  assert (Hkey : ∀ x, size_of st2 x = size_of st1 x)
    by (intros x; by apply sorted_version_size_of).
  split.
  { destruct Hcase as [->|(cs & Hty & Hcs & ->)]; [apply same_but_order_refl|].
    repeat split; simpl; try done; try congruence.
    unfold get_children. rewrite Hcs. simpl. symmetry. apply sort_perm. }
  intros Hty.
  assert (Hreach : reach st1 0%nat d).
  { apply scanned_shape_reach; [done|]. by eapply lookup_lt_Some. }
  destruct (children n1) as [cs|] eqn:Hcs.
  - destruct (Hpost d Hreach n1 cs Hn1 Hty Hcs) as (n2' & Hn2' & Hcs2).
    assert (n2' = n2) as -> by congruence.
    unfold get_children. rewrite Hcs, Hcs2. simpl. split.
    + unfold descending.
      apply (Sorted_impl (in_order (size_of st1) true)); [|apply sort_sorted].
      unfold in_order. intros x y. by rewrite !Hkey.
    + intros k. rewrite (with_key_ext (size_of st2) (size_of st1)) by done.
      apply sort_stable.
  - assert (n2 = n1) as ->.
    { destruct Hcase as [->|(cs & _ & Hcs' & _)]; [done|congruence]. }
    unfold get_children. rewrite Hcs. simpl. split; [constructor|done].
Qed.

(** C2.  After the aggregate pass, the sort pass returns (given the
    recursion depth the tree needs), and then in every directory of the tree,
    at every depth, the children are in descending order of size
    ([children[i].size >= children[i+1].size]); they are the same children
    as before, and those of equal size stand in the order they were found
    in.  No size, name or type is changed by the pass. *)
Theorem sort_pass_sorts_every_directory
    (os_walk : string → list (string * list string * list string))
    (getsize : string → option Z) (basename : string → string)
    (path : string) (state state' : ScanState.t)
    (st st1 : store) (path_map : gmap string ref) (fuel : nat) (v : Z) :
  build_tree os_walk getsize basename path state
  = Some (st, path_map, state') →
  (length st ≤ fuel)%nat →
  calculate_dir_size fuel 0%nat st = Some (v, st1) →
  ∃ st2,
    sort_children_recursively fuel st1 0%nat = Some st2
    ∧ ∀ d n1, st1 !! d = Some n1 →
        ∃ n2, st2 !! d = Some n2
              ∧ same_but_order n1 n2
              ∧ (type n1 = directory →
                 (∀ i a b, get_children n2 !! i = Some a →
                           get_children n2 !! S i = Some b →
                           size_of st2 b <= size_of st2 a)
                 ∧ ∀ k, with_key (size_of st2) k (get_children n2)
                        = with_key (size_of st1) k (get_children n1)).
Proof.
  intros Hbuild Hfuel Hcalc.
  pose proof (build_tree_built _ _ _ _ _ _ _ _ Hbuild) as Hb.
  pose proof (built_scanned_shape _ _ Hb) as Hshape.
  pose proof Hshape as (Hts & Hpos & _).
  destruct (aggregate_pass_sums st 0%nat fuel Hts Hpos ltac:(lia))
    as (st1' & Hcall & Hlen & Hsame & _).
  assert (st1' = st1) as -> by congruence.
  assert (Hshape1 : scanned_shape st1).
  { apply (scanned_shape_sizes st st1 Hlen); [|done].
    intros q n Hn. destruct (Hsame q n Hn) as (n' & Hn' & Hs & _). eauto. }
  destruct (sort_pass_sorted st1 fuel Hshape1 ltac:(lia))
    as (st2 & Hsort & _ & Hpost).
  exists st2. split; [done|].
  intros d n1 Hn1. destruct (Hpost d n1 Hn1) as (n2 & Hn2 & Hord & Hdir).
  exists n2. split; [done|]. split; [done|].
  intros Hty. destruct (Hdir Hty) as [Hdesc Hstable].
  split; [by apply descending_adjacent|done].
Qed.

(** A directory with three files, two of the same size, found in the order
    [a], [b], [c]. *)
Definition tie_walk (path : string)
    : list (string * list string * list string) :=
  [(".", [], ["a"; "b"; "c"])]%string.

Definition tie_getsize (file_path : string) : option Z :=
  if String.eqb file_path "./b" then Some 7 else Some 5.

Definition tie_aggregated : store :=
  [ mk_node "demo" directory 17 (Some [1; 2; 3]%nat) None None None;
    mk_node "a" file 5 None (Some 0%nat) (Some false) None;
    mk_node "b" file 7 None (Some 0%nat) (Some false) None;
    mk_node "c" file 5 None (Some 0%nat) (Some false) None ].

Lemma sort_pass_sorts_every_directory_witness :
  ∃ st2,
    sort_children_recursively 4 tie_aggregated 0%nat = Some st2
    ∧ ∀ d n1, tie_aggregated !! d = Some n1 →
        ∃ n2, st2 !! d = Some n2
              ∧ same_but_order n1 n2
              ∧ (type n1 = directory →
                 (∀ i a b, get_children n2 !! i = Some a →
                           get_children n2 !! S i = Some b →
                           size_of st2 b <= size_of st2 a)
                 ∧ ∀ k, with_key (size_of st2) k (get_children n2)
                        = with_key (size_of tie_aggregated) k
                                   (get_children n1)).
Proof.
  eapply (sort_pass_sorts_every_directory tie_walk tie_getsize demo_basename
                                          "." ScanState.init).
  - vm_compute. reflexivity.
  - simpl. lia.
  - vm_compute. reflexivity.
Defined.

(** [b] comes first; [a] stays in front of [c]. *)
Lemma tie_sorted :
  ∃ st2,
    sort_children_recursively 4 tie_aggregated 0%nat = Some st2
    ∧ (get_children <$> st2 !! 0%nat) = Some [2; 1; 3]%nat.
Proof. eexists. split; by vm_compute. Qed.

(** *** The whole worker *)

(** With the recursion depth the tree needs, [scanner_worker] returns
    whenever pass 2 does, and hands over the root with [done] set. *)
Lemma scanner_worker_returns
    (os_walk : string → list (string * list string * list string))
    (getsize : string → option Z) (basename : string → string)
    (path : string) (state state' : ScanState.t)
    (st : store) (path_map : gmap string ref) (fuel : nat) :
  build_tree os_walk getsize basename path
             (ScanState.set_total_items (count_items os_walk path) state)
  = Some (st, path_map, state') →
  (length st ≤ fuel)%nat →
  ∃ st2,
    scanner_worker os_walk getsize basename fuel path state
    = Some (st2, ScanState.set_done (Some 0%nat) state')
    ∧ length st2 = length st.
Proof.
  intros Hbuild Hfuel.
  pose proof (build_tree_built _ _ _ _ _ _ _ _ Hbuild) as Hb.
  pose proof (built_scanned_shape _ _ Hb) as Hshape.
  pose proof Hshape as (Hts & Hpos & _).
  destruct (aggregate_pass_sums st 0%nat fuel Hts Hpos ltac:(lia))
    as (st1 & Hcalc & Hlen & Hsame & _).
  assert (Hshape1 : scanned_shape st1).
  { apply (scanned_shape_sizes st st1 Hlen); [|done].
    intros q n Hn. destruct (Hsame q n Hn) as (n' & Hn' & Hs & _). eauto. }
  destruct (sort_pass_sorted st1 fuel Hshape1 ltac:(lia))
    as (st2 & Hsort & Hlen2 & _).
  exists st2. split; [|congruence].
  unfold scanner_worker. rewrite Hbuild. cbn [mbind option_bind].
  rewrite Hcalc. cbn [mbind option_bind]. by rewrite Hsort.
Qed.


(* ================================================================= *)
(** * Part III: further properties of the program *)
(* ================================================================= *)

(** ** The lock: methods are atomic, and the lock is always given back *)

Section MonitorAtomicity.
Import Monitor.

(** The lock is held by the thread that is inside a method, and by no
    other. *)
Definition lock_owner (y : sys) : Prop :=
  match lock y with
  | None => spc y = S_out ∧ dpc y = D_out
  | Some Scanner => spc y ≠ S_out ∧ dpc y = D_out
  | Some Dialog => spc y = S_out ∧ dpc y ≠ D_out
  end.

Lemma lock_owner_step a y y' snap :
  lock_owner y → step a y = Some (y', snap) → lock_owner y'.
Proof.
  unfold lock_owner. intros Hown Hstep.
  destruct y as [s l pc d]; simpl in *.
  destruct a; simpl in Hstep.
  - destruct l; [done|]. destruct pc; try done.
    injection Hstep as <- <-. simpl. destruct Hown as [_ ->].
    split; [by destruct c|done].
  - destruct l as [[]|]; destruct Hown as [Hpc Hd];
      destruct pc as [|p f z|p f z|[] z|z|z|tr|tr|]; simpl in Hstep;
      try done; injection Hstep as <- <-; simpl; done.
  - destruct l; [done|]. destruct d; try done.
    injection Hstep as <- <-. simpl. by destruct Hown as [-> _].
  - destruct l as [[]|]; destruct Hown as [Hpc Hd];
      destruct d; simpl in Hstep; try done;
      injection Hstep as <- <-; simpl; done.
Qed.

Lemma lock_owner_init : lock_owner init.
Proof. by split. Qed.

Lemma lock_owner_run schedule : ∀ y y' snaps,
  lock_owner y → run schedule y = Some (y', snaps) → lock_owner y'.
Proof.
  induction schedule as [|a schedule IH]; intros y y' snaps Hown Hrun;
    simpl in Hrun.
  - by injection Hrun as <- <-.
  - destruct (step a y) as [[y1 snap]|] eqn:Hstep; simpl in Hrun; [|done].
    destruct (run schedule y1) as [[y2 snaps']|] eqn:Hrest; simpl in Hrun;
      [|done].
    injection Hrun as <- <-.
    eapply IH; [|exact Hrest]. by eapply lock_owner_step.
Qed.

(** The calls the scanner makes along a schedule, in order. *)
Definition scanner_calls (schedule : list action) : list call :=
  omap (λ a, match a with ScannerCalls c => Some c | _ => None end) schedule.

(** The atomic methods of [ScanState], one after the other. *)
Definition replay (calls : list call) (s : ScanState.t) : ScanState.t :=
  foldl (λ s c, call_effect c s) s calls.

(** The state the method in progress leaves when it is run to its end. *)
Fixpoint finish (k : nat) (pc : scanner_pc) (s : ScanState.t)
    : ScanState.t :=
  match k with
  | O => s
  | S k' =>
      match scanner_statement pc s with
      | Some (s', pc') => finish k' pc' s'
      | None => s
      end
  end.

Lemma finish_enter c s : finish 5 (enter c) s = call_effect c s.
Proof. destruct s, c as [path [] sz|total|tr]; reflexivity. Qed.

Lemma finish_statement pc s s' pc' :
  scanner_statement pc s = Some (s', pc') → finish 5 pc' s' = finish 5 pc s.
Proof.
  destruct s, pc as [|p [] z|p [] z|[] z|z|z|tr|tr|]; simpl;
    intros [= <- <-]; reflexivity.
Qed.

Lemma finish_step a y y' snap :
  lock_owner y → step a y = Some (y', snap) →
  finish 5 (spc y') (shared y')
  = match a with
    | ScannerCalls c => call_effect c (finish 5 (spc y) (shared y))
    | _ => finish 5 (spc y) (shared y)
    end
  ∧ ∀ sn, snap = Some sn →
      sn = ScanState.get_state (finish 5 (spc y) (shared y)).
Proof.
  unfold lock_owner. intros Hown Hstep.
  destruct y as [s l pc d]; simpl in *.
  destruct a; simpl in Hstep.
  - destruct l; [done|]. destruct pc; try done.
    injection Hstep as <- <-. simpl spc. simpl shared.
    split; [apply finish_enter|done].
  - destruct pc as [|p f z|p f z|[] z|z|z|tr|tr|]; simpl in Hstep; try done;
      injection Hstep as <- <-; simpl spc; simpl shared; (split; [|done]);
      try (by apply finish_statement); reflexivity.
  - destruct l; [done|]. destruct d; try done.
    injection Hstep as <- <-. done.
  - destruct d; simpl in Hstep; try done; injection Hstep as <- <-;
      simpl spc; simpl shared; (split; [done|]); [|done].
    intros sn [= <-]. destruct l as [[]|]; destruct Hown as [Hpc Hd]; try done.
    by rewrite Hpc.
Qed.

Lemma replay_from schedule : ∀ y y' snaps,
  lock_owner y → run schedule y = Some (y', snaps) →
  finish 5 (spc y') (shared y')
  = replay (scanner_calls schedule) (finish 5 (spc y) (shared y))
  ∧ Forall (λ sn, ∃ k, sn = ScanState.get_state
                            (replay (take k (scanner_calls schedule))
                                    (finish 5 (spc y) (shared y))))
           snaps.
Proof.
  induction schedule as [|a schedule IH]; intros y y' snaps Hown Hrun;
    simpl in Hrun.
  - injection Hrun as <- <-. by split.
  - destruct (step a y) as [[y1 snap]|] eqn:Hstep; simpl in Hrun; [|done].
    destruct (run schedule y1) as [[y2 snaps']|] eqn:Hrest; simpl in Hrun;
      [|done].
    injection Hrun as <- <-.
    pose proof (lock_owner_step _ _ _ _ Hown Hstep) as Hown1.
    destruct (finish_step _ _ _ _ Hown Hstep) as [Hfin Hsnap].
    destruct (IH _ _ _ Hown1 Hrest) as [Hlast Hall].
    rewrite Hfin in Hlast, Hall.
    assert (Hshift : ∀ calls,
      replay calls (match a with
                    | ScannerCalls c => call_effect c (finish 5 (spc y) (shared y))
                    | _ => finish 5 (spc y) (shared y)
                    end)
      = replay (match a with ScannerCalls c => c :: calls | _ => calls end)
               (finish 5 (spc y) (shared y))).
    { intros calls. by destruct a. }
    assert (Hcalls : scanner_calls (a :: schedule)
                     = match a with
                       | ScannerCalls c => c :: scanner_calls schedule
                       | _ => scanner_calls schedule
                       end).
    { by destruct a. }
    rewrite Hcalls. split.
    + by rewrite Hlast, Hshift.
    + apply Forall_app. split.
      * destruct snap as [sn|]; [|constructor].
        repeat constructor. exists 0%nat. rewrite take_0. by apply Hsnap.
      * eapply Forall_impl; [exact Hall|]. intros sn [k ->]. cbn beta.
        rewrite Hshift. destruct a; try (by exists k).
        exists (S k). done.
Qed.

End MonitorAtomicity.

(** X1.  Whatever the schedule of the two threads, the methods of
    [ScanState] behave as if each ran in one piece: when the scanner is
    outside every method the shared state is the result of its calls so far,
    applied one after the other as whole methods, and every tuple
    [get_state] returns is the state after some first part of those
    calls. *)
Theorem scan_state_methods_atomic
    (schedule : list Monitor.action) (y : Monitor.sys)
    (snaps : list ScanState.snapshot) :
  Monitor.run schedule Monitor.init = Some (y, snaps) →
  (Monitor.spc y = Monitor.S_out →
   Monitor.shared y = replay (scanner_calls schedule) ScanState.init)
  ∧ Forall (λ sn, ∃ k, sn = ScanState.get_state
                            (replay (take k (scanner_calls schedule))
                                    ScanState.init))
           snaps.
Proof.
  intros Hrun.
  destruct (replay_from schedule _ _ _ lock_owner_init Hrun)
    as [Hlast Hall].
  split; [|exact Hall].
  intros Hout. rewrite Hout in Hlast. exact Hlast.
Qed.

Lemma scan_state_methods_atomic_witness :
  Forall (λ sn, ∃ k, sn = ScanState.get_state
                            (replay (take k (scanner_calls demo_schedule))
                                    ScanState.init))
         [(0, 1, 0, 1, 5, "a"%string, false)].
Proof.
  refine (proj2 (scan_state_methods_atomic demo_schedule
                   (Monitor.mk_sys (ScanState.mk 0 1 0 1 5 "a" false None)
                                   None Monitor.S_out Monitor.D_out)
                   [(0, 1, 0, 1, 5, "a"%string, false)] _)).
  vm_compute. reflexivity.
Defined.

Section MonitorRelease.
Import Monitor.

Lemma scanner_leaves s pc d :
  pc ≠ S_out →
  ∃ k y',
    (k ≤ 5)%nat
    ∧ run (repeat ScannerRuns k) (mk_sys s (Some Scanner) pc d) = Some (y', [])
    ∧ lock y' = None ∧ spc y' = S_out ∧ dpc y' = d.
Proof.
  intros Hpc.
  destruct s, pc as [|p [] z|p [] z|[] z|z|z|tr|tr|]; [done|..];
    first
      [ exists 1%nat; eexists; split; [lia|]; split; [reflexivity|done]
      | exists 2%nat; eexists; split; [lia|]; split; [reflexivity|done]
      | exists 3%nat; eexists; split; [lia|]; split; [reflexivity|done]
      | exists 4%nat; eexists; split; [lia|]; split; [reflexivity|done]
      | exists 5%nat; eexists; split; [lia|]; split; [reflexivity|done] ].
Qed.

Lemma dialog_leaves s pc d :
  d ≠ D_out →
  ∃ k y' snaps,
    (k ≤ 2)%nat
    ∧ run (repeat DialogRuns k) (mk_sys s (Some Dialog) pc d) = Some (y', snaps)
    ∧ lock y' = None ∧ spc y' = pc ∧ dpc y' = D_out.
Proof.
  intros Hd. destruct d; [done|..].
  - exists 2%nat. eexists _, _. split; [lia|]. split; [reflexivity|done].
  - exists 1%nat. eexists _, _. split; [lia|]. split; [reflexivity|done].
Qed.

End MonitorRelease.

(** X2.  The lock is always given back: from every state the two threads
    can reach, the thread inside a method leaves it within five of its own
    steps, and then both threads are outside and the lock is free.  In
    particular no reachable state is a deadlock. *)
Theorem lock_always_released
    (schedule : list Monitor.action) (y : Monitor.sys)
    (snaps : list ScanState.snapshot) :
  Monitor.run schedule Monitor.init = Some (y, snaps) →
  ∃ rest y' snaps',
    (length rest ≤ 5)%nat
    ∧ Monitor.run rest y = Some (y', snaps')
    ∧ Monitor.lock y' = None
    ∧ Monitor.spc y' = Monitor.S_out ∧ Monitor.dpc y' = Monitor.D_out.
Proof.
  intros Hrun.
  pose proof (lock_owner_run schedule _ _ _ lock_owner_init Hrun)
    as Hown.
  unfold lock_owner in Hown. destruct y as [s l pc d]; simpl in Hown.
  destruct l as [[]|]; destruct Hown as [Hpc Hd].
  - destruct (scanner_leaves s pc d Hpc) as (k & y' & Hk & Hgo & Hl & Hs & Hd').
    exists (repeat Monitor.ScannerRuns k), y', [].
    rewrite repeat_length. subst d. by repeat split.
  - destruct (dialog_leaves s pc d Hd) as (k & y' & sn & Hk & Hgo & Hl & Hs & Hd').
    exists (repeat Monitor.DialogRuns k), y', sn.
    rewrite repeat_length. subst pc. repeat split; try done. lia.
  - exists [], (Monitor.mk_sys s None pc d), []. simpl.
    repeat split; try done. lia.
Qed.

Lemma lock_always_released_witness :
  ∃ rest y' snaps',
    (length rest ≤ 5)%nat
    ∧ Monitor.run rest
        (Monitor.mk_sys (ScanState.mk 0 1 0 0 0 "" false None)
                        (Some Monitor.Scanner)
                        (Monitor.S_current_path "a" true 5) Monitor.D_out)
      = Some (y', snaps')
    ∧ Monitor.lock y' = None
    ∧ Monitor.spc y' = Monitor.S_out ∧ Monitor.dpc y' = Monitor.D_out.
Proof.
  apply (lock_always_released
           [Monitor.ScannerCalls (Monitor.Update "a" true 5);
            Monitor.ScannerRuns] _ []).
  reflexivity.
Defined.

(** ** The build pass: what every step keeps *)

Section BuildInvariant.
Context (os_walk : string → list (string * list string * list string)).
Context (getsize : string → option Z) (basename : string → string).

(** A property of the dicts and of the shared state that the three things
    pass 2 does keep: making a directory dict, making a file dict, and
    counting a file whose size was not read. *)
Context (I : store → ScanState.t → Prop).

Hypothesis I_dir : ∀ st path_map state p n cs root d,
  built st path_map → I st state →
  st !! p = Some n → type n = directory → children n = Some cs →
  I (attached st p n cs (dir_dict d p))
    (ScanState.update (Py.path_join root d) false 0 state).

Hypothesis I_file : ∀ st path_map state p n cs root f sz,
  built st path_map → I st state →
  st !! p = Some n → type n = directory → children n = Some cs →
  getsize (Py.path_join root f) = Some sz →
  I (attached st p n cs (file_dict f sz p (Py.endswith (Py.lower f) ".exe")))
    (ScanState.update (Py.path_join root f) true sz state).

Hypothesis I_unread : ∀ st state root f,
  getsize (Py.path_join root f) = None → I st state →
  I st (ScanState.update (Py.path_join root f) true 0 state).

Lemma scan_dirs_keeps root p dirs : ∀ st path_map state st' path_map' state',
  built st path_map → parent_ok st p → I st state →
  Py.for_each (scan_dir root p) dirs (st, path_map, state)
  = Some (st', path_map', state') →
  I st' state'.
Proof.
  induction dirs as [|d dirs IH]; intros st pm state st' pm' state' Hb Hp HI Hrun;
    cbn [Py.for_each] in Hrun.
  - by injection Hrun as <- <- <-.
  - destruct Hp as (n & Hn & Hty & [cs Hcs]).
    rewrite (scan_dir_attached root p _ _ _ d n cs Hn Hcs) in Hrun.
    eapply IH; [| | |exact Hrun].
    + apply built_insert with (dir_dict d p).
      * by apply attached_built.
      * by apply attached_new.
      * done.
      * by eexists.
    + apply attached_parent_ok; [done|done|]. exists n. eauto.
    + by eapply I_dir.
Qed.

Lemma scan_files_keeps root p files : ∀ st path_map state st' path_map' state',
  built st path_map → parent_ok st p → I st state →
  Py.for_each (scan_file getsize root p) files (st, path_map, state)
  = Some (st', path_map', state') →
  I st' state'.
Proof.
  induction files as [|f files IH];
    intros st pm state st' pm' state' Hb Hp HI Hrun;
    cbn [Py.for_each] in Hrun.
  - by injection Hrun as <- <- <-.
  - destruct Hp as (n & Hn & Hty & [cs Hcs]).
    rewrite (scan_file_attached getsize root p _ _ _ f n cs Hn Hcs) in Hrun.
    destruct (getsize (Py.path_join root f)) as [sz|] eqn:Hsz.
    + eapply IH; [| | |exact Hrun].
      * by apply attached_built.
      * apply attached_parent_ok; [done|done|]. exists n. eauto.
      * by eapply I_file.
    + eapply IH; [exact Hb| | |exact Hrun].
      * exists n. eauto.
      * by apply I_unread.
Qed.

Lemma scan_walk_keeps walk : ∀ st path_map state st' path_map' state',
  built st path_map → I st state →
  Py.for_each (scan_root getsize) walk (st, path_map, state)
  = Some (st', path_map', state') →
  I st' state'.
Proof.
  induction walk as [|[[root dirs] files] walk IH];
    intros st pm state st' pm' state' Hb HI Hrun; cbn [Py.for_each] in Hrun.
  - by injection Hrun as <- <- <-.
  - destruct (pm !! root) as [p|] eqn:Hp;
      [|by rewrite scan_root_raises in Hrun].
    destruct (scan_root_built getsize st pm state root dirs files Hb
                              ltac:(by eexists))
      as (st1 & pm1 & state1 & Hstep & Hb1 & _).
    rewrite Hstep in Hrun. eapply IH; [exact Hb1| |exact Hrun].
    clear Hrun IH. unfold scan_root in Hstep. cbn [fst snd] in Hstep.
    rewrite Hp in Hstep. cbn [mbind option_bind] in Hstep.
    assert (Hpok : parent_ok st p).
    { destruct Hb as (_ & _ & _ & Hpm & _). exact (Hpm root p Hp). }
    destruct (scan_dirs_built root p dirs st pm state Hb Hpok)
      as (sta & pma & statea & Hdirs & Hba & Hpa & _).
    rewrite Hdirs in Hstep. cbn [mbind option_bind] in Hstep.
    eapply scan_files_keeps; [exact Hba|exact Hpa| |exact Hstep].
    exact (scan_dirs_keeps root p dirs _ _ _ _ _ _ Hb Hpok HI Hdirs).
Qed.

Lemma build_tree_keeps path state st path_map state' :
  I [root_dict basename path] state →
  build_tree os_walk getsize basename path state
  = Some (st, path_map, state') →
  I st state'.
Proof.
  intros HI Hbuild. unfold build_tree, alloc in Hbuild.
  cbn [length app] in Hbuild.
  eapply scan_walk_keeps; [apply root_built|exact HI|exact Hbuild].
Qed.

End BuildInvariant.

(** ** The dicts pass 2 makes *)

(** The keys a dict carries go with its type: a file has no ['children']
    and no ['expanded'], and its ['is_executable'] says whether its name
    ends in [.exe], in any case of letters; a directory has ['children'] and
    no ['is_executable']. *)
Definition node_typed (n : node) : Prop :=
  match type n with
  | file =>
      children n = None ∧ expanded n = None
      ∧ is_executable n = Some (Py.endswith (Py.lower (name n)) ".exe")
  | directory => is_Some (children n) ∧ is_executable n = None
  end.

(** ['parent'] and ['children'] say the same: a dict lists exactly the
    dicts whose ['parent'] it is, and the root alone has no parent. *)
Definition parent_linked (st : store) : Prop :=
  ∀ c nc, st !! c = Some nc →
    match parent nc with
    | Some p => ∃ n, st !! p = Some n ∧ c ∈ get_children n
    | None => c = 0%nat
    end
    ∧ ∀ p n, st !! p = Some n → c ∈ get_children n → parent nc = Some p.

Definition sizes_nonneg (st : store) : Prop :=
  ∀ r n, st !! r = Some n → 0 <= size n.

Section BuiltDicts.
Context (os_walk : string → list (string * list string * list string)).
Context (getsize : string → option Z) (basename : string → string).

Lemma attached_Forall (P : node → Prop) st p n cs nd :
  st !! p = Some n → children n = Some cs →
  (∀ cs', P n → P (set_children cs' n)) →
  P nd → Forall P st → Forall P (attached st p n cs nd).
Proof.
  intros Hn Hcs Hset Hnd Hall. apply Forall_lookup. intros q nq' Hq.
  rewrite Forall_lookup in Hall.
  destruct (attached_lookup_inv st p n cs nd Hn q nq' Hq)
    as [[-> ->]|[[-> ->]|[Hne Hq']]]; eauto.
Qed.

Lemma build_tree_typed path state st path_map state' :
  build_tree os_walk getsize basename path state
  = Some (st, path_map, state') →
  Forall node_typed st.
Proof.
  apply (build_tree_keeps os_walk getsize basename
           (λ st _, Forall node_typed st)).
  - intros st0 pm st8 p n cs root d _ Hall Hn Hty Hcs.
    apply attached_Forall; [done|done| | |done].
    + unfold node_typed. simpl. rewrite Hty. intros cs' [_ ?]. by split.
    + split; [by eexists|done].
  - intros st0 pm st8 p n cs root f sz _ Hall Hn Hty Hcs _.
    apply attached_Forall; [done|done| | |done].
    + unfold node_typed. simpl. rewrite Hty. intros cs' [_ ?]. by split.
    + by repeat split.
  - done.
  - repeat constructor. by eexists.
Qed.

Lemma attached_parent_linked st path_map p n cs nd :
  built st path_map → st !! p = Some n → children n = Some cs →
  parent nd = Some p → get_children nd = [] →
  parent_linked st → parent_linked (attached st p n cs nd).
Proof.
  intros Hb Hn Hcs Hpar Hnd Hlinked c nc' Hc.
  pose proof Hb as (Hts & _).
  assert (Hlists : ∀ q nq' x,
            attached st p n cs nd !! q = Some nq' → x ∈ get_children nq' →
            (x = length st ∧ q = p)
            ∨ ((x < length st)%nat
               ∧ ∃ nq, st !! q = Some nq ∧ x ∈ get_children nq)).
  { intros q nq' x. by apply attached_lists. }
  apply lookup_lt_Some in Hn as Hplt.
  destruct (attached_lookup_inv st p n cs nd Hn c nc' Hc)
    as [[-> ->]|[[-> ->]|[Hne Hc']]].
  - (* the parent itself *)
    destruct (Hlinked p n Hn) as [Hup Hdown]. split.
    + simpl. destruct (parent n) as [pp|] eqn:Hpp; [|done].
      destruct Hup as (npp & Hnpp & Hin).
      destruct (attached_old st p n cs nd Hn Hcs pp npp Hnpp)
        as (npp' & Hnpp' & _ & _ & _ & Hsub).
      exists npp'. split; [done|]. by apply Hsub.
    + intros q nq' Hq Hin. simpl.
      destruct (Hlists q nq' p Hq Hin) as [[-> _]|[_ (nq & Hnq & Hin')]];
        [lia|]. by eapply Hdown.
  - (* the new dict *)
    split.
    + rewrite Hpar. eexists. split; [by apply attached_parent|].
      unfold get_children. simpl. apply elem_of_app. right.
      by apply list_elem_of_singleton.
    + intros q nq' Hq Hin.
      destruct (Hlists q nq' (length st) Hq Hin) as [[_ ->]|[Hlt _]];
        [done|lia].
  - (* an old dict *)
    destruct (Hlinked c nc' Hc') as [Hup Hdown]. split.
    + destruct (parent nc') as [pp|] eqn:Hpp; [|done].
      destruct Hup as (npp & Hnpp & Hin).
      destruct (attached_old st p n cs nd Hn Hcs pp npp Hnpp)
        as (npp' & Hnpp' & _ & _ & _ & Hsub).
      exists npp'. split; [done|]. by apply Hsub.
    + intros q nq' Hq Hin.
      apply lookup_lt_Some in Hc' as Hclt.
      destruct (Hlists q nq' c Hq Hin) as [[-> _]|[_ (nq & Hnq & Hin')]];
        [lia|]. by eapply Hdown.
Qed.

Lemma build_tree_parent_linked path state st path_map state' :
  build_tree os_walk getsize basename path state
  = Some (st, path_map, state') →
  parent_linked st.
Proof.
  apply (build_tree_keeps os_walk getsize basename
           (λ st _, parent_linked st)).
  - intros st0 pm st8 p n cs root d Hb Hl Hn Hty Hcs.
    by eapply attached_parent_linked.
  - intros st0 pm st8 p n cs root f sz Hb Hl Hn Hty Hcs _.
    by eapply attached_parent_linked.
  - done.
  - intros [|c] nc Hc; [|done]. injection Hc as <-. split; [done|].
    intros [|p] n Hn Hin; [|done]. injection Hn as <-.
    by apply elem_of_nil in Hin.
Qed.

Lemma build_tree_sizes_nonneg path state st path_map state' :
  (∀ file_path sz, getsize file_path = Some sz → 0 <= sz) →
  build_tree os_walk getsize basename path state
  = Some (st, path_map, state') →
  Forall (λ n, 0 <= size n) st.
Proof.
  intros Hpos.
  apply (build_tree_keeps os_walk getsize basename
           (λ st _, Forall (λ n, 0 <= size n) st)).
  - intros st0 pm st8 p n cs root d _ Hall Hn Hty Hcs.
    apply attached_Forall; [done|done|done|done|done].
  - intros st0 pm st8 p n cs root f sz _ Hall Hn Hty Hcs Hsz.
    apply attached_Forall; [done|done|done| |done]. simpl. by eapply Hpos.
  - done.
  - by repeat constructor.
Qed.

End BuiltDicts.

(** ** The finished tree *)

(** What passes 3 and 4 leave of a dict: all but its size and the order
    of its children. *)
Definition same_but_size_order (n n' : node) : Prop :=
  name n' = name n ∧ type n' = type n ∧ parent n' = parent n
  ∧ is_executable n' = is_executable n ∧ expanded n' = expanded n
  ∧ (children n' = None ↔ children n = None)
  ∧ Permutation (get_children n) (get_children n').

Lemma aggregate_same_files fuel : ∀ st st' r,
  length st' = length st →
  (∀ q n, st !! q = Some n →
     ∃ n', st' !! q = Some n' ∧ type n' = type n
           ∧ Permutation (get_children n) (get_children n')
           ∧ (type n = file → size n' = size n)) →
  aggregate fuel st' r = aggregate fuel st r.
Proof.
  induction fuel as [|fuel IH]; intros st st' r Hlen Hsame;
    cbn [aggregate]; [done|].
  destruct (st !! r) as [n|] eqn:Hn.
  - destruct (Hsame r n Hn) as (n' & -> & Hty & Hperm & Hsz).
    rewrite Hty. destruct (type n); [|by apply Hsz].
    rewrite <- (total_perm _ _ (Permutation_map (aggregate fuel st') Hperm)).
    f_equal. apply map_ext. intros c. by apply IH.
  - apply lookup_ge_None in Hn. rewrite <- Hlen in Hn.
    apply lookup_ge_None in Hn. by rewrite Hn.
Qed.

Lemma total_nonneg_elem (l : list Z) (x : Z) :
  Forall (λ y, 0 <= y) l → x ∈ l → 0 <= x <= total l.
Proof.
  induction 1 as [|y l Hy Hl IH]; intros Hx; [by apply elem_of_nil in Hx|].
  assert (0 <= total l).
  { clear IH Hx. induction Hl; simpl; [lia|]. unfold total in *. lia. }
  simpl. apply elem_of_cons in Hx as [->|Hx]; [lia|].
  specialize (IH Hx). unfold total in *. lia.
Qed.

Section FinishedTree.
Context (os_walk : string → list (string * list string * list string)).
Context (getsize : string → option Z) (basename : string → string).

(** The three passes after the walk, put together. *)
Lemma worker_finishes path state state' st path_map fuel :
  build_tree os_walk getsize basename path
             (ScanState.set_total_items (count_items os_walk path) state)
  = Some (st, path_map, state') →
  (length st ≤ fuel)%nat →
  ∃ st2,
    scanner_worker os_walk getsize basename fuel path state
    = Some (st2, ScanState.set_done (Some 0%nat) state')
    ∧ length st2 = length st
    ∧ (∀ q n, st !! q = Some n →
         ∃ n2, st2 !! q = Some n2 ∧ same_but_size_order n n2
               ∧ (type n = file → size n2 = size n))
    ∧ ∀ d n2, st2 !! d = Some n2 → type n2 = directory →
        size n2 = total (map (size_of st2) (get_children n2))
        ∧ size n2 = files_size st2 d
        ∧ descending st2 (get_children n2).
Proof.
  intros Hbuild Hfuel.
  pose proof (build_tree_built _ _ _ _ _ _ _ _ Hbuild) as Hb.
  pose proof (built_scanned_shape _ _ Hb) as Hshape.
  pose proof Hshape as (Hts & Hpos & _).
  destruct (aggregate_pass_sums st 0%nat fuel Hts Hpos ltac:(lia))
    as (st1 & Hcalc & Hlen & Hsame & Hsum).
  assert (Hshape1 : scanned_shape st1).
  { apply (scanned_shape_sizes st st1 Hlen); [|done].
    intros q n Hn. destruct (Hsame q n Hn) as (n' & Hn' & Hs & _). eauto. }
  destruct (sort_pass_sorted st1 fuel Hshape1 ltac:(lia))
    as (st2 & Hsort & Hlen2 & Hsorted).
  exists st2. split.
  { unfold scanner_worker. rewrite Hbuild. cbn [mbind option_bind].
    rewrite Hcalc. cbn [mbind option_bind]. by rewrite Hsort. }
  split; [congruence|].
  assert (Hsize2 : ∀ x, size_of st2 x = size_of st1 x).
  { intros x. unfold size_of. destruct (st1 !! x) as [n1|] eqn:Hn1.
    - destruct (Hsorted x n1 Hn1) as (n2 & -> & (_ & _ & -> & _) & _). done.
    - apply lookup_ge_None in Hn1. rewrite <- Hlen2 in Hn1.
      apply lookup_ge_None in Hn1. by rewrite Hn1. }
  split.
  - intros q n Hn. destruct (Hsame q n Hn) as (n1 & Hn1 & Hs1 & Hfile).
    destruct (Hsorted q n1 Hn1) as (n2 & Hn2 & Hs2 & _).
    exists n2. split; [done|].
    destruct Hs1 as (Hna & Hty & Hcs & Hpa & Hex & Hxp).
    destruct Hs2 as (Hna2 & Hty2 & Hsz2 & Hex2 & Hpa2 & Hxp2 & Hnone2 & Hperm2).
    split.
    + repeat split; try congruence.
      * intros H. apply Hnone2 in H. congruence.
      * intros H. apply Hnone2. congruence.
      * unfold get_children in *. by rewrite <- Hcs.
    + intros Hf. rewrite Hsz2. by rewrite (Hfile Hf).
  - intros d n2 Hn2 Hty2.
    apply lookup_lt_Some in Hn2 as Hlt. rewrite Hlen2 in Hlt.
    destruct (lookup_lt_is_Some_2 st1 d Hlt) as [n1 Hn1].
    destruct (Hsorted d n1 Hn1) as (n2' & Hn2' & Hs2 & Hdir).
    assert (n2' = n2) as -> by congruence.
    destruct Hs2 as (Hna2 & Hty2' & Hsz2 & Hex2 & Hpa2 & Hxp2 & Hnone2 & Hperm2).
    assert (Hty1 : type n1 = directory) by congruence.
    destruct (Hdir Hty1) as [Hdesc _].
    destruct (Hsum d n1) as [Hchildren Hfiles]; [|done|done|].
    { apply scanned_shape_reach; [done|lia]. }
    split; [|split; [|done]].
    + rewrite Hsz2, Hchildren.
      rewrite (total_perm _ _ (Permutation_map (size_of st1) Hperm2)).
      f_equal. apply map_ext. intros x. by rewrite Hsize2.
    + rewrite Hsz2, Hfiles. unfold files_size.
      rewrite <- !aggregate_files, Hlen2. symmetry.
      apply aggregate_same_files; [done|].
      intros q m1 Hm1. destruct (Hsorted q m1 Hm1) as (m2 & Hm2 & Hs & _).
      exists m2. split; [done|].
      destruct Hs as (_ & Hty & Hsz & _ & _ & _ & _ & Hperm). auto.
Qed.

End FinishedTree.

Section FinishedTreeFacts.
Context (os_walk : string → list (string * list string * list string)).
Context (getsize : string → option Z) (basename : string → string).

Lemma build_tree_root path state st path_map state' :
  build_tree os_walk getsize basename path state
  = Some (st, path_map, state') →
  ∃ root, st !! 0%nat = Some root ∧ type root = directory
          ∧ name root = basename path ∧ parent root = None.
Proof.
  apply (build_tree_keeps os_walk getsize basename
           (λ st _, ∃ root, st !! 0%nat = Some root ∧ type root = directory
                            ∧ name root = basename path ∧ parent root = None)).
  - intros st0 pm st8 p n cs root d _ (r & Hr & Hrest) Hn Hty Hcs.
    destruct (decide (p = 0%nat)) as [->|Hne].
    + rewrite attached_parent by done. eexists. split; [done|].
      assert (n = r) as -> by congruence. done.
    + rewrite attached_other; [eauto|done|by eapply lookup_lt_Some].
  - intros st0 pm st8 p n cs root f sz _ (r & Hr & Hrest) Hn Hty Hcs _.
    destruct (decide (p = 0%nat)) as [->|Hne].
    + rewrite attached_parent by done. eexists. split; [done|].
      assert (n = r) as -> by congruence. done.
    + rewrite attached_other; [eauto|done|by eapply lookup_lt_Some].
  - done.
  - eexists. by split.
Qed.

(** X3.  When pass 2 returns and the recursion depth suffices, the worker
    returns, sets [done] and stores the root; the root is a directory
    without parent, named after the path scanned; and the tree it hands
    over has both properties at once: in every directory the size is the
    sum of the sizes of the children (and of the files below), and the
    children stand in descending order of size. *)
Theorem worker_hands_over_finished_tree
    (path : string) (state state' : ScanState.t) (st : store)
    (path_map : gmap string ref) (fuel : nat) :
  build_tree os_walk getsize basename path
             (ScanState.set_total_items (count_items os_walk path) state)
  = Some (st, path_map, state') →
  (length st ≤ fuel)%nat →
  ∃ st2 state2,
    scanner_worker os_walk getsize basename fuel path state
    = Some (st2, state2)
    ∧ ScanState.done state2 = true
    ∧ ScanState.tree state2 = Some 0%nat
    ∧ (∃ root, st2 !! 0%nat = Some root ∧ type root = directory
               ∧ name root = basename path ∧ parent root = None)
    ∧ ∀ d n, st2 !! d = Some n → type n = directory →
        size n = total (map (size_of st2) (get_children n))
        ∧ size n = files_size st2 d
        ∧ ∀ i a b, get_children n !! i = Some a →
                   get_children n !! S i = Some b →
                   size_of st2 b <= size_of st2 a.
Proof.
  intros Hbuild Hfuel.
  destruct (worker_finishes os_walk getsize basename _ _ _ _ _ _ Hbuild Hfuel)
    as (st2 & Hrun & Hlen & Hsame & Hdirs).
  exists st2, (ScanState.set_done (Some 0%nat) state').
  split; [done|]. split; [done|]. split; [done|]. split.
  - destruct (build_tree_root _ _ _ _ _ Hbuild) as (r & Hr & Hty & Hna & Hpa).
    destruct (Hsame 0%nat r Hr) as (r2 & Hr2 & (Hna2 & Hty2 & Hpa2 & _) & _).
    exists r2. split; [done|]. repeat split; congruence.
  - intros d n Hn Hty. destruct (Hdirs d n Hn Hty) as (Hsum & Hfiles & Hdesc).
    split; [done|]. split; [done|]. by apply descending_adjacent.
Qed.

End FinishedTreeFacts.

Lemma worker_hands_over_finished_tree_witness :
  ∃ st2 state2,
    scanner_worker demo_walk demo_getsize demo_basename 4 "." ScanState.init
    = Some (st2, state2)
    ∧ ScanState.done state2 = true
    ∧ ScanState.tree state2 = Some 0%nat
    ∧ (∃ root, st2 !! 0%nat = Some root ∧ type root = directory
               ∧ name root = demo_basename "." ∧ parent root = None)
    ∧ ∀ d n, st2 !! d = Some n → type n = directory →
        size n = total (map (size_of st2) (get_children n))
        ∧ size n = files_size st2 d
        ∧ ∀ i a b, get_children n !! i = Some a →
                   get_children n !! S i = Some b →
                   size_of st2 b <= size_of st2 a.
Proof.
  eapply (worker_hands_over_finished_tree demo_walk demo_getsize
            demo_basename "." ScanState.init).
  - vm_compute. reflexivity.
  - simpl. lia.
Defined.


Section FinishedDicts.
Context (os_walk : string → list (string * list string * list string)).
Context (getsize : string → option Z) (basename : string → string).

Lemma node_typed_same n n' :
  same_but_size_order n n' → node_typed n → node_typed n'.
Proof.
  intros (Hna & Hty & _ & Hex & Hxp & Hnone & _). unfold node_typed.
  rewrite Hty, Hex, Hxp, Hna. destruct (type n).
  - intros [[cs Hcs] ?]. split; [|done].
    destruct (children n') eqn:Hc'; [by eexists|].
    pose proof (proj1 Hnone eq_refl). congruence.
  - intros (Hc & ? & ?). split; [by apply Hnone|done].
Qed.

(** X4.  In the tree the worker hands over, every dict carries the keys of
    its type: a file has no ['children'], and its ['is_executable'] is
    [True] exactly when its name ends in [.exe] whatever the case of the
    letters; a directory has a ['children'] list and no
    ['is_executable']. *)
Theorem finished_tree_dicts_typed
    (path : string) (state state' : ScanState.t) (st : store)
    (path_map : gmap string ref) (fuel : nat) :
  build_tree os_walk getsize basename path
             (ScanState.set_total_items (count_items os_walk path) state)
  = Some (st, path_map, state') →
  (length st ≤ fuel)%nat →
  ∃ st2 state2,
    scanner_worker os_walk getsize basename fuel path state
    = Some (st2, state2)
    ∧ ∀ r n, st2 !! r = Some n →
        match type n with
        | file =>
            children n = None
            ∧ is_executable n = Some (Py.endswith (Py.lower (name n)) ".exe")
        | directory => is_Some (children n) ∧ is_executable n = None
        end.
Proof.
  intros Hbuild Hfuel.
  destruct (worker_finishes os_walk getsize basename _ _ _ _ _ _ Hbuild Hfuel)
    as (st2 & Hrun & Hlen & Hsame & _).
  exists st2, (ScanState.set_done (Some 0%nat) state'). split; [done|].
  intros r n2 Hn2.
  apply lookup_lt_Some in Hn2 as Hlt. rewrite Hlen in Hlt.
  destruct (lookup_lt_is_Some_2 st r Hlt) as [n Hn].
  destruct (Hsame r n Hn) as (n2' & Hn2' & Hs & _).
  assert (n2' = n2) as -> by congruence.
  pose proof (build_tree_typed _ _ _ _ _ _ _ _ Hbuild) as Htyped.
  rewrite Forall_lookup in Htyped.
  pose proof (node_typed_same n n2 Hs (Htyped r n Hn)) as Ht.
  unfold node_typed in Ht. destruct (type n2); [done|].
  by destruct Ht as (? & _ & ?).
Qed.

(** X5.  In the tree the worker hands over, the ['parent'] of a dict is the
    dict that lists it among its ['children'], and the other way round;
    the root, and the root alone, has no parent. *)
Theorem finished_tree_parent_links
    (path : string) (state state' : ScanState.t) (st : store)
    (path_map : gmap string ref) (fuel : nat) :
  build_tree os_walk getsize basename path
             (ScanState.set_total_items (count_items os_walk path) state)
  = Some (st, path_map, state') →
  (length st ≤ fuel)%nat →
  ∃ st2 state2,
    scanner_worker os_walk getsize basename fuel path state
    = Some (st2, state2)
    ∧ ∀ c nc, st2 !! c = Some nc →
        (parent nc = None ↔ c = 0%nat)
        ∧ ∀ p, parent nc = Some p ↔
               ∃ n, st2 !! p = Some n ∧ c ∈ get_children n.
Proof.
  intros Hbuild Hfuel.
  destruct (worker_finishes os_walk getsize basename _ _ _ _ _ _ Hbuild Hfuel)
    as (st2 & Hrun & Hlen & Hsame & _).
  exists st2, (ScanState.set_done (Some 0%nat) state'). split; [done|].
  pose proof (build_tree_parent_linked _ _ _ _ _ _ _ _ Hbuild) as Hlinked.
  destruct (build_tree_root _ _ _ _ _ _ _ _ Hbuild) as (r0 & Hr0 & _ & _ & Hp0).
  assert (Hback : ∀ q n2, st2 !! q = Some n2 →
            ∃ n, st !! q = Some n ∧ same_but_size_order n n2).
  { intros q n2 Hn2. apply lookup_lt_Some in Hn2 as Hlt. rewrite Hlen in Hlt.
    destruct (lookup_lt_is_Some_2 st q Hlt) as [n Hn].
    destruct (Hsame q n Hn) as (n2' & Hn2' & Hs & _).
    exists n. split; [done|]. congruence. }
  intros c nc2 Hc2.
  destruct (Hback c nc2 Hc2) as (nc & Hc & (_ & _ & Hpar & _)).
  destruct (Hlinked c nc Hc) as [Hup Hdown]. rewrite Hpar. split.
  - split.
    + intros Hnone. by rewrite Hnone in Hup.
    + intros ->. congruence.
  - intros p. split.
    + intros Hp. rewrite Hp in Hup. destruct Hup as (n & Hn & Hin).
      destruct (Hsame p n Hn) as (n2 & Hn2 & (_ & _ & _ & _ & _ & _ & Hperm) & _).
      exists n2. split; [done|]. by rewrite <- Hperm.
    + intros (n2 & Hn2 & Hin).
      destruct (Hback p n2 Hn2) as (n & Hn & (_ & _ & _ & _ & _ & _ & Hperm)).
      apply (Hdown p n Hn). by rewrite Hperm.
Qed.

(** X6.  When no file has a negative size, the tree the worker hands over
    has none either, and no child is larger than the directory that holds
    it. *)
Theorem finished_tree_child_not_larger
    (path : string) (state state' : ScanState.t) (st : store)
    (path_map : gmap string ref) (fuel : nat) :
  (∀ file_path sz, getsize file_path = Some sz → 0 <= sz) →
  build_tree os_walk getsize basename path
             (ScanState.set_total_items (count_items os_walk path) state)
  = Some (st, path_map, state') →
  (length st ≤ fuel)%nat →
  ∃ st2 state2,
    scanner_worker os_walk getsize basename fuel path state
    = Some (st2, state2)
    ∧ (∀ r n, st2 !! r = Some n → 0 <= size n)
    ∧ ∀ d n c, st2 !! d = Some n → type n = directory →
        c ∈ get_children n → size_of st2 c <= size n.
Proof.
  intros Hpos Hbuild Hfuel.
  destruct (worker_finishes os_walk getsize basename _ _ _ _ _ _ Hbuild Hfuel)
    as (st2 & Hrun & Hlen & Hsame & Hdirs).
  exists st2, (ScanState.set_done (Some 0%nat) state'). split; [done|].
  pose proof (build_tree_sizes_nonneg os_walk getsize basename _ _ _ _ _
                                      Hpos Hbuild) as Hnn.
  rewrite Forall_lookup in Hnn.
  assert (Hfile : ∀ r n2, st2 !! r = Some n2 → type n2 = file → 0 <= size n2).
  { intros r n2 Hn2 Hty. apply lookup_lt_Some in Hn2 as Hlt.
    rewrite Hlen in Hlt. destruct (lookup_lt_is_Some_2 st r Hlt) as [n Hn].
    destruct (Hsame r n Hn) as (n2' & Hn2' & (_ & Hty' & _) & Hsz).
    assert (n2' = n2) as -> by congruence.
    rewrite Hsz by congruence. by eapply Hnn. }
  assert (Hall : ∀ r n2, st2 !! r = Some n2 → 0 <= size n2).
  { intros r n2 Hn2. destruct (type n2) eqn:Hty; [|by eapply Hfile].
    destruct (Hdirs r n2 Hn2 Hty) as (_ & -> & _). unfold files_size.
    assert (Hfs : Forall (λ y, 0 <= y)
              (map (size_of st2) (subtree_files (length st2) st2 r))).
    { apply Forall_forall. intros y Hy.
      apply list_elem_of_In, in_map_iff in Hy as (f & <- & Hf).
      apply list_elem_of_In, subtree_files_reach in Hf as [_ (nf & Hnf & Htf)].
      unfold size_of. rewrite Hnf. by eapply Hfile. }
    clear -Hfs. induction Hfs; simpl; [lia|]. unfold total in *. lia. }
  split; [done|].
  intros d n c Hn Hty Hc. destruct (Hdirs d n Hn Hty) as (-> & _).
  apply total_nonneg_elem.
  - apply Forall_forall. intros y Hy.
    apply list_elem_of_In, in_map_iff in Hy as (x & <- & _).
    unfold size_of. destruct (st2 !! x) eqn:Hx; [by eapply Hall|lia].
  - apply list_elem_of_In, in_map, list_elem_of_In. done.
Qed.

End FinishedDicts.

Lemma finished_tree_dicts_typed_witness :
  ∃ st2 state2,
    scanner_worker demo_walk demo_getsize demo_basename 4 "." ScanState.init
    = Some (st2, state2)
    ∧ ∀ r n, st2 !! r = Some n →
        match type n with
        | file =>
            children n = None
            ∧ is_executable n = Some (Py.endswith (Py.lower (name n)) ".exe")
        | directory => is_Some (children n) ∧ is_executable n = None
        end.
Proof.
  eapply (finished_tree_dicts_typed demo_walk demo_getsize demo_basename "."
                                    ScanState.init).
  - vm_compute. reflexivity.
  - simpl. lia.
Defined.

Lemma finished_tree_parent_links_witness :
  ∃ st2 state2,
    scanner_worker demo_walk demo_getsize demo_basename 4 "." ScanState.init
    = Some (st2, state2)
    ∧ ∀ c nc, st2 !! c = Some nc →
        (parent nc = None ↔ c = 0%nat)
        ∧ ∀ p, parent nc = Some p ↔
               ∃ n, st2 !! p = Some n ∧ c ∈ get_children n.
Proof.
  eapply (finished_tree_parent_links demo_walk demo_getsize demo_basename "."
                                     ScanState.init).
  - vm_compute. reflexivity.
  - simpl. lia.
Defined.

Lemma demo_getsize_nonneg file_path sz :
  demo_getsize file_path = Some sz → 0 <= sz.
Proof.
  unfold demo_getsize.
  destruct (String.eqb _ _); [intros [= <-]; lia|].
  destruct (String.eqb _ _); [intros [= <-]; lia|done].
Qed.

Lemma finished_tree_child_not_larger_witness :
  ∃ st2 state2,
    scanner_worker demo_walk demo_getsize demo_basename 4 "." ScanState.init
    = Some (st2, state2)
    ∧ (∀ r n, st2 !! r = Some n → 0 <= size n)
    ∧ ∀ d n c, st2 !! d = Some n → type n = directory →
        c ∈ get_children n → size_of st2 c <= size n.
Proof.
  eapply (finished_tree_child_not_larger demo_walk demo_getsize demo_basename
                                         "." ScanState.init).
  - exact demo_getsize_nonneg.
  - vm_compute. reflexivity.
  - simpl. lia.
Defined.

(** ** The counters of the walk *)

(** The entries the walk lists: directories and files. *)
Definition walk_dirs (walk : list (string * list string * list string)) : Z :=
  total (map (λ '(_, dirs, _), Z.of_nat (length dirs)) walk).

Definition walk_files (walk : list (string * list string * list string)) : Z :=
  total (map (λ '(_, _, files), Z.of_nat (length files)) walk).

Lemma count_items_walk os_walk path :
  count_items os_walk path
  = walk_dirs (os_walk path) + walk_files (os_walk path).
Proof.
  unfold count_items, walk_dirs, walk_files.
  assert (Hgen : ∀ (walk : list (string * list string * list string)) acc,
    fold_left (λ total_items '(_, dirs, files),
                 total_items + (Z.of_nat (length dirs) + Z.of_nat (length files)))
              walk acc
    = acc + (total (map (λ '(_, dirs, _), Z.of_nat (length dirs)) walk)
             + total (map (λ '(_, _, files), Z.of_nat (length files)) walk))).
  { induction walk as [|[[root dirs] files] walk IH]; intros acc; simpl; [lia|].
    rewrite IH. unfold total. lia. }
  rewrite Hgen. lia.
Qed.

(** The calls of [state.update] the loop over [dirs] makes. *)
Definition count_dirs (root : string) (dirs : list string)
    (state : ScanState.t) : ScanState.t :=
  fold_left (λ s d, ScanState.update (Py.path_join root d) false 0 s)
            dirs state.

(** The counters that only grow, and the fields pass 2 leaves alone. *)
Definition counted (dirs files : Z) (state state' : ScanState.t) : Prop :=
  ScanState.dir_count state' = ScanState.dir_count state + dirs
  ∧ ScanState.file_count state' = ScanState.file_count state + files
  ∧ ScanState.scanned_items state'
    = ScanState.scanned_items state + dirs + files
  ∧ ScanState.total_items state' = ScanState.total_items state
  ∧ ScanState.done state' = ScanState.done state
  ∧ ScanState.tree state' = ScanState.tree state.

Lemma count_dirs_counted root dirs : ∀ state,
  counted (Z.of_nat (length dirs)) 0 state (count_dirs root dirs state).
Proof.
  induction dirs as [|d dirs IH]; intros state.
  - unfold counted. simpl. repeat split; lia.
  - change (count_dirs root (d :: dirs) state)
      with (count_dirs root dirs
              (ScanState.update (Py.path_join root d) false 0 state)).
    destruct (IH (ScanState.update (Py.path_join root d) false 0 state))
      as (Hd & Hf & Hs & Ht & Hdn & Htr).
    unfold counted. rewrite Hd, Hf, Hs, Ht, Hdn, Htr. cbn [length].
    simpl. repeat split; lia.
Qed.

Lemma count_files_counted getsize root files : ∀ state,
  counted 0 (Z.of_nat (length files)) state
          (count_files getsize root files state).
Proof.
  induction files as [|f files IH]; intros state.
  - unfold counted. simpl. repeat split; lia.
  - change (count_files getsize root (f :: files) state)
      with (count_files getsize root files
              (ScanState.update (Py.path_join root f) true
                 (default 0 (getsize (Py.path_join root f))) state)).
    destruct (IH (ScanState.update (Py.path_join root f) true
                    (default 0 (getsize (Py.path_join root f))) state))
      as (Hd & Hf & Hs & Ht & Hdn & Htr).
    unfold counted. rewrite Hd, Hf, Hs, Ht, Hdn, Htr. cbn [length].
    simpl. repeat split; lia.
Qed.

Lemma counted_trans d1 f1 d2 f2 s1 s2 s3 :
  counted d1 f1 s1 s2 → counted d2 f2 s2 s3 → counted (d1 + d2) (f1 + f2) s1 s3.
Proof.
  unfold counted. intros (?&?&?&?&?&?) (?&?&?&?&?&?).
  repeat split; try congruence; lia.
Qed.

Section WalkCounters.
Context (getsize : string → option Z).

Lemma scan_dirs_state root p dirs : ∀ st path_map state st' path_map' state',
  parent_ok st p →
  Py.for_each (scan_dir root p) dirs (st, path_map, state)
  = Some (st', path_map', state') →
  state' = count_dirs root dirs state.
Proof.
  induction dirs as [|d dirs IH]; intros st pm state st' pm' state' Hp Hrun;
    cbn [Py.for_each] in Hrun.
  - by injection Hrun as <- <- <-.
  - destruct Hp as (n & Hn & Hty & [cs Hcs]).
    rewrite (scan_dir_attached root p _ _ _ d n cs Hn Hcs) in Hrun.
    apply IH in Hrun; [done|].
    apply attached_parent_ok; [done|done|]. exists n. eauto.
Qed.

Lemma scan_walk_counted walk : ∀ st path_map state st' path_map' state',
  built st path_map →
  Py.for_each (scan_root getsize) walk (st, path_map, state)
  = Some (st', path_map', state') →
  counted (walk_dirs walk) (walk_files walk) state state'.
Proof.
  induction walk as [|[[root dirs] files] walk IH];
    intros st pm state st' pm' state' Hb Hrun; cbn [Py.for_each] in Hrun.
  - injection Hrun as <- <- <-. unfold counted, walk_dirs, walk_files. simpl.
    repeat split; lia.
  - destruct (pm !! root) as [p|] eqn:Hp;
      [|by rewrite scan_root_raises in Hrun].
    destruct (scan_root_built getsize st pm state root dirs files Hb
                              ltac:(by eexists))
      as (st1 & pm1 & state1 & Hstep & Hb1 & _).
    rewrite Hstep in Hrun. pose proof (IH _ _ _ _ _ _ Hb1 Hrun) as Hrest.
    clear Hrun IH. unfold scan_root in Hstep. cbn [fst snd] in Hstep.
    rewrite Hp in Hstep. cbn [mbind option_bind] in Hstep.
    assert (Hpok : parent_ok st p).
    { destruct Hb as (_ & _ & _ & Hpm & _). exact (Hpm root p Hp). }
    destruct (scan_dirs_built root p dirs st pm state Hb Hpok)
      as (sta & pma & statea & Hdirs & _ & (n & Hn & _ & [cs Hcs]) & _).
    rewrite Hdirs in Hstep. cbn [mbind option_bind] in Hstep.
    pose proof (scan_dirs_state root p dirs _ _ _ _ _ _ Hpok Hdirs) as ->.
    destruct (scan_files_attached getsize root p files sta pma
                (count_dirs root dirs state) n cs Hn Hcs)
      as (stb & Hfiles & _).
    rewrite Hfiles in Hstep. injection Hstep as <- <- <-.
    pose proof (counted_trans _ _ _ _ _ _ _
                  (count_dirs_counted root dirs state)
                  (count_files_counted getsize root files
                     (count_dirs root dirs state))) as Hroot.
    pose proof (counted_trans _ _ _ _ _ _ _ Hroot Hrest) as Hall.
    unfold walk_dirs, walk_files. cbn [map total foldr].
    unfold walk_dirs, walk_files, total in Hall.
    replace (Z.of_nat (length dirs) + 0
             + foldr Z.add 0 (map (λ '(_, dirs0, _), Z.of_nat (length dirs0)) walk))
      with (Z.of_nat (length dirs)
            + foldr Z.add 0 (map (λ '(_, dirs0, _), Z.of_nat (length dirs0)) walk))
      in Hall by lia.
    exact Hall.
Qed.

End WalkCounters.

(** A directory that gains a file between the two traversals. *)
Definition walk_before (path : string)
    : list (string * list string * list string) :=
  [(".", [], ["a"])]%string.

Definition walk_after (path : string)
    : list (string * list string * list string) :=
  [(".", [], ["a"; "b"])]%string.

(** X7.  The worker walks the directory twice: pass 1 counts what the
    first traversal lists, pass 2 scans what the second lists, and the two
    may differ when the filesystem changes in between.  Pass 2 counts every
    entry its own traversal lists: [dir_count] ends as its directories,
    [file_count] as its files, whether their size could be read or not,
    and [scanned_items] as their number, while [total_items] stays the
    number the first traversal gave.  When the second traversal lists as
    many entries as the first, the worker, started on a fresh [ScanState],
    ends with [scanned_items] equal to [total_items], and the progress of
    the last frame is 1. *)
Theorem walk_counts_every_entry
    (first_walk second_walk
       : string → list (string * list string * list string))
    (getsize : string → option Z) (basename : string → string)
    (path : string) (state' : ScanState.t) (st : store)
    (path_map : gmap string ref) :
  build_tree second_walk getsize basename path
             (ScanState.set_total_items (count_items first_walk path)
                                        ScanState.init)
  = Some (st, path_map, state') →
  ScanState.dir_count state' = walk_dirs (second_walk path)
  ∧ ScanState.file_count state' = walk_files (second_walk path)
  ∧ ScanState.scanned_items state' = count_items second_walk path
  ∧ ScanState.total_items state' = count_items first_walk path
  ∧ (count_items second_walk path = count_items first_walk path →
     ScanState.scanned_items state' = ScanState.total_items state'
     ∧ ∃ p, dialog_progress
              (ScanState.get_state (ScanState.set_done (Some 0%nat) state'))
            = Some p
            ∧ (p == 1)%Q).
Proof.
  intros Hbuild. unfold build_tree, alloc in Hbuild.
  cbn [length app] in Hbuild.
  apply scan_walk_counted in Hbuild; [|apply root_built].
  destruct Hbuild as (Hd & Hf & Hs & Ht & _ & _). simpl in Hd, Hf, Hs, Ht.
  assert (Hscanned : ScanState.scanned_items state'
                     = count_items second_walk path).
  { rewrite count_items_walk. lia. }
  split; [lia|]. split; [lia|]. split; [exact Hscanned|].
  split; [exact Ht|].
  intros Hsame. split; [lia|].
  unfold dialog_progress, ScanState.get_state, ScanState.set_done, progress,
    Py.truediv. simpl.
  rewrite Ht, Hscanned, Hsame.
  set (t := count_items first_walk path).
  destruct (Z.ltb_spec 0 t) as [Hpos|Hle].
  - destruct (Z.eqb_spec t 0); [lia|]. eexists. split; [done|].
    apply Qmult_inv_r. intros H. apply (inject_Z_injective t 0) in H. lia.
  - eexists. split; [done|]. reflexivity.
Qed.

Lemma walk_counts_every_entry_witness :
  ScanState.dir_count (ScanState.mk 1 2 0 2 0 "./b" false None)
  = walk_dirs (walk_after ".")
  ∧ ScanState.file_count (ScanState.mk 1 2 0 2 0 "./b" false None)
    = walk_files (walk_after ".")
  ∧ ScanState.scanned_items (ScanState.mk 1 2 0 2 0 "./b" false None)
    = count_items walk_after "."
  ∧ ScanState.total_items (ScanState.mk 1 2 0 2 0 "./b" false None)
    = count_items walk_before ".".
Proof.
  destruct (walk_counts_every_entry walk_before walk_after (λ _, None)
              demo_basename "."
              (ScanState.mk 1 2 0 2 0 "./b" false None)
              [mk_node "demo" directory 0 (Some []) None None None]
              {["." := 0%nat]})
    as (Hd & Hf & Hs & Ht & _).
  - vm_compute. reflexivity.
  - split; [exact Hd|]. split; [exact Hf|]. split; [exact Hs|exact Ht].
Defined.

(** ** The directories of the walk *)

Section ScanDirs.
Context (getsize : string → option Z).

Lemma scan_dirs_made root p dirs : ∀ st path_map state n cs,
  st !! p = Some n → children n = Some cs →
  ∃ st' path_map',
    Py.for_each (scan_dir root p) dirs (st, path_map, state)
    = Some (st', path_map', count_dirs root dirs state)
    ∧ length st' = (length st + length dirs)%nat
    ∧ st' !! p
      = Some (set_children (cs ++ seq (length st) (length dirs)) n)
    ∧ (∀ i d, dirs !! i = Some d →
         st' !! (length st + i)%nat = Some (dir_dict d p))
    ∧ (∀ q, q ≠ p → (q < length st)%nat → st' !! q = st !! q)
    ∧ (∀ path, path ∉ map (Py.path_join root) dirs →
         path_map' !! path = path_map !! path)
    ∧ (NoDup (map (Py.path_join root) dirs) →
       ∀ i d, dirs !! i = Some d →
         path_map' !! Py.path_join root d = Some (length st + i)%nat).
Proof.
  induction dirs as [|d dirs IH]; intros st pm state n cs Hn Hcs.
  - exists st, pm. simpl. rewrite Nat.add_0_r, app_nil_r.
    split; [done|]. split; [done|]. split.
    { rewrite Hn. f_equal. destruct n; simpl in *; by subst. }
    split; [done|]. split; [done|]. split; done.
  - cbn [Py.for_each]. rewrite (scan_dir_attached root p _ _ _ d n cs Hn Hcs).
    change (count_dirs root (d :: dirs) state)
      with (count_dirs root dirs
              (ScanState.update (Py.path_join root d) false 0 state)).
    set (st1 := attached st p n cs (dir_dict d p)).
    set (pm1 := <[Py.path_join root d := length st]> pm).
    destruct (IH st1 pm1
                 (ScanState.update (Py.path_join root d) false 0 state)
                 (set_children (cs ++ [length st]) n) (cs ++ [length st]))
      as (st' & pm' & Hloop & Hlen & Hp & Hnew & Hold & Hframe & Hmap).
    { by apply attached_parent. }
    { done. }
    assert (Hl1 : length st1 = S (length st)) by apply attached_length.
    rewrite Hl1 in *.
    exists st', pm'. split; [exact Hloop|]. cbn [length map].
    split; [lia|]. split.
    { rewrite Hp. f_equal. cbn [seq]. unfold set_children. simpl.
      by rewrite <- app_assoc. }
    apply lookup_lt_Some in Hn as Hlt.
    split.
    { intros [|i] d' Hi.
      - injection Hi as <-. rewrite Nat.add_0_r.
        rewrite Hold by lia. by apply attached_new.
      - replace (length st + S i)%nat with (S (length st) + i)%nat by lia.
        by apply Hnew. }
    split.
    { intros q Hne Hq. rewrite Hold by (done || lia).
      by apply attached_other. }
    split.
    { intros path Hnot. apply not_elem_of_cons in Hnot as [Hne Hnot].
      rewrite Hframe by done. unfold pm1. by rewrite lookup_insert_ne. }
    intros Hnodup [|i] d' Hi.
    + injection Hi as <-. apply NoDup_cons in Hnodup as [Hnot _].
      rewrite Hframe by done. unfold pm1.
      by rewrite lookup_insert_eq, Nat.add_0_r.
    + apply NoDup_cons in Hnodup as [_ Hnodup].
      replace (length st + S i)%nat with (S (length st) + i)%nat by lia.
      by apply Hmap.
Qed.

(** The paths in [path_map] after one turn of the loop over the walk. *)
Lemma scan_root_paths st path_map state root dirs files st' path_map' state' :
  built st path_map →
  scan_root getsize (st, path_map, state) (root, dirs, files)
  = Some (st', path_map', state') →
  ∀ path, is_Some (path_map' !! path)
          ↔ is_Some (path_map !! path) ∨ path ∈ map (Py.path_join root) dirs.
Proof.
  intros Hb Hstep. unfold scan_root in Hstep. cbn [fst snd] in Hstep.
  destruct (path_map !! root) as [p|] eqn:Hp;
    cbn [mbind option_bind] in Hstep; [|done].
  assert (Hpok : parent_ok st p).
  { destruct Hb as (_ & _ & _ & Hpm & _). exact (Hpm root p Hp). }
  destruct Hpok as (n & Hn & Hty & [cs Hcs]).
  destruct (scan_dirs_made root p dirs st path_map state n cs Hn Hcs)
    as (sta & pma & Hdirs & _ & Hpa & _ & _ & Hframe & _).
  rewrite Hdirs in Hstep. cbn [mbind option_bind] in Hstep.
  destruct (scan_files_attached getsize root p files sta pma
              (count_dirs root dirs state) _ _ Hpa eq_refl)
    as (stb & Hfiles & _).
  rewrite Hfiles in Hstep. injection Hstep as <- <- <-.
  destruct (scan_dirs_built root p dirs st path_map state Hb
              ltac:(exists n; eauto))
    as (sta' & pma' & statea' & Hdirs' & _ & _ & Hkeep & Hnew).
  assert (pma' = pma) as -> by congruence.
  intros path. destruct (decide (path ∈ map (Py.path_join root) dirs))
    as [Hin|Hnot].
  - split; [by right|]. intros _.
    apply list_elem_of_In, in_map_iff in Hin as (d & <- & Hd).
    by apply Hnew, list_elem_of_In.
  - rewrite (Hframe path Hnot). split; [by left|]. by intros [?|?].
Qed.

End ScanDirs.

(** X8.  The loop over the directories of one directory never raises.  It
    makes exactly one directory dict for each name of [dirs], of size 0,
    with an empty ['children'] list and the parent as ['parent'], and
    appends it to the children of the parent, in the order of [dirs]; it
    counts each with [state.update]; it leaves every other dict alone.  In
    [path_map] it changes the joined paths only, and when these are
    distinct each leads to the dict made for it. *)
Theorem scan_dirs_one_node_per_directory
    (root : string) (parent_node : ref) (dirs : list string) (st : store)
    (path_map : gmap string ref) (state : ScanState.t) (n : node)
    (cs : list ref) :
  st !! parent_node = Some n → children n = Some cs →
  ∃ st' path_map',
    Py.for_each (scan_dir root parent_node) dirs (st, path_map, state)
    = Some (st', path_map', count_dirs root dirs state)
    ∧ length st' = (length st + length dirs)%nat
    ∧ (get_children <$> st' !! parent_node)
      = Some (cs ++ seq (length st) (length dirs))
    ∧ (∀ i d, dirs !! i = Some d →
         st' !! (length st + i)%nat
         = Some (mk_node d directory 0 (Some []) (Some parent_node) None
                         (Some false)))
    ∧ (∀ q, q ≠ parent_node → (q < length st)%nat → st' !! q = st !! q)
    ∧ (∀ path, path ∉ map (Py.path_join root) dirs →
         path_map' !! path = path_map !! path)
    ∧ (NoDup (map (Py.path_join root) dirs) →
       ∀ i d, dirs !! i = Some d →
         path_map' !! Py.path_join root d = Some (length st + i)%nat)
    ∧ ScanState.dir_count (count_dirs root dirs state)
      = ScanState.dir_count state + Z.of_nat (length dirs)
    ∧ ScanState.file_count (count_dirs root dirs state)
      = ScanState.file_count state.
Proof.
  intros Hn Hcs.
  destruct (scan_dirs_made root parent_node dirs st path_map state n cs Hn Hcs)
    as (st' & pm' & Hloop & Hlen & Hp & Hnew & Hold & Hframe & Hmap).
  destruct (count_dirs_counted root dirs state) as (Hd & Hf & _).
  exists st', pm'. split; [exact Hloop|]. split; [exact Hlen|].
  split; [by rewrite Hp|]. split; [exact Hnew|]. split; [exact Hold|].
  split; [exact Hframe|]. split; [exact Hmap|]. split; [exact Hd|lia].
Qed.

Lemma scan_dirs_one_node_per_directory_witness :
  ∃ st' path_map',
    Py.for_each (scan_dir "." 0%nat) ["A"; "B"]%string
                (empty_store, {["." := 0%nat]}, ScanState.init)
    = Some (st', path_map',
            count_dirs "." ["A"; "B"]%string ScanState.init)
    ∧ length st' = 3%nat
    ∧ (get_children <$> st' !! 0%nat) = Some [1; 2]%nat
    ∧ path_map' !! "./B"%string = Some 2%nat.
Proof.
  destruct (scan_dirs_one_node_per_directory
              "." 0%nat ["A"; "B"]%string empty_store {["." := 0%nat]}
              ScanState.init
              (mk_node "demo" directory 0 (Some []) None None None) [])
    as (st' & pm' & Hloop & Hlen & Hp & _ & _ & _ & Hmap & _);
    [reflexivity|reflexivity|].
  exists st', pm'. split; [exact Hloop|]. split; [exact Hlen|].
  split; [exact Hp|].
  apply (Hmap ltac:(by vm_compute; repeat constructor;
                       rewrite ?elem_of_cons, ?elem_of_nil; intuition discriminate)
              1%nat "B"%string eq_refl).
Defined.

Section WalkRaises.
Context (getsize : string → option Z).

Lemma scan_walk_returns_iff walk : ∀ known st path_map state,
  built st path_map →
  (∀ path, is_Some (path_map !! path) ↔ path ∈ known) →
  is_Some (Py.for_each (scan_root getsize) walk (st, path_map, state))
  ↔ announced known walk.
Proof.
  induction walk as [|[[root dirs] files] walk IH];
    intros known st pm state Hb Hknown; cbn [Py.for_each announced].
  - split; [done|by eexists].
  - destruct (pm !! root) as [p|] eqn:Hp.
    + destruct (scan_root_built getsize st pm state root dirs files Hb
                                ltac:(by eexists))
        as (st1 & pm1 & state1 & Hstep & Hb1 & _).
      rewrite Hstep.
      rewrite (IH (known ++ map (Py.path_join root) dirs) st1 pm1 state1 Hb1).
      * split; [|by intros [_ ?]]. intros Hann. split; [|done].
        apply Hknown. by eexists.
      * intros path.
        rewrite (scan_root_paths getsize _ _ _ _ _ _ _ _ _ Hb Hstep path).
        rewrite elem_of_app, Hknown. done.
    + rewrite scan_root_raises by done. split; [by intros [? ?]|].
      intros [Hroot _]. apply Hknown in Hroot as [? ?]. congruence.
Qed.

End WalkRaises.

(** X9.  Pass 2 raises exactly when the walk enters a directory it has not
    listed before: the [KeyError] of [path_map[root]].  Otherwise it
    returns, whatever the sizes and whichever files cannot be read. *)
Theorem build_tree_raises_iff_unannounced
    (os_walk : string → list (string * list string * list string))
    (getsize : string → option Z) (basename : string → string)
    (path : string) (state : ScanState.t) :
  is_Some (build_tree os_walk getsize basename path state)
  ↔ announced [path] (os_walk path).
Proof.
  unfold build_tree, alloc. cbn [length app].
  apply scan_walk_returns_iff; [apply root_built|].
  intros p. rewrite list_elem_of_singleton. split.
  - intros [r Hr]. by apply lookup_singleton_Some in Hr as [-> _].
  - intros ->. rewrite lookup_singleton_eq. by eexists.
Qed.

(** A walk that enters [./B] without having listed it. *)
Lemma build_tree_unannounced_root :
  build_tree (λ _, [(".", ["A"], []); ("./B", [], [])]%string) (λ _, None)
             demo_basename "." ScanState.init
  = None.
Proof. by vm_compute. Qed.

(** ** The counters and the nodes *)

(** The dicts of one type in the store. *)
Definition count_type (t : node_type) (st : store) : Z :=
  total (map (λ n, if decide (type n = t) then 1 else 0) st).

Lemma attached_count_type t st p n cs nd :
  st !! p = Some n →
  count_type t (attached st p n cs nd)
  = count_type t st + (if decide (type nd = t) then 1 else 0).
Proof.
  intros Hn. unfold count_type, attached.
  rewrite (total_map_insert _ (st ++ [nd]) p n).
  - rewrite map_app, total_app. simpl. lia.
  - rewrite lookup_app_l; [done|]. by eapply lookup_lt_Some.
  - done.
Qed.

Lemma count_type_length st :
  count_type directory st + count_type file st = Z.of_nat (length st).
Proof.
  unfold count_type. induction st as [|n st IH]; simpl; [done|].
  unfold total in *. destruct (type n); simpl; lia.
Qed.

(** X10.  The counters agree with the tree pass 2 builds: there is one
    directory dict for each directory counted, plus the root, and the file
    dicts are at most the files counted; they are exactly the files counted
    when every size could be read. *)
Theorem build_tree_counts_nodes
    (os_walk : string → list (string * list string * list string))
    (getsize : string → option Z) (basename : string → string)
    (path : string) (state state' : ScanState.t) (st : store)
    (path_map : gmap string ref) :
  build_tree os_walk getsize basename path state
  = Some (st, path_map, state') →
  count_type directory st
  = 1 + (ScanState.dir_count state' - ScanState.dir_count state)
  ∧ count_type file st
    <= ScanState.file_count state' - ScanState.file_count state
  ∧ ((∀ file_path, is_Some (getsize file_path)) →
     count_type file st
     = ScanState.file_count state' - ScanState.file_count state).
Proof.
  intros Hbuild. split; [|split].
  - revert Hbuild.
    apply (build_tree_keeps os_walk getsize basename
             (λ st s, count_type directory st
                      = 1 + (ScanState.dir_count s - ScanState.dir_count state))).
    + intros st0 pm s p n cs root d _ HI Hn _ _.
      rewrite attached_count_type by done. simpl. lia.
    + intros st0 pm s p n cs root f sz _ HI Hn _ _ _.
      rewrite attached_count_type by done. simpl. lia.
    + intros st0 s root f _ HI. simpl. lia.
    + unfold count_type. simpl. lia.
  - revert Hbuild.
    apply (build_tree_keeps os_walk getsize basename
             (λ st s, count_type file st
                      <= ScanState.file_count s - ScanState.file_count state)).
    + intros st0 pm s p n cs root d _ HI Hn _ _.
      rewrite attached_count_type by done. simpl. lia.
    + intros st0 pm s p n cs root f sz _ HI Hn _ _ _.
      rewrite attached_count_type by done. simpl. lia.
    + intros st0 s root f _ HI. simpl. lia.
    + unfold count_type. simpl. lia.
  - intros Hread. revert Hbuild.
    apply (build_tree_keeps os_walk getsize basename
             (λ st s, count_type file st
                      = ScanState.file_count s - ScanState.file_count state)).
    + intros st0 pm s p n cs root d _ HI Hn _ _.
      rewrite attached_count_type by done. simpl. lia.
    + intros st0 pm s p n cs root f sz _ HI Hn _ _ _.
      rewrite attached_count_type by done. simpl. lia.
    + intros st0 s root f Hnone _.
      destruct (Hread (Py.path_join root f)) as [? ?]. congruence.
    + unfold count_type. simpl. lia.
Qed.

Lemma build_tree_counts_nodes_witness :
  count_type directory demo_built = 1 + (1 - 0)
  ∧ count_type file demo_built <= 2 - 0.
Proof.
  destruct (build_tree_counts_nodes demo_walk demo_getsize demo_basename "."
              ScanState.init demo_built_state demo_built
              (<["./A" := 1%nat]> {["." := 0%nat]}))
    as (Hd & Hf & _).
  - vm_compute. reflexivity.
  - split; [exact Hd|exact Hf].
Defined.

(** ** The navigator on a whole tree *)

(** Every reference in a ['children'] list leads to a dict of the store. *)
Definition closed (st : store) : Prop :=
  ∀ r n c, st !! r = Some n → c ∈ get_children n → is_Some (st !! c).

Lemma tree_shaped_closed st : tree_shaped st → closed st.
Proof.
  intros Hts r n c Hn Hc. apply lookup_lt_is_Some.
  by destruct (Hts r n c Hn Hc).
Qed.

Lemma sort_by_size_lookup_inv reverse r n st q m' :
  st !! r = Some n → sort_by_size reverse r n st !! q = Some m' →
  ∃ m, st !! q = Some m ∧ same_but_order m m'.
Proof.
  intros Hr Hq. apply lookup_lt_Some in Hq as Hlt.
  rewrite sort_by_size_length in Hlt.
  destruct (lookup_lt_is_Some_2 st q Hlt) as [m Hm].
  destruct (sort_by_size_lookup reverse r n st q m Hr Hm)
    as (m2 & Hm2 & Hsame & _).
  exists m. split; [done|]. congruence.
Qed.

Lemma sort_by_size_closed reverse r n st :
  st !! r = Some n → closed st → closed (sort_by_size reverse r n st).
Proof.
  intros Hr Hcl q m' c Hq Hc.
  destruct (sort_by_size_lookup_inv _ _ _ _ _ _ Hr Hq)
    as (m & Hm & Hsame).
  destruct Hsame as (_ & _ & _ & _ & _ & _ & _ & Hperm).
  apply sort_by_size_is_Some. apply (Hcl q m c Hm). by rewrite Hperm.
Qed.

Lemma index_elem_of {A : Type} (l : list A) (i : Z) (x : A) :
  Py.index l i = Some x → x ∈ l.
Proof.
  unfold Py.index. intros H.
  destruct (_ && _); [by eapply list_elem_of_lookup_2|].
  destruct (_ && _); [by eapply list_elem_of_lookup_2|done].
Qed.

Lemma index_is_Some {A : Type} (l : list A) (i : Z) :
  0 <= i < Z.of_nat (length l) → is_Some (Py.index l i).
Proof.
  intros Hi. rewrite index_in_range by done.
  apply lookup_lt_is_Some. lia.
Qed.

(** A turn of the loop returns when the directory on display is in the
    store and the cursor is where the loop keeps it. *)
Lemma tree_view_step_returns h key st v r n :
  closed st → last (history v) = Some r → st !! r = Some n →
  selection_kept st v →
  is_Some (tree_view_step h key st v).
Proof.
  intros Hcl Hlast Hn Hsel. unfold tree_view_step.
  rewrite index_last, Hlast. cbn [mbind option_bind]. rewrite Hn.
  cbn [mbind option_bind].
  unfold selection_kept in Hsel.
  destruct v as [hist sel scroll sd]. simpl in *.
  rewrite (current_children_top st hist sel scroll sd r n Hlast Hn) in Hsel.
  destruct (key =? Curses.KEY_UP); [by eexists|].
  destruct (key =? Curses.KEY_DOWN); [by eexists|].
  destruct (key =? ord "s"); [by eexists|].
  destruct ((key =? Curses.KEY_RIGHT) || (key =? 10)).
  - destruct (get_children n) as [|c0 cs] eqn:Hcs; [by eexists|].
    destruct (index_is_Some (c0 :: cs) sel Hsel) as [c Hc].
    rewrite Hc. cbn [mbind option_bind].
    destruct (Hcl r n c Hn) as [cn Hcn].
    { rewrite Hcs. by eapply index_elem_of. }
    rewrite Hcn. cbn [mbind option_bind].
    destruct (type cn); by eexists.
  - destruct ((key =? Curses.KEY_LEFT) || (key =? ord "h")).
    + destruct (1 <? length hist)%nat; by eexists.
    + destruct (key =? ord "q"); by eexists.
Qed.

Lemma turn_history_nonempty key st v r n st' v' :
  history v ≠ [] → turn key st v r n (Next st' v') → history v' ≠ [].
Proof.
  intros Hne Ht.
  inversion Ht as [|scroll|scroll Hk|scroll Hk|scroll Hk
                   |c cn Hk Hc Hcn Hty|Hk Hlen]; subst; simpl; try done.
  - by destruct (history v).
  - destruct (history v) as [|a [|b l]]; simpl in *; try done; lia.
Qed.

Lemma history_top st v :
  history_valid st v → history v ≠ [] →
  ∃ r n, last (history v) = Some r ∧ st !! r = Some n.
Proof.
  intros Hh Hne.
  destruct (exists_last Hne) as (l & r & Hl).
  unfold history_valid in Hh. rewrite Hl in Hh.
  apply Forall_app in Hh as [_ Hr]. apply Forall_inv in Hr as [n Hn].
  exists r, n. by rewrite Hl, last_snoc.
Qed.

Lemma tree_view_step_closed h key st v st' v' :
  closed st → tree_view_step h key st v = Some (Next st' v') → closed st'.
Proof.
  intros Hcl Hstep.
  destruct (tree_view_step_turn _ _ _ _ _ Hstep) as (r & n & Hr & Hn & Ht).
  inversion Ht; subst; try done. by apply sort_by_size_closed.
Qed.

Lemma tree_view_loop_returns inputs : ∀ st v,
  closed st → history_valid st v → history v ≠ [] → selection_kept st v →
  is_Some (tree_view_loop inputs st v).
Proof.
  induction inputs as [|[h key] inputs IH]; intros st v Hcl Hh Hne Hsel;
    simpl; [by eexists|].
  destruct (history_top st v Hh Hne) as (r & n & Hlast & Hn).
  destruct (tree_view_step_returns h key st v r n Hcl Hlast Hn Hsel)
    as [o Hstep].
  rewrite Hstep. cbn [mbind option_bind].
  destruct o as [st1 v1|]; [|by eexists].
  destruct (tree_view_step_keeps _ _ _ _ _ _ Hh Hsel Hstep) as [Hh1 Hsel1].
  apply IH; try done.
  - by eapply tree_view_step_closed.
  - destruct (tree_view_step_turn _ _ _ _ _ Hstep) as (r1 & n1 & _ & _ & Ht).
    by eapply turn_history_nonempty.
Qed.

(** X11.  On a tree in which every listed child is a dict, the navigator
    never raises, whatever the keys and the heights of the screen:
    [history[-1]] finds a directory at every turn, and
    [children[current_selection]] finds a child whenever the list has
    one, also after the cursor was left on -1 in an empty directory. *)
Theorem tree_view_never_raises
    (inputs : list (Z * Z)) (st : store) (tree : ref) :
  closed st → is_Some (st !! tree) →
  is_Some (draw_tree_view inputs st tree).
Proof.
  intros Hcl [n Hn]. unfold draw_tree_view.
  apply tree_view_loop_returns; try done.
  - by repeat constructor.
  - unfold selection_kept.
    rewrite (current_children_top st _ _ _ _ tree n) by done.
    destruct (get_children n); simpl; lia.
Qed.

Lemma demo_store_closed : closed demo_store.
Proof.
  intros r n c Hn Hc. apply lookup_lt_is_Some.
  destruct r as [|[|[|[|r]]]]; simpl in Hn; try done;
    injection Hn as <-; simpl in Hc;
    repeat (apply elem_of_cons in Hc as [->|Hc]; [simpl; lia|]);
    by apply elem_of_nil in Hc.
Qed.

Lemma tree_view_never_raises_witness :
  is_Some (draw_tree_view [(24, Curses.KEY_DOWN); (24, 10); (3, ord "s")]
                          demo_store 0%nat).
Proof.
  apply tree_view_never_raises; [exact demo_store_closed|].
  by eexists.
Defined.

(** *** The history *)

(** [l] continues a path of the tree from [p]: each entry is a directory
    listed among the children of the entry before it. *)
Fixpoint chain (st : store) (p : ref) (l : list ref) : Prop :=
  match l with
  | [] => True
  | c :: l' =>
      (∃ n, st !! p = Some n ∧ c ∈ get_children n)
      ∧ is_dir st c ∧ chain st c l'
  end.

Lemma chain_app st p l c q :
  chain st p l → last (p :: l) = Some q →
  (∃ n, st !! q = Some n ∧ c ∈ get_children n) →
  is_dir st c →
  chain st p (l ++ [c]).
Proof.
  revert p. induction l as [|a l IH]; intros p Hch Hq Hc Hd.
  - simpl in *. injection Hq as ->. done.
  - destruct Hch as (Ha & Hda & Hch). split; [done|]. split; [done|].
    apply IH; [done| |done|done].
    by rewrite last_cons_cons in Hq.
Qed.

Lemma chain_removelast st p l : chain st p l → chain st p (removelast l).
Proof.
  revert p. induction l as [|a l IH]; intros p Hch; [done|].
  destruct l as [|b l]; [done|].
  change (removelast (a :: b :: l)) with (a :: removelast (b :: l)).
  destruct Hch as (Ha & Hda & Hch). split; [done|]. split; [done|].
  by apply IH.
Qed.

Lemma chain_sort reverse r n st p l :
  st !! r = Some n → chain st p l →
  chain (sort_by_size reverse r n st) p l.
Proof.
  intros Hr. revert p. induction l as [|c l IH]; intros p Hch; [done|].
  destruct Hch as ((m & Hm & Hc) & (cn & Hcn & Hty) & Hch).
  split; [|split; [|by apply IH]].
  - destruct (sort_by_size_lookup reverse r n st p m Hr Hm)
      as (m' & Hm' & Hsame & _).
    exists m'. split; [done|].
    destruct Hsame as (_ & _ & _ & _ & _ & _ & _ & Hperm).
    by rewrite <- Hperm.
  - destruct (sort_by_size_lookup reverse r n st c cn Hr Hcn)
      as (cn' & Hcn' & Hsame & _).
    exists cn'. split; [done|].
    destruct Hsame as (_ & Hty' & _). congruence.
Qed.

Definition breadcrumb (st : store) (tree : ref) (v : nav) : Prop :=
  ∃ l, history v = tree :: l ∧ chain st tree l.

Lemma turn_breadcrumb key st v r n tree st' v' :
  last (history v) = Some r → st !! r = Some n →
  breadcrumb st tree v →
  turn key st v r n (Next st' v') →
  breadcrumb st' tree v'.
Proof.
  intros Hlast Hn (l & Hl & Hch) Ht.
  inversion Ht as [|scroll|scroll Hk|scroll Hk|scroll Hk
                   |c cn Hk Hc Hcn Hty|Hk Hlen]; subst; simpl.
  1-3: by exists l.
  - exists l. split; [done|]. by apply chain_sort.
  - exists (l ++ [c]). split; [by rewrite Hl|].
    apply chain_app with r; [done|by rewrite <- Hl| |by exists cn].
    exists n. split; [done|by eapply index_elem_of].
  - exists (removelast l). split; [|by apply chain_removelast].
    rewrite Hl in *. destruct l as [|a l]; simpl in *; [lia|done].
Qed.

Lemma tree_view_loop_breadcrumb tree inputs : ∀ st v st' v',
  breadcrumb st tree v →
  tree_view_loop inputs st v = Some (Next st' v') →
  breadcrumb st' tree v'.
Proof.
  induction inputs as [|[h key] inputs IH]; intros st v st' v' Hb Hrun;
    simpl in Hrun.
  - by injection Hrun as <- <-.
  - destruct (tree_view_step h key st v) as [[st1 v1|]|] eqn:Hstep;
      cbn [mbind option_bind] in Hrun; try discriminate Hrun.
    apply (IH st1 v1); [|done].
    destruct (tree_view_step_turn _ _ _ _ _ Hstep) as (r & n & Hr & Hn & Ht).
    unfold current_node in Hr. rewrite index_last in Hr.
    by eapply turn_breadcrumb.
Qed.

(** X12.  The history is a breadcrumb trail: in every state the navigator
    reaches it starts with the tree it was given, which is never popped,
    and each further entry is a directory listed among the children of the
    entry before it. *)
Theorem history_is_path_from_root
    (inputs : list (Z * Z)) (st st' : store) (tree : ref) (v' : nav) :
  draw_tree_view inputs st tree = Some (Next st' v') →
  ∃ l, history v' = tree :: l ∧ chain st' tree l.
Proof.
  intros Hrun. unfold draw_tree_view in Hrun.
  eapply (tree_view_loop_breadcrumb tree inputs st); [|exact Hrun].
  by exists [].
Qed.

Lemma history_is_path_from_root_witness :
  ∃ st' v' l,
    draw_tree_view [(24, Curses.KEY_RIGHT)] demo_store 0%nat
    = Some (Next st' v')
    ∧ history v' = 0%nat :: l ∧ chain st' 0%nat l.
Proof.
  eexists _, _.
  destruct (history_is_path_from_root [(24, Curses.KEY_RIGHT)] demo_store
              demo_store 0%nat (mk_nav [0; 1]%nat 0 0 true))
    as (l & Hl & Hch); [reflexivity|].
  exists l. split; [reflexivity|]. split; [exact Hl|exact Hch].
Defined.

(** *** Toggling the sort order *)

Section SortUnique.
Context {A : Type} (key : A → Z) (reverse : bool).

Lemma in_order_trans : Transitive (in_order key reverse).
Proof. intros x y z. unfold in_order. destruct reverse; lia. Qed.

Lemma in_order_both x y :
  in_order key reverse x y → in_order key reverse y x → key x = key y.
Proof. unfold in_order. destruct reverse; lia. Qed.

Lemma with_key_elem_of k x l : x ∈ with_key key k l → x ∈ l.
Proof.
  unfold with_key. intros Hx. apply list_elem_of_In in Hx.
  apply List.filter_In in Hx as [Hx _]. by apply list_elem_of_In.
Qed.

(** A list is determined by its order and, key by key, by the order of
    the elements of equal key. *)
Lemma sorted_with_key_unique (l1 l2 : list A) :
  Sorted (in_order key reverse) l1 → Sorted (in_order key reverse) l2 →
  (∀ k, with_key key k l1 = with_key key k l2) → l1 = l2.
Proof.
  intros H1%(Sorted_StronglySorted in_order_trans)
         H2%(Sorted_StronglySorted in_order_trans).
  revert l2 H2. induction H1 as [|x l1 Hs1 IH Hx]; intros l2 H2 Hk.
  - destruct l2 as [|y l2]; [done|].
    specialize (Hk (key y)). unfold with_key in Hk. simpl in Hk.
    by rewrite Z.eqb_refl in Hk.
  - destruct H2 as [|y l2 Hs2 Hy].
    { specialize (Hk (key x)). unfold with_key in Hk. simpl in Hk.
      by rewrite Z.eqb_refl in Hk. }
    assert (Hkey : key x = key y).
    { destruct (decide (key x = key y)) as [|Hne]; [done|].
      apply in_order_both.
      - pose proof (Hk (key y)) as Hky. unfold with_key in Hky.
        simpl in Hky. rewrite Z.eqb_refl in Hky.
        destruct (Z.eqb_spec (key x) (key y)); [done|].
        rewrite List.Forall_forall in Hx. apply Hx.
        apply list_elem_of_In, (with_key_elem_of (key y)).
        unfold with_key. rewrite Hky. left.
      - pose proof (Hk (key x)) as Hkx. unfold with_key in Hkx.
        simpl in Hkx. rewrite Z.eqb_refl in Hkx.
        destruct (Z.eqb_spec (key y) (key x)); [congruence|].
        rewrite List.Forall_forall in Hy. apply Hy.
        apply list_elem_of_In, (with_key_elem_of (key x)).
        unfold with_key. rewrite <- Hkx. left. }
    assert (x = y) as <-.
    { pose proof (Hk (key x)) as Hkx. unfold with_key in Hkx.
      simpl in Hkx. rewrite <- Hkey, Z.eqb_refl in Hkx. congruence. }
    f_equal. apply IH; [done|].
    intros k. specialize (Hk k). unfold with_key in *. simpl in Hk.
    destruct (key x =? k); congruence.
Qed.

(** Sorting one way and then the other way brings back a list that was
    in the other order. *)
Lemma sort_there_and_back (l : list A) :
  Sorted (in_order key reverse) l →
  Py.sort key reverse (Py.sort key (negb reverse) l) = l.
Proof.
  intros Hl. apply sorted_with_key_unique; [apply sort_sorted|done|].
  intros k. by rewrite !sort_stable.
Qed.

End SortUnique.

Lemma size_of_insert_children st r n cs c :
  st !! r = Some n → size_of (<[r := set_children cs n]> st) c = size_of st c.
Proof.
  intros Hr. unfold size_of.
  destruct (decide (c = r)) as [->|Hne].
  - rewrite list_lookup_insert_eq by (by eapply lookup_lt_Some).
    by rewrite Hr.
  - by rewrite list_lookup_insert_ne.
Qed.

Lemma set_children_id n cs : children n = Some cs → set_children cs n = n.
Proof. destruct n. simpl. by intros ->. Qed.

Lemma size_of_sort_by_size reverse st r n c :
  st !! r = Some n → size_of (sort_by_size reverse r n st) c = size_of st c.
Proof.
  intros Hr. unfold sort_by_size. destruct (children n); [|done].
  by apply size_of_insert_children.
Qed.

(** The sort of the [s] key, ascending and then descending, on a list in
    descending order. *)
Lemma sort_by_size_back st r n n1 :
  st !! r = Some n → descending st (get_children n) →
  sort_by_size false r n st !! r = Some n1 →
  Sorted (in_order (size_of (sort_by_size false r n st)) false)
         (get_children n1)
  ∧ sort_by_size true r n1 (sort_by_size false r n st) = st.
Proof.
  intros Hr Hdesc Hn1.
  assert (Hsz : ∀ c, size_of (sort_by_size false r n st) c = size_of st c).
  { intros c. by apply size_of_sort_by_size. }
  destruct (children n) as [cs|] eqn:Hcs.
  - assert (Hst1 : sort_by_size false r n st
                   = <[r := set_children (Py.sort (size_of st) false cs) n]> st).
    { unfold sort_by_size. by rewrite Hcs. }
    unfold get_children in Hdesc. rewrite Hcs in Hdesc. simpl in Hdesc.
    assert (Hlt : (r < length st)%nat) by (by eapply lookup_lt_Some).
    rewrite Hst1 in Hn1, Hsz |- *.
    rewrite list_lookup_insert_eq in Hn1 by done. injection Hn1 as <-.
    remember (<[r := set_children (Py.sort (size_of st) false cs) n]> st)
      as st1 eqn:Est1.
    split.
    + unfold get_children. simpl.
      rewrite (sort_ext (size_of st) (size_of st1) false cs)
        by (intros; symmetry; apply Hsz).
      apply sort_sorted.
    + unfold sort_by_size. simpl.
      rewrite <- (sort_ext (size_of st) (size_of st1) true)
        by (intros; symmetry; apply Hsz).
      pose proof (sort_there_and_back (size_of st) true cs Hdesc) as Hb.
      cbn [negb] in Hb. rewrite Hb.
      rewrite Est1, list_insert_insert_eq.
      apply list_insert_id. rewrite Hr. f_equal.
      unfold set_children. simpl. rewrite <- Hcs. by destruct n.
  - assert (Hst1 : sort_by_size false r n st = st).
    { unfold sort_by_size. by rewrite Hcs. }
    rewrite Hst1 in Hn1 |- *. assert (n1 = n) as -> by congruence.
    split.
    + unfold get_children. rewrite Hcs. constructor.
    + unfold sort_by_size. by rewrite Hcs.
Qed.

(** X13.  A second [s] undoes the first: in a directory listed in the
    default order, largest first, the first [s] leaves the children
    smallest first, and the second brings back the very list there was,
    the children of equal size included, with the cursor where it was and
    the flag on descending. *)
Theorem toggle_sort_twice_restores
    (h1 h2 : Z) (st : store) (v : nav) (r : ref) (n : node) :
  current_node v = Some r → st !! r = Some n →
  sort_descending v = true →
  descending st (get_children n) →
  ∃ st1 v1 n1 v2,
    tree_view_step h1 (ord "s") st v = Some (Next st1 v1)
    ∧ sort_descending v1 = false
    ∧ st1 !! r = Some n1
    ∧ Sorted (in_order (size_of st1) false) (get_children n1)
    ∧ tree_view_step h2 (ord "s") st1 v1 = Some (Next st v2)
    ∧ history v2 = history v
    ∧ current_selection v2 = current_selection v
    ∧ sort_descending v2 = true.
Proof.
  intros Hr Hn Hsd Hdesc. unfold current_node in Hr.
  destruct v as [hist sel scroll sd]. simpl in *. subst sd.
  destruct (sort_by_size_lookup false r n st r n Hn Hn) as (n1 & Hn1 & _).
  destruct (sort_by_size_back st r n n1 Hn Hdesc Hn1) as [Hasc Hback].
  eexists _, _, n1, _.
  split.
  { unfold tree_view_step. simpl. rewrite Hr. cbn [mbind option_bind].
    rewrite Hn. cbn [mbind option_bind].
    change (ord "s" =? Curses.KEY_UP) with false.
    change (ord "s" =? Curses.KEY_DOWN) with false.
    change (ord "s" =? ord "s") with true. cbn [negb]. reflexivity. }
  split; [reflexivity|]. split; [exact Hn1|]. split; [exact Hasc|].
  split.
  { unfold tree_view_step. simpl. rewrite Hr. cbn [mbind option_bind].
    rewrite Hn1. cbn [mbind option_bind].
    change (ord "s" =? Curses.KEY_UP) with false.
    change (ord "s" =? Curses.KEY_DOWN) with false.
    change (ord "s" =? ord "s") with true. cbn [negb].
    rewrite Hback. reflexivity. }
  done.
Qed.

Lemma demo_store_descending : descending demo_store [1; 2]%nat.
Proof. repeat constructor. by vm_compute. Qed.

Lemma toggle_sort_twice_restores_witness :
  ∃ st1 v1 v2,
    tree_view_step 24 (ord "s") demo_store demo_nav = Some (Next st1 v1)
    ∧ tree_view_step 24 (ord "s") st1 v1 = Some (Next demo_store v2).
Proof.
  destruct (toggle_sort_twice_restores 24 24 demo_store demo_nav 0%nat
              (mk_node "demo" directory 2010 (Some [1; 2]%nat) None None None))
    as (st1 & v1 & n1 & v2 & H1 & _ & _ & _ & H2 & _).
  - reflexivity.
  - reflexivity.
  - reflexivity.
  - exact demo_store_descending.
  - exists st1, v1, v2. split; [exact H1|exact H2].
Defined.

(** *** The rows of a frame *)

(** A bound of a slice, clamped to the list as Python does. *)
Definition slice_bound (n i : Z) : Z :=
  if i <? 0 then Z.max (n + i) 0 else Z.min i n.

(** [l[a:b]] *)
Definition slice {A : Type} (l : list A) (a b : Z) : list A :=
  let n := Z.of_nat (length l) in
  let a := slice_bound n a in
  let b := slice_bound n b in
  take (Z.to_nat (b - a)) (drop (Z.to_nat a) l).

(** The scrolling logic of a frame on a screen of [h] rows: the value of
    [scroll_top] the rows are drawn with. *)
Definition frame_scroll_top (h : Z) (v : nav) : Z :=
  let scroll_top :=
    if current_selection v <? scroll_top v then current_selection v
    else scroll_top v in
  if scroll_top + h - 3 <=? current_selection v
  then current_selection v - h + 4
  else scroll_top.

(** A row of the list as the frame draws it: the screen line, the index
    [idx] of the child in the list, the child, and whether the row gets
    [A_REVERSE]. *)
Record row := mk_row {
  row_line : Z;
  row_idx : Z;
  row_child : ref;
  row_reverse : bool
}.

(** The [for i, child in enumerate(children[scroll_top : scroll_top + h - 3])]
    loop. *)
Definition frame_rows (h : Z) (children : list ref) (v : nav) : list row :=
  let scroll_top := frame_scroll_top h v in
  imap (λ i child,
          let idx := Z.of_nat i + scroll_top in
          mk_row (2 + Z.of_nat i) idx child (idx =? current_selection v))
       (slice children scroll_top (scroll_top + h - 3)).

(** The state a turn leaves carries the [scroll_top] of its frame, or 0
    after a drill. *)
Lemma tree_view_step_scroll h key st v st' v' :
  tree_view_step h key st v = Some (Next st' v') →
  scroll_top v' = frame_scroll_top h v ∨ scroll_top v' = 0.
Proof.
  unfold tree_view_step, frame_scroll_top. intros Hstep.
  destruct (Py.index (history v) (-1)) as [r|];
    cbn [mbind option_bind] in Hstep; [|discriminate Hstep].
  destruct (st !! r) as [n|];
    cbn [mbind option_bind] in Hstep; [|discriminate Hstep].
  repeat match type of Hstep with
  | (if ?b then _ else _) = _ => destruct b
  | match ?l with [] => _ | _ :: _ => _ end = _ => destruct l
  | (?m ≫= _) = _ =>
      destruct m; cbn [mbind option_bind] in Hstep; [|discriminate Hstep]
  | match type ?c with directory => _ | file => _ end = _ =>
      destruct (type c)
  end;
  first [discriminate Hstep | injection Hstep as <- <-; simpl; auto].
Qed.

Lemma slice_lookup {A : Type} (l : list A) (a b : Z) (i : nat) :
  0 <= a → 0 <= b →
  slice l a b !! i
  = if a + Z.of_nat i <? b then l !! (Z.to_nat a + i)%nat else None.
Proof.
  intros Ha Hb. unfold slice, slice_bound.
  destruct (Z.ltb_spec a 0); [lia|]. destruct (Z.ltb_spec b 0); [lia|].
  set (n := Z.of_nat (length l)).
  destruct (Z.ltb_spec (a + Z.of_nat i) b) as [Hlt|Hge].
  - destruct (decide (a + Z.of_nat i < n)) as [Hin|Hout].
    + rewrite lookup_take_lt by lia. rewrite lookup_drop. f_equal. lia.
    + rewrite (proj2 (lookup_ge_None l (Z.to_nat a + i))) by (subst n; lia).
      apply lookup_ge_None. rewrite length_take, length_drop. subst n. lia.
  - apply lookup_take_ge. lia.
Qed.

(** The offset is never negative where there is a list to draw. *)
Definition scroll_kept (st : store) (v : nav) : Prop :=
  0 <= scroll_top v ∨ current_children st v = Some [].

Lemma frame_scroll_top_nonneg h v :
  0 <= current_selection v → 0 <= scroll_top v → 0 <= frame_scroll_top h v.
Proof.
  unfold frame_scroll_top. intros Hsel Hsc.
  destruct (Z.ltb_spec (current_selection v) (scroll_top v));
    match goal with
    | |- context [?a <=? ?b] => destruct (Z.leb_spec a b)
    end; lia.
Qed.

Lemma tree_view_step_scroll_kept h key st v st' v' :
  history_valid st v → selection_kept st v → scroll_kept st v →
  tree_view_step h key st v = Some (Next st' v') →
  scroll_kept st' v'.
Proof.
  intros Hh Hsel Hsc Hstep.
  destruct (tree_view_step_turn _ _ _ _ _ Hstep) as (r & n & Hr & Hn & Ht).
  pose proof (tree_view_step_scroll _ _ _ _ _ _ Hstep) as Hscroll.
  unfold current_node in Hr. rewrite index_last in Hr.
  assert (Hcur : ∀ sel scroll sd,
            current_children st (mk_nav (history v) sel scroll sd)
            = Some (get_children n)).
  { intros. by apply current_children_top with r. }
  unfold selection_kept in Hsel. unfold scroll_kept in *.
  destruct v as [hist sel0 scroll0 sd0]. rewrite Hcur in Hsel, Hsc.
  simpl in *.
  destruct (get_children n) as [|c0 cs] eqn:Hcs.
  - (* nothing to draw *)
    inversion Ht as [|scroll|scroll Hk|scroll Hk|scroll Hk
                     |c cn Hk Hc Hcn Hty|Hk Hlen]; subst; simpl in *.
    1-3: right; by rewrite Hcur, ?Hcs.
    + right.
      destruct (sort_by_size_lookup (negb sd0) r n st r n Hn Hn)
        as (n' & Hn' & Hsame & _).
      rewrite (current_children_top _ _ _ _ _ r n' Hr Hn').
      destruct Hsame as (_ & _ & _ & _ & _ & _ & _ & Hperm).
      rewrite Hcs in Hperm. by apply Permutation_nil_l in Hperm as ->.
    + by left.
    + by left.
  - left. destruct Hscroll as [-> | ->]; [|done].
    apply frame_scroll_top_nonneg; simpl; [lia|].
    by destruct Hsc.
Qed.

Lemma tree_view_loop_scroll_kept inputs : ∀ st v st' v',
  history_valid st v → selection_kept st v → scroll_kept st v →
  tree_view_loop inputs st v = Some (Next st' v') →
  selection_kept st' v' ∧ scroll_kept st' v'.
Proof.
  induction inputs as [|[h key] inputs IH];
    intros st v st' v' Hh Hsel Hsc Hrun; simpl in Hrun.
  - by injection Hrun as <- <-.
  - destruct (tree_view_step h key st v) as [[st1 v1|]|] eqn:Hstep;
      cbn [mbind option_bind] in Hrun; try discriminate Hrun.
    destruct (tree_view_step_keeps _ _ _ _ _ _ Hh Hsel Hstep) as [Hh1 Hsel1].
    apply (IH st1 v1); try done.
    exact (tree_view_step_scroll_kept _ _ _ _ _ _ Hh Hsel Hsc Hstep).
Qed.

Lemma draw_tree_view_tree inputs st tree st' v' cs :
  draw_tree_view inputs st tree = Some (Next st' v') →
  current_children st' v' = Some cs →
  is_Some (st !! tree).
Proof.
  unfold draw_tree_view. destruct inputs as [|[h key] inputs]; simpl.
  - intros [= <- <-]. unfold current_children, current_node. simpl.
    destruct (st !! tree); [by eexists|done].
  - intros Hrun _.
    destruct (tree_view_step _ _ _ _) as [o|] eqn:Hstep; [|done].
    destruct (tree_view_step_turn _ _ _ _ _ Hstep) as (r & n & Hr & Hn & _).
    unfold current_node in Hr. simpl in Hr. injection Hr as <-.
    by eexists.
Qed.

(** The frame of a state with a valid cursor and offset. *)
Lemma frame_rows_selected h cs v :
  4 <= h → 0 <= scroll_top v →
  0 <= current_selection v < Z.of_nat (length cs) →
  let top := frame_scroll_top h v in
  let sel := current_selection v in
  0 <= top <= sel ∧ sel < top + h - 3
  ∧ (∃ c, cs !! Z.to_nat sel = Some c
          ∧ frame_rows h cs v !! Z.to_nat (sel - top)
            = Some (mk_row (2 + (sel - top)) sel c true))
  ∧ ∀ i rw, frame_rows h cs v !! i = Some rw →
      2 <= row_line rw <= h - 2
      ∧ row_idx rw = top + Z.of_nat i
      ∧ cs !! Z.to_nat (row_idx rw) = Some (row_child rw)
      ∧ (row_reverse rw = true ↔ i = Z.to_nat (sel - top)).
Proof.
  intros Hh Hsc Hsel top sel.
  assert (Htop : 0 <= top <= sel ∧ sel < top + h - 3).
  { subst top sel. unfold frame_scroll_top.
    destruct (Z.ltb_spec (current_selection v) (scroll_top v));
      match goal with
      | |- context [?a <=? ?b] => destruct (Z.leb_spec a b)
      end; lia. }
  split; [apply Htop|]. split; [apply Htop|].
  assert (Hrow : ∀ i, frame_rows h cs v !! i
            = (λ child, mk_row (2 + Z.of_nat i) (Z.of_nat i + top) child
                               (Z.of_nat i + top =? sel))
              <$> (if top + Z.of_nat i <? top + h - 3
                   then cs !! (Z.to_nat top + i)%nat else None)).
  { intros i. unfold frame_rows. rewrite list_lookup_imap.
    fold top. rewrite slice_lookup by lia. done. }
  split.
  - destruct (lookup_lt_is_Some_2 cs (Z.to_nat sel) ltac:(subst sel; lia))
      as [c Hc].
    exists c. split; [done|]. rewrite Hrow.
    destruct (Z.ltb_spec (top + Z.of_nat (Z.to_nat (sel - top)))
                         (top + h - 3)); [|lia].
    replace (Z.to_nat top + Z.to_nat (sel - top))%nat with (Z.to_nat sel)
      by lia.
    rewrite Hc. simpl. f_equal.
    rewrite Z2Nat.id by lia.
    replace (sel - top + top) with sel by lia.
    by rewrite Z.eqb_refl.
  - intros i rw. rewrite Hrow.
    destruct (Z.ltb_spec (top + Z.of_nat i) (top + h - 3)); [|done].
    destruct (cs !! (Z.to_nat top + i)%nat) as [c|] eqn:Hc; [|done].
    simpl. intros [= <-]. simpl.
    split; [lia|]. split; [lia|].
    split; [rewrite <- Hc; f_equal; lia|].
    rewrite Z.eqb_eq. lia.
Qed.

(** X14.  The row under the cursor is on the screen: in every state the
    navigator reaches, on a screen of at least 4 rows and in a directory
    with children, the scrolling logic leaves the cursor inside the
    window of [h - 3] rows; the frame draws the selected child, it is the
    one row drawn with [A_REVERSE], and every row drawn shows the child
    at its index on a line between the header and the help text. *)
Theorem selected_row_is_drawn
    (inputs : list (Z * Z)) (st st' : store) (tree : ref) (v' : nav)
    (h : Z) (cs : list ref) :
  draw_tree_view inputs st tree = Some (Next st' v') →
  current_children st' v' = Some cs → cs ≠ [] → 4 <= h →
  let top := frame_scroll_top h v' in
  let sel := current_selection v' in
  0 <= top <= sel ∧ sel < top + h - 3
  ∧ (∃ c, cs !! Z.to_nat sel = Some c
          ∧ frame_rows h cs v' !! Z.to_nat (sel - top)
            = Some (mk_row (2 + (sel - top)) sel c true))
  ∧ ∀ i rw, frame_rows h cs v' !! i = Some rw →
      2 <= row_line rw <= h - 2
      ∧ row_idx rw = top + Z.of_nat i
      ∧ cs !! Z.to_nat (row_idx rw) = Some (row_child rw)
      ∧ (row_reverse rw = true ↔ i = Z.to_nat (sel - top)).
Proof.
  intros Hrun Hcs Hne Hh.
  destruct (draw_tree_view_tree _ _ _ _ _ _ Hrun Hcs) as [n Hn].
  unfold draw_tree_view in Hrun.
  destruct (tree_view_loop_scroll_kept inputs st (mk_nav [tree] 0 0 true)
                                       st' v') as [Hsel Hsc];
    try exact Hrun.
  - by repeat constructor.
  - unfold selection_kept.
    rewrite (current_children_top st _ _ _ _ tree n) by done.
    destruct (get_children n); simpl; lia.
  - by left.
  - unfold selection_kept in Hsel. unfold scroll_kept in Hsc.
    rewrite Hcs in Hsel, Hsc.
    apply frame_rows_selected; [done| |].
    + destruct Hsc as [|[= ->]]; done.
    + destruct cs; [done|exact Hsel].
Qed.

Lemma selected_row_is_drawn_witness :
  ∃ c, frame_rows 5 [2; 1]%nat (mk_nav [0%nat] 1 0 false)
       !! Z.to_nat (1 - frame_scroll_top 5 (mk_nav [0%nat] 1 0 false))
       = Some (mk_row (2 + (1 - frame_scroll_top 5 (mk_nav [0%nat] 1 0 false)))
                      1 c true).
Proof.
  destruct (selected_row_is_drawn
              [(5, ord "s"); (5, Curses.KEY_DOWN); (5, Curses.KEY_DOWN)]
              demo_store
              (<[0%nat := mk_node "demo" directory 2010 (Some [2; 1]%nat)
                            None None None]> demo_store)
              0%nat (mk_nav [0%nat] 1 0 false) 5 [2; 1]%nat)
    as (_ & _ & (c & _ & Hc) & _).
  - reflexivity.
  - reflexivity.
  - discriminate.
  - lia.
  - exists c. exact Hc.
Defined.

(** ** Text cut to fit *)

(** [s[:j]] and [s[i:]], the bounds clamped as in a list slice. *)
Definition str_to (s : string) (j : Z) : string :=
  String.substring 0
    (Z.to_nat (slice_bound (Z.of_nat (String.length s)) j)) s.

Definition str_from (s : string) (i : Z) : string :=
  let n := Z.of_nat (String.length s) in
  let a := slice_bound n i in
  String.substring (Z.to_nat a) (Z.to_nat (n - a)) s.

(** [f"{s:<{width}}"]: left-aligned in a field of [width] characters; a
    longer string is left as it is. *)
Definition ljust (width : Z) (s : string) : string :=
  s +:+ Py.spaces (Z.to_nat width - String.length s).

(** The width of the name column in [draw_tree_view]. *)
Definition max_name_width (w : Z) : Z :=
  if w - 17 <? 4 then 4 else w - 17.

(** The name of a row before the cut: directories get a slash. *)
Definition row_full_name (child : node) : string :=
  match type child with
  | directory => name child +:+ "/"
  | file => name child
  end.

(** The name as the row shows it on a screen of [w] columns. *)
Definition row_name (w : Z) (child : node) : string :=
  let name := row_full_name child in
  if max_name_width w <? Z.of_nat (String.length name)
  then str_to name (max_name_width w - 3) +:+ "..."
  else name.

(** The width of the dialog box and the path line of [draw_dialog]. *)
Definition box_w (w : Z) : Z := Z.min (w - 4) 80.

Definition display_path (box_w : Z) (current_path : string) : string :=
  if box_w - 5 <? Z.of_nat (String.length current_path)
  then "..." +:+ str_from current_path (- (box_w - 8))
  else current_path.

Lemma length_append (s1 s2 : string) :
  String.length (s1 +:+ s2) = (String.length s1 + String.length s2)%nat.
Proof. induction s1 as [|c s1 IH]; simpl; [done|]. by rewrite IH. Qed.

Lemma length_substring (s : string) : ∀ n m,
  String.length (String.substring n m s) = Nat.min m (String.length s - n).
Proof.
  induction s as [|c s IH]; intros n m.
  - destruct n, m; simpl; lia.
  - destruct n as [|n]; simpl.
    + destruct m as [|m]; simpl; [done|]. rewrite IH. lia.
    + rewrite IH. done.
Qed.

Lemma length_spaces n : String.length (Py.spaces n) = n.
Proof.
  induction n as [|n IH]; [done|].
  change (Py.spaces (S n)) with (" " +:+ Py.spaces n).
  rewrite length_append, IH. done.
Qed.

Lemma max_name_width_min w : 4 <= max_name_width w.
Proof. unfold max_name_width. destruct (Z.ltb_spec (w - 17) 4); lia. Qed.

(** X15.  The name column of the tree view has the same width in every
    row: a name longer than [max_name_width] is cut to its first
    [max_name_width - 3] characters followed by three dots, which makes
    exactly [max_name_width] characters; a shorter one is shown whole; and
    padded to the left, each fills exactly [max_name_width] characters,
    however narrow the screen. *)
Theorem row_name_fills_column (w : Z) (child : node) :
  let width := max_name_width w in
  let name := row_full_name child in
  (Z.of_nat (String.length name) <= width → row_name w child = name)
  ∧ (width < Z.of_nat (String.length name) →
     row_name w child
     = String.substring 0 (Z.to_nat (width - 3)) name +:+ "..."
     ∧ Z.of_nat (String.length (row_name w child)) = width)
  ∧ Z.of_nat (String.length (ljust width (row_name w child))) = width.
Proof.
  intros width name.
  pose proof (max_name_width_min w) as Hmin. fold width in Hmin.
  assert (Hshort : Z.of_nat (String.length name) <= width →
                   row_name w child = name).
  { intros Hle. unfold row_name. fold name width.
    by destruct (Z.ltb_spec width (Z.of_nat (String.length name))); [lia|]. }
  assert (Hlong : width < Z.of_nat (String.length name) →
            row_name w child
            = String.substring 0 (Z.to_nat (width - 3)) name +:+ "..."
            ∧ Z.of_nat (String.length (row_name w child)) = width).
  { intros Hlt. unfold row_name. fold name width.
    destruct (Z.ltb_spec width (Z.of_nat (String.length name))); [|lia].
    unfold str_to, slice_bound.
    destruct (Z.ltb_spec (width - 3) 0); [lia|].
    rewrite Z.min_l by lia. split; [done|].
    rewrite length_append, length_substring. simpl. lia. }
  split; [exact Hshort|]. split; [exact Hlong|].
  unfold ljust. rewrite length_append, length_spaces.
  destruct (Z.le_gt_cases (Z.of_nat (String.length name)) width) as [Hle|Hgt].
  - rewrite (Hshort Hle). lia.
  - destruct (Hlong ltac:(lia)) as [_ Hlen]. lia.
Qed.

(** X16.  On a screen of at least 13 columns the path line of the dialog
    fits the field of [box_w - 5] characters it is written over: a path
    that fits is shown whole, a longer one as three dots followed by its
    last [box_w - 8] characters, which makes exactly [box_w - 5]. *)
Theorem display_path_fits (w : Z) (current_path : string) :
  13 <= w →
  let n := String.length current_path in
  let shown := display_path (box_w w) current_path in
  Z.of_nat (String.length shown) <= box_w w - 5
  ∧ (Z.of_nat n <= box_w w - 5 → shown = current_path)
  ∧ (box_w w - 5 < Z.of_nat n →
     shown
     = "..." +:+ String.substring (n - Z.to_nat (box_w w - 8))
                                  (Z.to_nat (box_w w - 8)) current_path
     ∧ Z.of_nat (String.length shown) = box_w w - 5).
Proof.
  intros Hw n shown. subst shown n. unfold display_path.
  assert (Hb : 9 <= box_w w <= 80) by (unfold box_w; lia).
  set (n := String.length current_path).
  destruct (Z.ltb_spec (box_w w - 5) (Z.of_nat n)) as [Hlt|Hge].
  - assert (Heq : str_from current_path (- (box_w w - 8))
                  = String.substring (n - Z.to_nat (box_w w - 8))
                                     (Z.to_nat (box_w w - 8)) current_path).
    { unfold str_from, slice_bound. fold n.
      destruct (Z.ltb_spec (- (box_w w - 8)) 0); [|lia].
      rewrite Z.max_l by lia. f_equal; lia. }
    rewrite Heq.
    assert (Hlen : Z.of_nat (String.length
                     ("..." +:+ String.substring (n - Z.to_nat (box_w w - 8))
                        (Z.to_nat (box_w w - 8)) current_path))
                   = box_w w - 5).
    { rewrite length_append, length_substring. fold n. simpl. lia. }
    split; [lia|]. split; [lia|]. intros _. by split.
  - split; [done|]. split; [done|]. lia.
Qed.

Lemma display_path_fits_witness :
  Z.of_nat (String.length
              (display_path (box_w 20) "/home/user/projects/windu"))
  <= box_w 20 - 5.
Proof.
  apply (display_path_fits 20 "/home/user/projects/windu"). lia.
Defined.

Lemma substring_whole (s : string) :
  String.substring 0 (String.length s) s = s.
Proof. induction s as [|c s IH]; simpl; [done|]. by rewrite IH. Qed.

(** X17.  On a screen of 12 columns or less the cut does not make the
    path fit: the text shown is longer than the field of [box_w - 5]
    characters whenever the path is; with a box of 8 columns
    [-(box_w - 8)] is 0 and the slice keeps the whole path, so the line
    shows three dots followed by the entire path. *)
Theorem display_path_narrow_box_overflows (w : Z) (current_path : string) :
  w <= 12 →
  box_w w - 5 < Z.of_nat (String.length current_path) →
  box_w w - 5
  < Z.of_nat (String.length (display_path (box_w w) current_path))
  ∧ (w = 12 → display_path (box_w w) current_path = "..." +:+ current_path).
Proof.
  intros Hw Hlen.
  assert (Hb : box_w w = w - 4) by (unfold box_w; lia).
  assert (H12 : w = 12 →
            display_path (box_w w) current_path = "..." +:+ current_path).
  { intros ->. change (box_w 12) with 8 in *. unfold display_path.
    destruct (Z.ltb_spec (8 - 5) (Z.of_nat (String.length current_path)));
      [|lia].
    f_equal. unfold str_from, slice_bound. simpl.
    rewrite Z.min_l by lia. rewrite Z.sub_0_r, Nat2Z.id.
    apply substring_whole. }
  split; [|exact H12].
  destruct (decide (w = 12)) as [Heq|Hne].
  - rewrite (H12 Heq), length_append. simpl. lia.
  - unfold display_path.
    destruct (Z.ltb_spec (box_w w - 5)
                         (Z.of_nat (String.length current_path))); [|lia].
    rewrite length_append. simpl. lia.
Qed.

Lemma display_path_narrow_box_overflows_witness :
  box_w 12 - 5 < Z.of_nat (String.length (display_path (box_w 12) "/tmp"))
  ∧ (12 = 12 → display_path (box_w 12) "/tmp" = "..." +:+ "/tmp").
Proof.
  apply (display_path_narrow_box_overflows 12 "/tmp"); [lia|].
  vm_compute. reflexivity.
Defined.

(** ** The worker as the dialog sees it *)

Section WorkerCalls.
Context (getsize : string → option Z).
Context (basename : string → string).

(** The calls of [state.update] in one turn of the loop over the walk:
    the directories, then the files, an unreadable file with size 0. *)
Definition entry_calls (entry : string * list string * list string)
    : list Monitor.call :=
  let '(root, dirs, files) := entry in
  map (λ d, Monitor.Update (Py.path_join root d) false 0) dirs
  ++ map (λ f, Monitor.Update (Py.path_join root f) true
                 (default 0 (getsize (Py.path_join root f)))) files.

Definition pass2_calls (walk : list (string * list string * list string))
    : list Monitor.call :=
  concat (map entry_calls walk).

(** The calls the worker makes on the shared state, first to last:
    [set_total_items] with the count of pass 1, the updates of pass 2
    along the triples its own traversal yields, and [set_done]. *)
Definition worker_calls (total_items : Z)
    (walk : list (string * list string * list string))
    : list Monitor.call :=
  Monitor.SetTotalItems total_items
  :: pass2_calls walk ++ [Monitor.SetDone (Some 0%nat)].

Lemma replay_app calls1 calls2 s :
  replay (calls1 ++ calls2) s = replay calls2 (replay calls1 s).
Proof. apply foldl_app. Qed.

Lemma count_dirs_replay root dirs : ∀ s,
  count_dirs root dirs s
  = replay (map (λ d, Monitor.Update (Py.path_join root d) false 0) dirs) s.
Proof.
  induction dirs as [|d dirs IH]; intros s; [done|].
  change (count_dirs root (d :: dirs) s)
    with (count_dirs root dirs
            (ScanState.update (Py.path_join root d) false 0 s)).
  by rewrite IH.
Qed.

Lemma count_files_replay root files : ∀ s,
  count_files getsize root files s
  = replay (map (λ f, Monitor.Update (Py.path_join root f) true
                        (default 0 (getsize (Py.path_join root f)))) files) s.
Proof.
  induction files as [|f files IH]; intros s; [done|].
  change (count_files getsize root (f :: files) s)
    with (count_files getsize root files
            (ScanState.update (Py.path_join root f) true
               (default 0 (getsize (Py.path_join root f))) s)).
  by rewrite IH.
Qed.

Lemma scan_walk_trace walk : ∀ st path_map state st' path_map' state',
  built st path_map →
  Py.for_each (scan_root getsize) walk (st, path_map, state)
  = Some (st', path_map', state') →
  state' = replay (pass2_calls walk) state.
Proof.
  induction walk as [|[[root dirs] files] walk IH];
    intros st pm state st' pm' state' Hb Hrun; cbn [Py.for_each] in Hrun.
  - by injection Hrun as <- <- <-.
  - destruct (pm !! root) as [p|] eqn:Hp;
      [|by rewrite scan_root_raises in Hrun].
    destruct (scan_root_built getsize st pm state root dirs files Hb
                              ltac:(by eexists))
      as (st1 & pm1 & state1 & Hstep & Hb1 & _).
    rewrite Hstep in Hrun. pose proof (IH _ _ _ _ _ _ Hb1 Hrun) as Hrest.
    clear Hrun IH. unfold scan_root in Hstep. cbn [fst snd] in Hstep.
    rewrite Hp in Hstep. cbn [mbind option_bind] in Hstep.
    assert (Hpok : parent_ok st p).
    { destruct Hb as (_ & _ & _ & Hpm & _). exact (Hpm root p Hp). }
    destruct (scan_dirs_built root p dirs st pm state Hb Hpok)
      as (sta & pma & statea & Hdirs & _ & (n & Hn & _ & [cs Hcs]) & _).
    rewrite Hdirs in Hstep. cbn [mbind option_bind] in Hstep.
    pose proof (scan_dirs_state root p dirs _ _ _ _ _ _ Hpok Hdirs) as ->.
    destruct (scan_files_attached getsize root p files sta pma
                (count_dirs root dirs state) n cs Hn Hcs)
      as (stb & Hfiles & _).
    rewrite Hfiles in Hstep. injection Hstep as <- <- <-.
    rewrite Hrest. unfold pass2_calls. cbn [map concat entry_calls].
    rewrite !replay_app.
    by rewrite <- count_dirs_replay, <- count_files_replay.
Qed.

(** The state pass 2 leaves is the state after its updates, and after
    [set_done] the state after all the calls of the worker. *)
Lemma build_tree_trace second_walk total_items path state st path_map state' :
  build_tree second_walk getsize basename path
             (ScanState.set_total_items total_items state)
  = Some (st, path_map, state') →
  ScanState.set_done (Some 0%nat) state'
  = replay (worker_calls total_items (second_walk path)) state.
Proof.
  intros Hbuild.
  unfold build_tree, alloc in Hbuild. cbn [length app] in Hbuild.
  apply scan_walk_trace in Hbuild; [|apply root_built].
  unfold worker_calls. cbn [replay foldl].
  change (foldl (λ s c, call_effect c s) ?s ?l) with (replay l s).
  rewrite replay_app. cbn [replay foldl call_effect]. by rewrite Hbuild.
Qed.

Definition is_update (c : Monitor.call) : Prop :=
  match c with Monitor.Update _ _ _ => True | _ => False end.

Lemma replay_updates calls : ∀ s,
  Forall is_update calls →
  ScanState.scanned_items (replay calls s)
  = ScanState.scanned_items s + Z.of_nat (length calls)
  ∧ ScanState.total_items (replay calls s) = ScanState.total_items s.
Proof.
  induction calls as [|c calls IH]; intros s Hall; [simpl; lia|].
  apply Forall_cons in Hall as [Hc Hall].
  change (replay (c :: calls) s) with (replay calls (call_effect c s)).
  destruct (IH (call_effect c s) Hall) as [-> ->].
  destruct c as [p f z| |]; try done.
  cbn [length]. rewrite Nat2Z.inj_succ.
  destruct s, f; cbn; lia.
Qed.

Lemma pass2_calls_updates walk : Forall is_update (pass2_calls walk).
Proof.
  unfold pass2_calls. apply Forall_concat, Forall_map, Forall_forall.
  intros [[root dirs] files] _. cbn [entry_calls].
  apply Forall_app. split; apply Forall_map, Forall_forall; done.
Qed.

Lemma pass2_calls_length os_walk path :
  Z.of_nat (length (pass2_calls (os_walk path))) = count_items os_walk path.
Proof.
  rewrite count_items_walk. unfold pass2_calls, walk_dirs, walk_files.
  induction (os_walk path) as [|[[root dirs] files] walk IH]; [done|].
  cbn [map concat entry_calls total foldr].
  rewrite !length_app, !length_map. unfold total in IH.
  fold (pass2_calls walk) in IH |- *. unfold pass2_calls in *. lia.
Qed.

(** After any first part of the worker's calls the items scanned are at
    most the items counted, as long as pass 2 has no more entries to scan
    than pass 1 counted. *)
Lemma worker_prefix_bounds total_items walk k :
  Z.of_nat (length (pass2_calls walk)) <= total_items →
  let s := replay (take k (worker_calls total_items walk)) ScanState.init in
  0 <= ScanState.scanned_items s <= ScanState.total_items s.
Proof.
  intros Htotal.
  destruct k as [|k]; [simpl; lia|].
  unfold worker_calls. cbn [take].
  change (replay (?c :: ?l) ?s) with (replay l (call_effect c s)).
  rewrite take_app, replay_app.
  set (us := take k (pass2_calls walk)).
  set (s0 := call_effect _ ScanState.init).
  assert (Hus : Forall is_update us) by apply Forall_take, pass2_calls_updates.
  destruct (replay_updates us s0 Hus) as [Hsc Htot].
  assert (Hlen : Z.of_nat (length us) <= total_items).
  { subst us. rewrite length_take. lia. }
  assert (Hend : ∀ s j,
            ScanState.scanned_items
              (replay (take j [Monitor.SetDone (Some 0%nat)]) s)
            = ScanState.scanned_items s
            ∧ ScanState.total_items
                (replay (take j [Monitor.SetDone (Some 0%nat)]) s)
              = ScanState.total_items s).
  { intros s [|j]; [done|]. destruct j; done. }
  destruct (Hend (replay us s0) (k - length (pass2_calls walk))%nat)
    as [-> ->].
  rewrite Hsc, Htot. subst s0. simpl. lia.
Qed.

Lemma progress_unit scanned total :
  0 <= scanned <= total →
  ∃ p, progress scanned total = Some p ∧ (0 <= p)%Q ∧ (p <= 1)%Q.
Proof.
  intros Hb. unfold progress, Py.truediv.
  destruct (Z.ltb_spec 0 total) as [Hpos|Hzero].
  - destruct (Z.eqb_spec total 0); [lia|].
    eexists. split; [done|].
    destruct total as [|t|t]; try lia.
    unfold Qdiv, Qinv, Qmult, Qle, inject_Z. simpl.
    rewrite ?Z.mul_1_r, ?Pos.mul_1_l. lia.
  - exists 1%Q. split; [done|]. split; by vm_compute.
Qed.


End WorkerCalls.

(** X18.  The worker walks the directory twice, and the progress of the
    dialog is the items scanned along the second traversal over the items
    counted along the first.  As long as the second traversal lists no
    more entries than the first counted (in particular when the
    filesystem did not change in between), the progress the dialog
    computes never leaves the range from 0 to 1, whenever it looks: the
    state the worker leaves is the state after its calls,
    [set_total_items], one [update] for each entry of the second
    traversal and [set_done]; and along every interleaving in which the
    scanner has made a first part of these calls, every tuple [get_state]
    returns gives a progress between 0 and 1. *)
Theorem progress_stays_between_0_and_1
    (first_walk second_walk
       : string → list (string * list string * list string))
    (getsize : string → option Z) (basename : string → string)
    (path : string) (st : store) (path_map : gmap string ref)
    (state' : ScanState.t)
    (schedule : list Monitor.action) (y : Monitor.sys)
    (snaps : list ScanState.snapshot) :
  count_items second_walk path <= count_items first_walk path →
  build_tree second_walk getsize basename path
             (ScanState.set_total_items (count_items first_walk path)
                                        ScanState.init)
  = Some (st, path_map, state') →
  Monitor.run schedule Monitor.init = Some (y, snaps) →
  scanner_calls schedule
    `prefix_of` worker_calls getsize (count_items first_walk path)
                             (second_walk path) →
  ScanState.set_done (Some 0%nat) state'
  = replay (worker_calls getsize (count_items first_walk path)
                         (second_walk path))
           ScanState.init
  ∧ Forall (λ sn, ∃ p, dialog_progress sn = Some p
                       ∧ (0 <= p)%Q ∧ (p <= 1)%Q) snaps.
Proof.
  intros Hcount Hbuild Hrun [rest Hrest].
  split; [by eapply build_tree_trace|].
  destruct (replay_from schedule _ _ _ lock_owner_init Hrun) as [_ Hall].
  eapply Forall_impl; [exact Hall|]. intros sn [k ->]. cbn beta.
  change (Monitor.shared Monitor.init) with ScanState.init.
  change (Monitor.spc Monitor.init) with Monitor.S_out.
  change (finish 5 Monitor.S_out ScanState.init) with ScanState.init.
  assert (Htake : take k (scanner_calls schedule)
                  = take (Nat.min k (length (scanner_calls schedule)))
                         (worker_calls getsize (count_items first_walk path)
                                       (second_walk path))).
  { rewrite Hrest. rewrite take_app_le by lia.
    destruct (Nat.le_ge_cases k (length (scanner_calls schedule))).
    - by rewrite Nat.min_l.
    - rewrite Nat.min_r by done. by rewrite !take_ge by lia. }
  rewrite Htake.
  pose proof (worker_prefix_bounds getsize (count_items first_walk path)
                (second_walk path)
                (Nat.min k (length (scanner_calls schedule)))) as Hb.
  rewrite pass2_calls_length in Hb. specialize (Hb Hcount).
  cbv zeta in Hb.
  destruct (progress_unit _ _ Hb) as (p & Hp & Hp0 & Hp1).
  exists p. split; [|done]. rewrite <- Hp.
  by destruct (replay _ _).
Qed.

Definition looking_twice : list Monitor.action :=
  [Monitor.DialogCalls; Monitor.DialogRuns; Monitor.DialogRuns;
   Monitor.ScannerCalls (Monitor.SetTotalItems 3); Monitor.ScannerRuns;
   Monitor.ScannerRuns;
   Monitor.ScannerCalls (Monitor.Update "./A" false 0); Monitor.ScannerRuns;
   Monitor.ScannerRuns; Monitor.ScannerRuns; Monitor.ScannerRuns;
   Monitor.DialogCalls; Monitor.DialogRuns; Monitor.DialogRuns].

Lemma progress_stays_between_0_and_1_witness :
  Forall (λ sn, ∃ p, dialog_progress sn = Some p
                     ∧ (0 <= p)%Q ∧ (p <= 1)%Q)
         [(0, 0, 0, 0, 0, ""%string, false);
          (3, 1, 1, 0, 0, "./A"%string, false)].
Proof.
  refine (proj2 (progress_stays_between_0_and_1 demo_walk demo_walk
                   demo_getsize demo_basename "." demo_built
                   (<["./A" := 1%nat]> {["." := 0%nat]})
                   (ScanState.mk 3 3 1 2 2010 "./A/big.txt" false None)
                   looking_twice
                   (Monitor.mk_sys (ScanState.mk 3 1 1 0 0 "./A" false None)
                                   None Monitor.S_out Monitor.D_out)
                   _ _ _ _ _)).
  - unfold count_items, demo_walk. simpl. lia.
  - vm_compute. reflexivity.
  - vm_compute. reflexivity.
  - exists [Monitor.Update "./small.txt" true 10;
            Monitor.Update "./A/big.txt" true 2000;
            Monitor.SetDone (Some 0%nat)].
    vm_compute. reflexivity.
Defined.



(** ** The box of the dialog *)

(** The geometry [draw_dialog] computes from the screen of [h] rows and
    [w] columns; [//] rounds down. *)
Definition box_h : Z := 10.
Definition box_y (h : Z) : Z := (h - box_h) / 2.
Definition box_x (w : Z) : Z := (w - box_w w) / 2.

Definition title (done : bool) : string :=
  if done then "Scan Complete!" else "Scanning...".

(** The column of the title, counted inside the box. *)
Definition title_x (w : Z) (done : bool) : Z :=
  (box_w w - Z.of_nat (String.length (title done))) / 2.

Definition bar_width (w : Z) : Z := box_w w - 6.

(** X19.  On a screen of at least 10 rows and 20 columns the dialog box
    lies inside the screen, at most 80 columns wide and centred: at least
    two columns stay free on either side, and the margins left and right,
    and above and below, differ by one cell at most.  The title, in
    either wording, lies inside the border and is centred the same way,
    and the bar has room for ten cells at least. *)
Theorem dialog_box_inside_screen (h w : Z) (done : bool) :
  10 <= h → 20 <= w →
  let len := Z.of_nat (String.length (title done)) in
  (0 <= box_y h ∧ box_y h + box_h <= h
   ∧ 0 <= (h - box_h - box_y h) - box_y h <= 1)
  ∧ (16 <= box_w w <= 80
     ∧ 2 <= box_x w ∧ box_x w + box_w w + 2 <= w
     ∧ 0 <= (w - box_w w - box_x w) - box_x w <= 1)
  ∧ (1 <= title_x w done ∧ title_x w done + len <= box_w w - 1
     ∧ 0 <= (box_w w - len - title_x w done) - title_x w done <= 1)
  ∧ 10 <= bar_width w.
Proof.
  intros Hh Hw len.
  assert (Hlen : 11 <= len <= 14) by (subst len; destruct done; simpl; lia).
  assert (Hb : 16 <= box_w w <= 80 ∧ box_w w <= w - 4) by (unfold box_w; lia).
  unfold box_y, box_x, title_x, bar_width, box_h. fold len.
  pose proof (Z.div_mod (h - 10) 2 ltac:(lia)) as H1.
  pose proof (Z.mod_pos_bound (h - 10) 2 ltac:(lia)) as H2.
  pose proof (Z.div_mod (w - box_w w) 2 ltac:(lia)) as H3.
  pose proof (Z.mod_pos_bound (w - box_w w) 2 ltac:(lia)) as H4.
  pose proof (Z.div_mod (box_w w - len) 2 ltac:(lia)) as H5.
  pose proof (Z.mod_pos_bound (box_w w - len) 2 ltac:(lia)) as H6.
  lia.
Qed.

Lemma dialog_box_inside_screen_witness :
  0 <= box_y 24 ∧ box_y 24 + box_h <= 24.
Proof.
  destruct (dialog_box_inside_screen 24 80 false) as ((Hy & Hy' & _) & _).
  - lia.
  - lia.
  - split; [exact Hy|exact Hy'].
Defined.

(** ** From the scan to the tree view *)

(** Line 274 of [main], [state.set_done(state.tree)], is two steps: the
    argument [state.tree] is read without the lock, and [set_done] then
    takes the lock and stores it.  The worker may still be running, so its
    own [state.set_done(root_node)] falls before the read, between the
    read and the call, after the call, or not before [main] looks at
    [state.tree] at all. *)
Inductive worker_moment :=
| before_read
| between_read_and_call
| after_call
| not_yet.

(** The shared state when [main] tests [if state.tree], from the state
    [s] the worker's last [update] left. *)
Definition main_after_dialog (m : worker_moment) (root_node : ref)
    (s : ScanState.t) : ScanState.t :=
  match m with
  | before_read =>
      let s := ScanState.set_done (Some root_node) s in
      let arg := ScanState.tree s in
      ScanState.set_done arg s
  | between_read_and_call =>
      let arg := ScanState.tree s in
      let s := ScanState.set_done (Some root_node) s in
      ScanState.set_done arg s
  | after_call =>
      let arg := ScanState.tree s in
      let s := ScanState.set_done arg s in
      ScanState.set_done (Some root_node) s
  | not_yet =>
      let arg := ScanState.tree s in
      ScanState.set_done arg s
  end.

(** X20.  [main] opens the tree view on the finished tree or not at all.
    When pass 2 returns and the recursion depth suffices, the worker
    returns; whatever the moment of its [set_done], after line 274 [done]
    is set and [state.tree] is the root or [None]: the root when the
    worker's [set_done] came before the unlocked read of [state.tree] or
    after the call, [None] when it came between the read and the call,
    which then stores the stale [None] over the root, or when it has not
    come yet.  On the root the tree view never raises, whatever the keys
    and the heights of the screen, and the cursor stays on a child of the
    directory on display. *)
Theorem scanned_tree_is_navigable
    (os_walk : string → list (string * list string * list string))
    (getsize : string → option Z) (basename : string → string)
    (path : string) (state' : ScanState.t) (st : store)
    (path_map : gmap string ref) (fuel : nat) (inputs : list (Z * Z)) :
  build_tree os_walk getsize basename path
             (ScanState.set_total_items (count_items os_walk path)
                                        ScanState.init)
  = Some (st, path_map, state') →
  (length st ≤ fuel)%nat →
  ∃ st2,
    scanner_worker os_walk getsize basename fuel path ScanState.init
    = Some (st2, ScanState.set_done (Some 0%nat) state')
    ∧ (∀ m,
         ScanState.done (main_after_dialog m 0%nat state') = true
         ∧ ScanState.tree (main_after_dialog m 0%nat state')
           = match m with
             | before_read | after_call => Some 0%nat
             | between_read_and_call | not_yet => None
             end)
    ∧ is_Some (draw_tree_view inputs st2 0%nat)
    ∧ ∀ st3 v3, draw_tree_view inputs st2 0%nat = Some (Next st3 v3) →
        selection_kept st3 v3.
Proof.
  intros Hbuild Hfuel.
  destruct (worker_finishes os_walk getsize basename path ScanState.init
              state' st path_map fuel Hbuild Hfuel)
    as (st2 & Hworker & Hlen & Hsame & _).
  destruct (build_tree_built os_walk getsize basename _ _ _ _ _ Hbuild)
    as (Hts & Hpos & _).
  assert (Htree : ScanState.tree state' = None).
  { unfold build_tree, alloc in Hbuild. cbn [length app] in Hbuild.
    apply scan_walk_counted in Hbuild; [|apply root_built].
    by destruct Hbuild as (_ & _ & _ & _ & _ & ->). }
  assert (Hroot : is_Some (st2 !! 0%nat)).
  { apply lookup_lt_is_Some. lia. }
  assert (Hcl : closed st2).
  { intros r n2 c Hn2 Hc. apply lookup_lt_is_Some. rewrite Hlen.
    apply lookup_lt_Some in Hn2 as Hlt. rewrite Hlen in Hlt.
    destruct (lookup_lt_is_Some_2 st r Hlt) as [n Hn].
    destruct (Hsame r n Hn) as (n2' & Hn2' & Hs & _).
    assert (n2' = n2) as -> by congruence.
    destruct Hs as (_ & _ & _ & _ & _ & _ & Hperm).
    rewrite <- Hperm in Hc. by destruct (Hts r n c Hn Hc). }
  exists st2. split; [done|]. split.
  { intros m. destruct m; simpl; by rewrite ?Htree. }
  split.
  - destruct Hroot as [n Hn]. unfold draw_tree_view.
    apply tree_view_loop_returns; try done.
    + by repeat constructor.
    + unfold selection_kept.
      rewrite (current_children_top st2 _ _ _ _ 0%nat n) by done.
      destruct (get_children n); simpl; lia.
  - intros st3 v3 Hrun. by eapply selection_kept_in_range.
Qed.

Lemma scanned_tree_is_navigable_witness :
  ∃ st2,
    scanner_worker demo_walk demo_getsize demo_basename 4 "." ScanState.init
    = Some (st2, ScanState.set_done
                   (Some 0%nat)
                   (ScanState.mk 3 3 1 2 2010 "./A/big.txt" false None))
    ∧ (∀ m,
         ScanState.done
           (main_after_dialog
              m 0%nat (ScanState.mk 3 3 1 2 2010 "./A/big.txt" false None))
         = true
         ∧ ScanState.tree
             (main_after_dialog
                m 0%nat (ScanState.mk 3 3 1 2 2010 "./A/big.txt" false None))
           = match m with
             | before_read | after_call => Some 0%nat
             | between_read_and_call | not_yet => None
             end)
    ∧ is_Some (draw_tree_view [(24, Curses.KEY_DOWN); (24, 10)] st2 0%nat)
    ∧ ∀ st3 v3,
        draw_tree_view [(24, Curses.KEY_DOWN); (24, 10)] st2 0%nat
        = Some (Next st3 v3) →
        selection_kept st3 v3.
Proof.
  eapply (scanned_tree_is_navigable demo_walk demo_getsize demo_basename
            "." _ demo_built (<["./A" := 1%nat]> {["." := 0%nat]})).
  - vm_compute. reflexivity.
  - simpl. lia.
Defined.
